(** * Narration engine of the image-descriptor application

    A shallow embedding of [Photo1/app/(tabs)/index.tsx]: the language
    catalog, the hazard-text clean-up and translation, the narration
    commands ([speakCurrentDescription], [playServerAudio], [playTTSAudio],
    [changeLanguage], [toggleAudioMode]), the gestures and the texts of the
    result screen, the analysis of an image ([captureImage],
    [returnToCamera]) and the effect that starts the narration by itself;
    with the properties the specification states about them and further
    properties of the code. *)

From Stdlib Require Import String Ascii.
From Stdlib Require Import NArith ZArith Bool Lia Arith List.
From Stdlib Require QArith Qabs Lqa DecimalString.
Import ListNotations.

(* ===================================================================== *)
(** * JavaScript strings *)
(* ===================================================================== *)

(** A JavaScript string is a sequence of UTF-16 code units. *)
Definition jsstring := list N.

Open Scope N_scope.

(** The source file is UTF-8; a string literal of the source denotes the
    UTF-16 code units of the text it spells.  [utf16] decodes the bytes of
    a literal written in this file the same way. *)
Fixpoint utf16 (bs : list N) : jsstring :=
  match bs with
  | [] => []
  | b0 :: r1 =>
    if b0 <? 128 then b0 :: utf16 r1
    else match r1 with
    | [] => [b0]
    | b1 :: r2 =>
      if b0 <? 224 then
        (N.lor (N.shiftl (N.land b0 31) 6) (N.land b1 63)) :: utf16 r2
      else match r2 with
      | [] => [b0; b1]
      | b2 :: r3 =>
        if b0 <? 240 then
          (N.lor (N.shiftl (N.land b0 15) 12)
             (N.lor (N.shiftl (N.land b1 63) 6) (N.land b2 63))) :: utf16 r3
        else match r3 with
        | [] => [b0; b1; b2]
        | b3 :: r4 =>
          let cp := N.lor (N.shiftl (N.land b0 7) 18)
                     (N.lor (N.shiftl (N.land b1 63) 12)
                       (N.lor (N.shiftl (N.land b2 63) 6) (N.land b3 63))) in
          let v := cp - 65536 in
          (55296 + N.shiftr v 10) :: (56320 + N.land v 1023) :: utf16 r4
        end
      end
    end
  end.

Definition js (s : string) : jsstring :=
  utf16 (map (fun a => N_of_ascii a) (list_ascii_of_string s)).

(** Character classes of the regular expressions of the source. *)

(** [\d] *)
Definition isDigit (c : N) : bool := (48 <=? c) && (c <=? 57).

(** [\s], and the characters [String.prototype.trim] removes: the
    ECMAScript WhiteSpace and LineTerminator code points. *)
Definition isWhiteSpace (c : N) : bool :=
  ((9 <=? c) && (c <=? 13)) || (c =? 32) || (c =? 160) || (c =? 5760)
  || ((8192 <=? c) && (c <=? 8202)) || (c =? 8232) || (c =? 8233)
  || (c =? 8239) || (c =? 8287) || (c =? 12288) || (c =? 65279).

(** ASCII upper-casing.  Under the [i] flag (without [u]) a pattern
    character and an input character match when their canonical forms
    agree, and canonicalisation never maps a code unit of 128 or more to
    one below 128: against an ASCII pattern only ASCII case folding can
    make a match. *)
Definition upperAscii (c : N) : N :=
  if (97 <=? c) && (c <=? 122) then c - 32 else c.

Definition lowerAscii (c : N) : N :=
  if (65 <=? c) && (c <=? 90) then c + 32 else c.

(** pattern character [k] under the [i] flag *)
Definition ciChar (k : N) (c : N) : bool := upperAscii c =? upperAscii k.

(** pattern character [k] without flag *)
Definition exactChar (k : N) (c : N) : bool := c =? k.

(** [String.prototype.toLowerCase].  The mappings written out are all those
    whose result contains a code unit below 128: the ASCII capitals, KELVIN
    SIGN (U+212A, to [k]) and LATIN CAPITAL LETTER I WITH DOT ABOVE (U+0130,
    to [i] followed by U+0307).  Every other code unit is sent by the Unicode
    tables to code units of 128 or more; they are kept as they are, which
    makes no difference to a search for an ASCII needle. *)
Definition lowerUnit (c : N) : jsstring :=
  if c =? 8490 then [107]
  else if c =? 304 then [105; 775]
  else [lowerAscii c].

Definition toLowerCase (s : jsstring) : jsstring := flat_map lowerUnit s.

Definition unitsEqb (a b : jsstring) : bool :=
  if list_eq_dec N.eq_dec a b then true else false.

Fixpoint startsWith (needle s : jsstring) : bool :=
  match needle, s with
  | [], _ => true
  | _ :: _, [] => false
  | k :: needle', c :: s' => (c =? k) && startsWith needle' s'
  end.

(** [String.prototype.includes] *)
Fixpoint includes (s needle : jsstring) : bool :=
  startsWith needle s ||
  match s with
  | [] => false
  | _ :: s' => includes s' needle
  end.

Fixpoint trimStart (s : jsstring) : jsstring :=
  match s with
  | [] => []
  | c :: s' => if isWhiteSpace c then trimStart s' else s
  end.

Definition trimEnd (s : jsstring) : jsstring := rev (trimStart (rev s)).

(** [String.prototype.trim] *)
Definition trim (s : jsstring) : jsstring := trimEnd (trimStart s).

(* ===================================================================== *)
(** * The regular expressions of the source *)
(* ===================================================================== *)

(** The patterns of the source are sequences of single characters and of
    quantified character classes.  In each of them a quantified class is
    followed either by a character outside the class or by optional parts
    only, so the greedy choice is the only one that can lead to a match
    and no backtracking is modelled. *)
Inductive item : Type :=
| One  (p : N -> bool)   (* one character of the class *)
| Opt  (p : N -> bool)   (* [x?] *)
| Star (p : N -> bool)   (* [x*] *)
| Plus (p : N -> bool).  (* [x+] *)

Definition regex := list item.

Definition itemClass (i : item) : N -> bool :=
  match i with One p | Opt p | Star p | Plus p => p end.

(** longest prefix of characters of a class, and what follows it *)
Fixpoint span (p : N -> bool) (t : jsstring) : jsstring * jsstring :=
  match t with
  | [] => ([], [])
  | c :: t' =>
    if p c then let (g, r) := span p t' in (c :: g, r) else ([], t)
  end.

(** the text [g] matched by an item, put before what the rest of the
    pattern matched *)
Definition consume (g : jsstring) (m : option (list jsstring * jsstring))
    : option (list jsstring * jsstring) :=
  match m with
  | Some (gs, rest) => Some (g :: gs, rest)
  | None => None
  end.

(** [exec r t]: the match of [r] anchored at the start of [t], as the text
    matched by each item of [r] in turn, and the text after the match. *)
Fixpoint exec (r : regex) (t : jsstring) : option (list jsstring * jsstring) :=
  match r with
  | [] => Some ([], t)
  | One p :: r' =>
    match t with
    | c :: t' => if p c then consume [c] (exec r' t') else None
    | [] => None
    end
  | Opt p :: r' =>
    match t with
    | c :: t' =>
      if p c then consume [c] (exec r' t') else consume [] (exec r' t)
    | [] => consume [] (exec r' t)
    end
  | Star p :: r' => let (g, t') := span p t in consume g (exec r' t')
  | Plus p :: r' =>
    let (g, t') := span p t in
    match g with
    | [] => None
    | _ :: _ => consume g (exec r' t')
    end
  end.

(** [s.replace(r, repl)] for a pattern without the [g] flag: the leftmost
    match only.  [repl] builds the replacement from the matched items. *)
Fixpoint replaceFirst (r : regex) (repl : list jsstring -> jsstring)
    (t : jsstring) : jsstring :=
  match exec r t with
  | Some (gs, rest) => repl gs ++ rest
  | None =>
    match t with
    | [] => []
    | c :: t' => c :: replaceFirst r repl t'
    end
  end.

(** [s.replace(r, repl)] for a pattern with the [g] flag: every match, left
    to right, the search resuming after each match (one character further
    after an empty one).  [skip] counts the characters of the current match
    still to pass over. *)
Fixpoint replaceAllFrom (r : regex) (repl : list jsstring -> jsstring)
    (skip : nat) (t : jsstring) : jsstring :=
  match t with
  | [] =>
    match skip, exec r [] with
    | O, Some (gs, _) => repl gs
    | _, _ => []
    end
  | c :: t' =>
    match skip with
    | S k => replaceAllFrom r repl k t'
    | O =>
      match exec r t with
      | Some (gs, _) =>
        match length (concat gs) with
        | O => repl gs ++ c :: replaceAllFrom r repl O t'
        | S k => repl gs ++ replaceAllFrom r repl k t'
        end
      | None => c :: replaceAllFrom r repl O t'
      end
    end
  end.

Definition replaceAll (r : regex) (repl : list jsstring -> jsstring)
    (t : jsstring) : jsstring :=
  replaceAllFrom r repl O t.

(** a pattern that spells a text, under the [i] flag *)
Definition literalCi (k : jsstring) : regex := map (fun c => One (ciChar c)) k.

(** a replacement text without [$] patterns *)
Definition constant (s : jsstring) : list jsstring -> jsstring := fun _ => s.

(** the replacement text ['$n'], counting the items of the pattern from 0 *)
Definition group (n : nat) : list jsstring -> jsstring := fun gs => nth n gs [].

Close Scope N_scope.

(* ===================================================================== *)
(** * Language catalog *)
(* ===================================================================== *)

Record Language : Type := mkLanguage {
  code : string;
  name : string;
  voice : string
}.

Definition LANGUAGES : list Language := [
  mkLanguage "english" "English" "en-US";
  mkLanguage "hindi" "Hindi" "hi-IN";
  mkLanguage "bengali" "Bengali" "bn-IN";
  mkLanguage "telugu" "Telugu" "te-IN";
  mkLanguage "tamil" "Tamil" "ta-IN";
  mkLanguage "malayalam" "Malayalam" "ml-IN"
].

(** [LANGUAGES[currentLanguageIndex]]; the index is kept below the length
    by [changeLanguage], the default stands for [undefined]. *)
Definition languageAt (i : nat) : Language :=
  nth i LANGUAGES (mkLanguage "" "" "").

(** the state update of [changeLanguage]: [(prev + 1) % LANGUAGES.length] *)
Definition nextLanguageIndex (prev : nat) : nat :=
  (prev + 1) mod (length LANGUAGES).

(* ===================================================================== *)
(** * Hazard text *)
(* ===================================================================== *)

(** [hasHazardousObjects], with the state [hazardInfo] it closes over as
    argument; [!hazardInfo] holds of [null] and of the empty string. *)
Definition hasHazardousObjects (hazardInfo : option jsstring) : bool :=
  match hazardInfo with
  | None => false
  | Some [] => false
  | Some h =>
    let lowerHazard := toLowerCase h in
    includes lowerHazard (js "detected")
    && negb (includes lowerHazard (js "no objects detected"))
  end.

(** The table [translations] of [translateHazardInfo], each language with
    its entries in the order they are written, which is the order
    [Object.entries] enumerates them in. *)
Definition translations : list (string * list (jsstring * jsstring)) := [
  ("hindi"%string, [
    (js "Safety alert", js "सुरक्षा चेतावनी");
    (js "No hazardous objects present in the image",
       js "छवि में कोई खतरनाक वस्तु मौजूद नहीं है");
    (js "detected", js "का पता लगाया गया");
    (js "close", js "पास");
    (js "very close", js "बहुत पास");
    (js "medium distance", js "मध्यम दूरी");
    (js "far", js "दूर");
    (js "left", js "बाएं");
    (js "center", js "केंद्र");
    (js "right", js "दाएं");
    (js "Scissors", js "कैंची");
    (js "Knife", js "चाकू")
  ]);
  ("bengali"%string, [
    (js "Safety alert", js "নিরাপত্তা সতর্কতা");
    (js "No hazardous objects present in the image",
       js "ছবিতে কোনো বিপজ্জনক বস্তু নেই");
    (js "detected", js "সনাক্ত করা হয়েছে");
    (js "close", js "কাছে");
    (js "very close", js "খুব কাছে");
    (js "medium distance", js "মাঝারি দূরত্ব");
    (js "far", js "দূরে");
    (js "left", js "বাম");
    (js "center", js "কেন্দ্র");
    (js "right", js "ডান");
    (js "Scissors", js "কাঁচি");
    (js "Knife", js "ছুরি")
  ]);
  ("telugu"%string, [
    (js "Safety alert", js "భద్రతా హెచ్చరిక");
    (js "No hazardous objects present in the image",
       js "చిత్రంలో ప్రమాదకరమైన వస్తువులు లేవు");
    (js "detected", js "గుర్తించబడింది");
    (js "close", js "దగ్గరగా");
    (js "very close", js "చాలా దగ్గరగా");
    (js "medium distance", js "మధ్య దూరం");
    (js "far", js "దూరంగా");
    (js "left", js "ఎడమ");
    (js "center", js "మధ్య");
    (js "right", js "కుడి");
    (js "Scissors", js "కత్తెర");
    (js "Knife", js "కత్తి")
  ]);
  ("tamil"%string, [
    (js "Safety alert", js "பாதுகாப்பு எச்சரிக்கை");
    (js "No hazardous objects present in the image",
       js "படத்தில் ஆபத்தான பொருள்கள் எதுவும் இல்லை");
    (js "detected", js "கண்டறியப்பட்டது");
    (js "close", js "அருகில்");
    (js "very close", js "மிக அருகில்");
    (js "medium distance", js "நடுத்தர தூரம்");
    (js "far", js "தொலைவில்");
    (js "left", js "இடது");
    (js "center", js "மையம்");
    (js "right", js "வலது");
    (js "Scissors", js "கத்தரிக்கோல்");
    (js "Knife", js "கத்தி")
  ]);
  ("malayalam"%string, [
    (js "Safety alert", js "സുരക്ഷാ മുന്നറിയിപ്പ്");
    (js "No hazardous objects present in the image",
       js "ചിത്രത്തിൽ അപകടകരമായ വസ്തുക്കൾ ഇല്ല");
    (js "detected", js "കണ്ടെത്തി");
    (js "close", js "അടുത്ത്");
    (js "very close", js "വളരെ അടുത്ത്");
    (js "medium distance", js "ഇടത്തരം ദൂരം");
    (js "far", js "ദൂരെ");
    (js "left", js "ഇടത്");
    (js "center", js "മധ്യം");
    (js "right", js "വലത്");
    (js "Scissors", js "കത്രിക");
    (js "Knife", js "കത്തി")
  ])
].

(** [o[k]] for an object made by a literal, with its own properties [o],
    at a key that is one of them or that the object does not inherit
    either.  The program reads its objects at the codes of the catalog,
    which are no names of inherited properties. *)
Fixpoint lookup {A : Type} (k : string) (o : list (string * A)) : option A :=
  match o with
  | [] => None
  | (k', v) :: o' => if String.eqb k k' then Some v else lookup k o'
  end.

(** one turn of the [forEach] of [translateHazardInfo]:
    [translatedText.replace(new RegExp(english, 'gi'), translated)].  The
    keys of the table are letters and spaces, without pattern syntax, and
    the localized texts hold no [$]. *)
Definition translateEntry (translatedText : jsstring)
    (entry : jsstring * jsstring) : jsstring :=
  let (english, translated) := entry in
  replaceAll (literalCi english) (constant translated) translatedText.

Definition translateHazardInfo (hazardText : jsstring)
    (targetLanguage : Language) : jsstring :=
  if String.eqb (code targetLanguage) "english" then hazardText
  else
    match lookup (code targetLanguage) translations with
    | Some langTranslations =>
      fold_left translateEntry langTranslations hazardText
    | None => hazardText
    end.

(** The patterns of the clean-up in [speakCurrentDescription]. *)

Definition LF : N := 10%N.

(** [/Detected \d+ objects?:?\n?/i] *)
Definition reHeader : regex :=
  literalCi (js "Detected ") ++ [Plus isDigit] ++ literalCi (js " object")
  ++ [Opt (ciChar 115); Opt (exactChar 58); Opt (exactChar LF)].

(** [/\d+\.\s*/g] *)
Definition reNumbering : regex :=
  [Plus isDigit; One (exactChar 46); Star isWhiteSpace].

(** [/\s*-\s*\d+\.\d+\s*/g] *)
Definition reConfidence : regex :=
  [Star isWhiteSpace; One (exactChar 45); Star isWhiteSpace;
   Plus isDigit; One (exactChar 46); Plus isDigit; Star isWhiteSpace].

(** [/\(([^)]+)\)/g]; the group [$1] is the second item *)
Definition reParens : regex :=
  [One (exactChar 40); Plus (fun c => negb (c =? 41)%N); One (exactChar 41)].

(** The clean-up of the hazard text "for better speech", the five
    assignments to [hazardText] in [speakCurrentDescription]. *)
Definition cleanHazardText (hazardText : jsstring) : jsstring :=
  let hazardText := replaceFirst reHeader (constant (js "Safety alert: ")) hazardText in
  let hazardText := replaceAll reNumbering (constant []) hazardText in
  let hazardText := replaceAll reConfidence (constant []) hazardText in
  let hazardText := replaceAll reParens (group 1) hazardText in
  trim hazardText.

(** [a || b] on strings *)
Definition orElse (a b : jsstring) : jsstring :=
  match a with [] => b | _ :: _ => a end.

Definition hazardFallback : jsstring :=
  js "Safety alert: Hazardous objects detected in the image".

Definition noHazardMessage : jsstring :=
  js "No hazardous objects present in the image".

(** The branch of [speakCurrentDescription] taken when
    [hasHazardousObjects()] holds: clean-up, then the fallback sentence for
    an empty result. *)
Definition hazardMessage (hazardInfo : option jsstring) : jsstring :=
  let hazardText := match hazardInfo with Some h => h | None => [] end in
  orElse (cleanHazardText hazardText) hazardFallback.

(** [safetyMessage] as [speakCurrentDescription] computes it. *)
Definition safetyMessage (hazardInfo : option jsstring) : jsstring :=
  if hasHazardousObjects hazardInfo then hazardMessage hazardInfo
  else noHazardMessage.

(** What is handed to the speech synthesizer for the safety phase:
    [translateHazardInfo(safetyMessage, currentLanguage)].  An empty
    [safetyMessage] is not spoken; it never is empty. *)
Definition translatedSafetyMessage (hazardInfo : option jsstring)
    (currentLanguage : Language) : jsstring :=
  translateHazardInfo (safetyMessage hazardInfo) currentLanguage.

(* ===================================================================== *)
(** * Narration: state, platform and commands *)
(* ===================================================================== *)

Record CaptionData : Type := mkCaption {
  text : jsstring;
  audio_base64 : option jsstring
}.

Inductive AudioMode : Type := server | tts.

(** The React state the narration reads and writes.  A callback sees the
    values of the render it was created in. *)
Record AppState : Type := mkAppState {
  currentLanguageIndex : nat;
  isPlaying : bool;
  captions : list (string * CaptionData);
  hazardInfo : option jsstring;
  audioMode : AudioMode;
  isPlayingDescription : bool;
  isPlayingHazard : bool
}.

Definition handle := nat.
Definition sound := handle.
Definition uri := N.
Definition error := string.

(** The status that settles the promise [playServerAudio] returns: its
    callback resolves on [isLoaded && didJustFinish], rejects on
    [!isLoaded && error] and lets every other status pass. *)
Inductive playbackStatus : Type :=
| DidJustFinish
| NotLoadedError (e : error).

(** Calls that return at once. *)
Inductive cmd : Type -> Type :=
| GetSoundRef : cmd (option sound)                    (* soundRef.current *)
| SetSoundRef (s : option sound) : cmd unit
| SetIsPlaying (b : bool) : cmd unit
| SetIsPlayingDescription (b : bool) : cmd unit
| SetIsPlayingHazard (b : bool) : cmd unit
| SetCurrentLanguageIndex (f : nat -> nat) : cmd unit
| SetAudioMode (f : AudioMode -> AudioMode) : cmd unit
| SpeechStop : cmd unit                               (* Speech.stop() *)
| AlertAlert (title message : string) : cmd unit      (* Alert.alert *)
| DateNow : cmd N                                     (* Date.now() *)
| DeleteAsync (u : uri) : cmd unit.  (* FileSystem.deleteAsync, not awaited *)

(** Operations the code awaits: the function is suspended until the
    platform settles them. *)
Inductive op : Type -> Type :=
| UnloadAsync (s : sound) : op unit
| WriteAsStringAsync (u : uri) (data : jsstring) : op unit
| CreateAsync (u : uri) : op sound                    (* shouldPlay: true *)
| PlaybackStatusUpdate (s : sound) : op playbackStatus
| Speak (t : jsstring) (v : string) : op unit         (* onDone / onError *)
| Timeout (ms : nat) : op unit.

(** An [async] function body: it returns, throws, makes a call, or awaits
    an operation and goes on with its value or its rejection. *)
Inductive prog (R : Type) : Type :=
| Ret (r : R)
| Throw (e : error)
| Call (X : Type) (c : cmd X) (k : X -> prog R)
| Await (X : Type) (o : op X) (k : X + error -> prog R).

Arguments Ret {R} r.
Arguments Throw {R} e.
Arguments Call {R X} c k.
Arguments Await {R X} o k.

Fixpoint bind {A B : Type} (p : prog A) (f : A -> prog B) : prog B :=
  match p with
  | Ret r => f r
  | Throw e => Throw e
  | Call c k => Call c (fun x => bind (k x) f)
  | Await o k => Await o (fun x => bind (k x) f)
  end.

(** [try { p } catch (e) { h e }] *)
Fixpoint tryCatch {A : Type} (p : prog A) (h : error -> prog A) : prog A :=
  match p with
  | Ret r => Ret r
  | Throw e => h e
  | Call c k => Call c (fun x => tryCatch (k x) h)
  | Await o k => Await o (fun x => tryCatch (k x) h)
  end.

(** [try { p } finally { f }] *)
Fixpoint tryFinally {A : Type} (p : prog A) (f : prog unit) : prog A :=
  match p with
  | Ret r => bind f (fun _ => Ret r)
  | Throw e => bind f (fun _ => Throw e)
  | Call c k => Call c (fun x => tryFinally (k x) f)
  | Await o k => Await o (fun x => tryFinally (k x) f)
  end.

Definition call {X : Type} (c : cmd X) : prog X := Call c (fun x => Ret x).

Definition await {X : Type} (o : op X) : prog X :=
  Await o (fun r => match r with inl x => Ret x | inr e => Throw e end).

Declare Scope prog_scope.
Delimit Scope prog_scope with prog.
Notation "x <- p ;; q" := (bind p (fun x => q))
  (at level 61, p at next level, right associativity) : prog_scope.
Notation "p ;; q" := (bind p (fun _ => q))
  (at level 61, right associativity) : prog_scope.
Open Scope prog_scope.

(** [audioBase64.replace(/^data:audio\/mp3;base64,/, '')] *)
Definition dataUrlPrefix : jsstring := js "data:audio/mp3;base64,".

Definition stripDataUrlPrefix (audioBase64 : jsstring) : jsstring :=
  if startsWith dataUrlPrefix audioBase64
  then skipn (length dataUrlPrefix) audioBase64
  else audioBase64.

(** The block that [speakCurrentDescription], [changeLanguage] and
    [returnToCamera] each start with: unload the sound of [soundRef], stop
    the synthesizer, reset the three flags. *)
Definition stopCurrentAudio : prog unit :=
  cur <- call GetSoundRef ;;
  match cur with
  | Some s => await (UnloadAsync s) ;; call (SetSoundRef None)
  | None => Ret tt
  end ;;
  call SpeechStop ;;
  call (SetIsPlaying false) ;;
  call (SetIsPlayingDescription false) ;;
  call (SetIsPlayingHazard false).

(** [playServerAudio].  Its [catch] logs and throws the error again.  The
    temporary file is named after [Date.now()]. *)
Definition playServerAudio (audioBase64 : jsstring) : prog unit :=
  cur <- call GetSoundRef ;;
  match cur with
  | Some s => await (UnloadAsync s) ;; call (SetSoundRef None)
  | None => Ret tt
  end ;;
  audioUri <- call DateNow ;;
  let base64Data := stripDataUrlPrefix audioBase64 in
  await (WriteAsStringAsync audioUri base64Data) ;;
  snd <- await (CreateAsync audioUri) ;;
  call (SetSoundRef (Some snd)) ;;
  status <- await (PlaybackStatusUpdate snd) ;;
  match status with
  | DidJustFinish => call (DeleteAsync audioUri)    (* clean up temp file *)
  | NotLoadedError e => Throw e
  end.

(** [playTTSAudio] *)
Definition playTTSAudio (t : jsstring) (language : Language) : prog unit :=
  await (Speak t (voice language)).

(** a value of [audio_base64] that counts as true: a non-empty string *)
Definition truthy (a : option jsstring) : option jsstring :=
  match a with
  | Some (c :: a') => Some (c :: a')
  | _ => None
  end.

(** [speakCurrentDescription], as created in the render [r]. *)
Definition speakCurrentDescription (r : AppState) : prog unit :=
  let currentLanguage := languageAt (currentLanguageIndex r) in
  if isPlaying r then
    stopCurrentAudio
  else
    match lookup (code currentLanguage) (captions r) with
    | None =>
      call (AlertAlert "No Description"
                       "No description available for this language.")
    | Some currentCaption =>
      tryFinally
        (tryCatch
          (call (SetIsPlaying true) ;;
           (* first, the image description *)
           call (SetIsPlayingDescription true) ;;
           match audioMode r, truthy (audio_base64 currentCaption) with
           | server, Some audio =>
             tryCatch (playServerAudio audio)
               (fun _ => playTTSAudio (text currentCaption) currentLanguage)
           | _, _ => playTTSAudio (text currentCaption) currentLanguage
           end ;;
           call (SetIsPlayingDescription false) ;;
           (* wait a moment between descriptions *)
           await (Timeout 1000) ;;
           (* always the safety information *)
           call (SetIsPlayingHazard true) ;;
           match safetyMessage (hazardInfo r) with
           | [] => Ret tt
           | message =>
             playTTSAudio (translateHazardInfo message currentLanguage)
                          currentLanguage
           end ;;
           call (SetIsPlayingHazard false))
          (fun _ =>
             call (AlertAlert "Audio Error"
               "Unable to play audio. Please check your device settings.")))
        (call (SetIsPlaying false) ;;
         call (SetIsPlayingDescription false) ;;
         call (SetIsPlayingHazard false))
    end.

(** [changeLanguage] *)
Definition changeLanguage : prog unit :=
  stopCurrentAudio ;;
  call (SetCurrentLanguageIndex nextLanguageIndex).

(** [toggleAudioMode] *)
Definition toggleAudioMode : prog unit :=
  call (SetAudioMode (fun prev =>
    match prev with server => tts | tts => server end)).

(* ===================================================================== *)
(** * The event loop *)
(* ===================================================================== *)

(** What the user can hear or see, and what happens to the resources, in
    the order it happens. *)
Inductive event : Type :=
| EvSpeak (t : jsstring) (v : string)   (* the synthesizer starts on a text *)
| EvSpeechStop                          (* Speech.stop() *)
| EvAlert (title message : string)
| EvWrite (u : uri)                     (* a temporary file is written *)
| EvPlay (s : sound) (u : uri)          (* a sound is created and starts *)
| EvUnload (s : sound)
| EvDelete (u : uri).

(** A suspended [async] call: the operation it awaits and what it does with
    the outcome. *)
Inductive task : Type :=
| Task (h : handle) (X : Type) (o : op X) (k : X + error -> prog unit).

Arguments Task h {X} o k.

Definition taskHandle (t : task) : handle :=
  match t with Task h _ _ => h end.

(** The application and as much of the platform as the narration touches:
    the React state, [soundRef.current], the clock, the files of the
    document directory, the sounds that are loaded, the utterances the
    synthesizer has been given and has not finished, the suspended calls
    and the events so far. *)
Record World : Type := mkWorld {
  state : AppState;
  soundRef : option sound;
  clock : N;
  files : list uri;
  loaded : list sound;
  speaking : list handle;
  fresh : handle;
  tasks : list task;
  log : list event
}.

Definition withState (f : AppState -> AppState) (w : World) : World :=
  mkWorld (f (state w)) (soundRef w) (clock w) (files w) (loaded w)
          (speaking w) (fresh w) (tasks w) (log w).

Definition withSoundRef (s : option sound) (w : World) : World :=
  mkWorld (state w) s (clock w) (files w) (loaded w)
          (speaking w) (fresh w) (tasks w) (log w).

Definition withClock (c : N) (w : World) : World :=
  mkWorld (state w) (soundRef w) c (files w) (loaded w)
          (speaking w) (fresh w) (tasks w) (log w).

Definition withFiles (fs : list uri) (w : World) : World :=
  mkWorld (state w) (soundRef w) (clock w) fs (loaded w)
          (speaking w) (fresh w) (tasks w) (log w).

Definition withLoaded (l : list sound) (w : World) : World :=
  mkWorld (state w) (soundRef w) (clock w) (files w) l
          (speaking w) (fresh w) (tasks w) (log w).

Definition withSpeaking (l : list handle) (w : World) : World :=
  mkWorld (state w) (soundRef w) (clock w) (files w) (loaded w)
          l (fresh w) (tasks w) (log w).

Definition withFresh (n : handle) (w : World) : World :=
  mkWorld (state w) (soundRef w) (clock w) (files w) (loaded w)
          (speaking w) n (tasks w) (log w).

Definition withTasks (ts : list task) (w : World) : World :=
  mkWorld (state w) (soundRef w) (clock w) (files w) (loaded w)
          (speaking w) (fresh w) ts (log w).

Definition emit (e : event) (w : World) : World :=
  mkWorld (state w) (soundRef w) (clock w) (files w) (loaded w)
          (speaking w) (fresh w) (tasks w) (log w ++ [e]).

Definition setIsPlaying (b : bool) (s : AppState) : AppState :=
  mkAppState (currentLanguageIndex s) b (captions s) (hazardInfo s)
             (audioMode s) (isPlayingDescription s) (isPlayingHazard s).

Definition setIsPlayingDescription (b : bool) (s : AppState) : AppState :=
  mkAppState (currentLanguageIndex s) (isPlaying s) (captions s)
             (hazardInfo s) (audioMode s) b (isPlayingHazard s).

Definition setIsPlayingHazard (b : bool) (s : AppState) : AppState :=
  mkAppState (currentLanguageIndex s) (isPlaying s) (captions s)
             (hazardInfo s) (audioMode s) (isPlayingDescription s) b.

Definition setCurrentLanguageIndex (f : nat -> nat) (s : AppState) : AppState :=
  mkAppState (f (currentLanguageIndex s)) (isPlaying s) (captions s)
             (hazardInfo s) (audioMode s) (isPlayingDescription s)
             (isPlayingHazard s).

Definition setAudioMode (f : AudioMode -> AudioMode) (s : AppState) : AppState :=
  mkAppState (currentLanguageIndex s) (isPlaying s) (captions s)
             (hazardInfo s) (f (audioMode s)) (isPlayingDescription s)
             (isPlayingHazard s).

Definition removeNat (n : nat) (l : list nat) : list nat :=
  filter (fun m => negb (Nat.eqb m n)) l.

Definition removeUri (u : uri) (l : list uri) : list uri :=
  filter (fun v => negb (N.eqb v u)) l.

Definition memNat (n : nat) (l : list nat) : bool := existsb (Nat.eqb n) l.

(** A call that returns at once, and what it leaves behind. *)
Definition perform {X : Type} (c : cmd X) (w : World) : X * World :=
  match c in cmd X return X * World with
  | GetSoundRef => (soundRef w, w)
  | SetSoundRef s => (tt, withSoundRef s w)
  | SetIsPlaying b => (tt, withState (setIsPlaying b) w)
  | SetIsPlayingDescription b => (tt, withState (setIsPlayingDescription b) w)
  | SetIsPlayingHazard b => (tt, withState (setIsPlayingHazard b) w)
  | SetCurrentLanguageIndex f => (tt, withState (setCurrentLanguageIndex f) w)
  | SetAudioMode f => (tt, withState (setAudioMode f) w)
  | SpeechStop => (tt, emit EvSpeechStop (withSpeaking [] w))
  | AlertAlert title message => (tt, emit (EvAlert title message) w)
  | DateNow => (clock w, w)
  | DeleteAsync u => (tt, emit (EvDelete u) (withFiles (removeUri u (files w)) w))
  end.

(** What an awaited operation does when it is issued, [h] being the handle
    of the call that awaits it: an unloaded sound is silent from then on,
    the synthesizer takes the utterance. *)
Definition issue {X : Type} (o : op X) (h : handle) (w : World) : World :=
  match o with
  | UnloadAsync s => emit (EvUnload s) (withLoaded (removeNat s (loaded w)) w)
  | Speak t v => emit (EvSpeak t v) (withSpeaking (h :: speaking w) w)
  | _ => w
  end.

(** [run p w] executes [p] up to its end or to the first operation it
    awaits, where the call is suspended.  An error thrown out of the
    function is an unhandled rejection and changes nothing. *)
Fixpoint run (p : prog unit) (w : World) : World :=
  match p with
  | Ret _ => w
  | Throw _ => w
  | Call c k => let (x, w') := perform c w in run (k x) w'
  | Await o k =>
    let h := fresh w in
    withTasks (tasks w ++ [Task h o k]) (issue o h (withFresh (S h) w))
  end.

(** The platform settles the operation [o] of the suspended call [h] with
    success.  A playback can finish only while its sound is loaded, an
    utterance can be done only while the synthesizer has it. *)
Definition resolve {X : Type} (o : op X) (h : handle) (w : World)
    : option ((X + error) * World) :=
  match o in op X return option ((X + error) * World) with
  | UnloadAsync _ => Some (inl tt, w)
  | WriteAsStringAsync u _ =>
    Some (inl tt, emit (EvWrite u) (withFiles (u :: files w) w))
  | CreateAsync u =>
    let s := fresh w in
    Some (inl s, emit (EvPlay s u)
                   (withLoaded (s :: loaded w) (withFresh (S s) w)))
  | PlaybackStatusUpdate s =>
    if memNat s (loaded w) then Some (inl DidJustFinish, w) else None
  | Speak _ _ =>
    if memNat h (speaking w)
    then Some (inl tt, withSpeaking (removeNat h (speaking w)) w)
    else None
  | Timeout _ => Some (inl tt, w)
  end.

(** The platform settles the operation with the error [e].  A playback
    error is a status of a sound that is no longer loaded; a timer does not
    fail. *)
Definition reject {X : Type} (o : op X) (h : handle) (e : error) (w : World)
    : option ((X + error) * World) :=
  match o in op X return option ((X + error) * World) with
  | UnloadAsync _ => Some (inr e, w)
  | WriteAsStringAsync _ _ => Some (inr e, w)
  | CreateAsync _ => Some (inr e, w)
  | PlaybackStatusUpdate s =>
    if memNat s (loaded w)
    then Some (inl (NotLoadedError e), withLoaded (removeNat s (loaded w)) w)
    else None
  | Speak _ _ =>
    if memNat h (speaking w)
    then Some (inr e, withSpeaking (removeNat h (speaking w)) w)
    else None
  | Timeout _ => None
  end.

Fixpoint findTask (h : handle) (ts : list task) : option task :=
  match ts with
  | [] => None
  | t :: ts' => if Nat.eqb (taskHandle t) h then Some t else findTask h ts'
  end.

Definition dropTask (h : handle) (ts : list task) : list task :=
  filter (fun t => negb (Nat.eqb (taskHandle t) h)) ts.

(** What reaches the event loop: the user's commands, the passing of time,
    and the platform settling an awaited operation. *)
Inductive input : Type :=
| Press                           (* the speak button: speakDescription *)
| Swipe                           (* a horizontal swipe: changeLanguage *)
| ToggleMode                      (* the audio mode button *)
| Tick (ms : N)
| Resolve (h : handle)
| Reject (h : handle) (e : error).

Definition settle (h : handle) (outcome : option error) (w : World) : World :=
  match findTask h (tasks w) with
  | None => w
  | Some (Task _ o k) =>
    let settled :=
      match outcome with
      | None => resolve o h w
      | Some e => reject o h e w
      end in
    match settled with
    | None => w
    | Some (r, w') => run (k r) (withTasks (dropTask h (tasks w')) w')
    end
  end.

(** One turn of the event loop.  A command runs the callback of the
    current render. *)
Definition step (w : World) (i : input) : World :=
  match i with
  | Press => run (speakCurrentDescription (state w)) w
  | Swipe => run changeLanguage w
  | ToggleMode => run toggleAudioMode w
  | Tick ms => withClock (clock w + ms)%N w
  | Resolve h => settle h None w
  | Reject h e => settle h (Some e) w
  end.

Definition steps (w : World) (inputs : list input) : World :=
  fold_left step inputs w.

Definition idle (s : AppState) : Prop :=
  isPlaying s = false /\ isPlayingDescription s = false
  /\ isPlayingHazard s = false.

Definition isSpeak (e : event) : bool :=
  match e with EvSpeak _ _ => true | _ => false end.

Definition speeches (l : list event) : list event := filter isSpeak l.

(** The hazard report of the worked example of the specification. *)
Definition scenario : jsstring :=
  js "Detected 2 objects:" ++ [LF] ++ js "1. Knife - 0.91 (close, left)"
  ++ [LF] ++ js "2. Scissors - 0.77 (far, right)".

Definition hindi : Language := languageAt 1.

(** [subseq s t]: [s] is left of [t] when some of its characters are
    deleted. *)
Fixpoint subseq (s t : jsstring) : bool :=
  match t with
  | [] => match s with [] => true | _ :: _ => false end
  | c :: t' =>
    match s with
    | [] => true
    | d :: s' => if (d =? c)%N then subseq s' t' else subseq s t'
    end
  end.

(** The localized texts of a language: the values of its table. *)
Definition tableOf (l : Language) : list (jsstring * jsstring) :=
  match lookup (code l) translations with
  | Some langTranslations => langTranslations
  | None => []
  end.

Definition localizedPhrases (l : Language) : list jsstring :=
  map snd (tableOf l).

(** what the table of a language gives for an English phrase *)
Definition entryFor (l : Language) (english : jsstring) : option jsstring :=
  match find (fun e => unitsEqb (fst e) english) (tableOf l) with
  | Some e => Some (snd e)
  | None => None
  end.

(** The "no hazardous objects" sentence of a language: the English
    sentence, or what the table of the language has for it as a whole. *)
Definition noHazardBoilerplate (l : Language) : jsstring :=
  if String.eqb (code l) "english" then noHazardMessage
  else match entryFor l noHazardMessage with
       | Some localized => localized
       | None => noHazardMessage
       end.

(** The clean-up and the translation by themselves, the lines after the
    test [hasHazardousObjects()]: what the safety phase speaks for a report
    that has passed the test.  The processing of a report as a whole, with
    the test, is [translatedSafetyMessage]. *)
Definition processHazard (report : jsstring) (l : Language) : jsstring :=
  translateHazardInfo (hazardMessage (Some report)) l.

(** A report with an object that is very close. *)
Definition veryCloseReport : jsstring :=
  js "Detected 1 object:" ++ [LF] ++ js "1. Knife - 0.91 (very close, left)".

(** A world in which every suspended call has a handle that was handed
    out before. *)
Definition wellFormed (w : World) : Prop :=
  Forall (fun t => taskHandle t < fresh w) (tasks w).

(** the call that was suspended last *)
Definition pending (w : World) : option handle :=
  match rev (tasks w) with
  | t :: _ => Some (taskHandle t)
  | [] => None
  end.

(** The platform settles the operation of the call suspended last, with
    success ([None]) or with an error: a narration that runs on without
    another command in between. *)
Definition answer (w : World) (outcome : option error) : World :=
  match pending w with
  | Some h => settle h outcome w
  | None => w
  end.

Definition answers (w : World) (outcomes : list (option error)) : World :=
  fold_left answer outcomes w.

(** [changeLanguage] run to its end: the swipe, and the unloading of the
    current sound when there is one. *)
Definition swipe (w : World) : World :=
  match soundRef w with
  | Some _ => answer (step w Swipe) None
  | None => step w Swipe
  end.

(** The speak button pressed while [isPlaying] holds, run to its end. *)
Definition pressToStop (w : World) : World :=
  match soundRef w with
  | Some _ => answer (step w Press) None
  | None => step w Press
  end.

Definition currentLanguage (w : World) : Language :=
  languageAt (currentLanguageIndex (state w)).

Definition currentCaption (w : World) : option CaptionData :=
  lookup (code (currentLanguage w)) (captions (state w)).

(** the events of [w'] that came after those of [w] *)
Definition since (w w' : World) : list event :=
  skipn (length (log w)) (log w').

(** Outcomes under which the operations of a call succeed [n] times and
    the next one fails with [e]. *)
Definition failsAt (n : nat) (e : error) : list (option error) :=
  repeat None n ++ [Some e].

(** The number of operations [playServerAudio] awaits: unloading the
    previous sound when there is one, writing the file, creating the sound,
    and the playback itself. *)
Definition renderedOperations (w : World) : nat :=
  match soundRef w with
  | Some _ => 4
  | None => 3
  end.

Definition audioErrorAlert : event :=
  EvAlert "Audio Error"
          "Unable to play audio. Please check your device settings.".

Definition noDescriptionAlert : event :=
  EvAlert "No Description" "No description available for this language.".

(** the outcome of an operation as the platform decides it *)
Definition outcomeOf {X : Type} (o : op X) (h : handle)
    (outcome : option error) (w : World) : option ((X + error) * World) :=
  match outcome with
  | None => resolve o h w
  | Some e => reject o h e w
  end.

(** When the platform can settle an operation: a playback while its sound
    is loaded, an utterance while the synthesizer has it. *)
Definition enabled {X : Type} (o : op X) (h : handle) (w : World) : Prop :=
  match o with
  | PlaybackStatusUpdate s => In s (loaded w)
  | Speak _ _ => In h (speaking w)
  | _ => True
  end.

(** [outcomeOf] for an operation that is enabled. *)
Definition effect {X : Type} (o : op X) (h : handle)
    (outcome : option error) (w : World) : option ((X + error) * World) :=
  match o in op X return option ((X + error) * World) with
  | UnloadAsync _ =>
    match outcome with None => Some (inl tt, w) | Some e => Some (inr e, w) end
  | WriteAsStringAsync u _ =>
    match outcome with
    | None => Some (inl tt, emit (EvWrite u) (withFiles (u :: files w) w))
    | Some e => Some (inr e, w)
    end
  | CreateAsync u =>
    match outcome with
    | None =>
      let s := fresh w in
      Some (inl s, emit (EvPlay s u)
                     (withLoaded (s :: loaded w) (withFresh (S s) w)))
    | Some e => Some (inr e, w)
    end
  | PlaybackStatusUpdate s =>
    match outcome with
    | None => Some (inl DidJustFinish, w)
    | Some e =>
      Some (inl (NotLoadedError e), withLoaded (removeNat s (loaded w)) w)
    end
  | Speak _ _ =>
    let w' := withSpeaking (removeNat h (speaking w)) w in
    match outcome with
    | None => Some (inl tt, w')
    | Some e => Some (inr e, w')
    end
  | Timeout _ =>
    match outcome with None => Some (inl tt, w) | Some _ => None end
  end.

(** ** Localized phrases and the patterns

    What the re-processing argument needs to say about the tables and the
    patterns. *)

(** A character none of the patterns of the clean-up and no key of a table
    can match: not ASCII and not white space. *)
Definition inert (c : N) : bool := (128 <=? c)%N && negb (isWhiteSpace c).

(** The shape of the localized phrases: inert characters, with single
    spaces between them. *)
Fixpoint phraseTail (t : jsstring) : bool :=
  match t with
  | [] => true
  | c :: t' =>
    if inert c then phraseTail t'
    else if (c =? 32)%N then
      match t' with
      | d :: t'' => inert d && phraseTail t''
      | [] => false
      end
    else false
  end.

Definition phraseShaped (p : jsstring) : bool :=
  match p with
  | c :: t => inert c && phraseTail t
  | [] => false
  end.

(** [x] belongs to no class of the pattern [r] *)
Definition blocked (r : regex) (x : N) : bool :=
  forallb (fun i => negb (itemClass i x)) r.

(** [r] cannot match the empty text *)
Definition needsChar (r : regex) : bool :=
  existsb (fun i => match i with One _ | Plus _ => true | _ => false end) r.

(** A text cut at some of its phrases: the text before the first of them,
    then each phrase with the text that follows it. *)
Fixpoint weave (a : jsstring) (pieces : list (jsstring * jsstring))
    : jsstring :=
  match pieces with
  | [] => a
  | (p, b) :: pieces' => a ++ p ++ weave b pieces'
  end.

(** [f] leaves the phrases of a text in place: however the text is cut at
    phrases, the result is the same phrases in the same order, with some
    text before, between and after them. *)
Definition keeps (f : jsstring -> jsstring) : Prop :=
  forall a pieces,
    Forall (fun p => phraseShaped p = true) (map fst pieces) ->
    exists a' pieces',
      map fst pieces' = map fst pieces
      /\ f (weave a pieces) = weave a' pieces'.

(** a key of ASCII characters that is not a single space *)
Definition asciiKey (k : jsstring) : bool :=
  forallb (fun c => (c <? 128)%N) k
  && needsChar (literalCi k)
  && match exec (literalCi k) [32%N] with None => true | Some _ => false end.

(** a match that ends before [x :: b], seen from the whole text *)
Definition extend (x : N) (b : jsstring)
    (m : option (list jsstring * jsstring)) :=
  match m with
  | Some (gs, rest) => Some (gs, rest ++ x :: b)
  | None => None
  end.

(** a pattern that matches no inert character, not the empty text and
    not a single space *)
Definition inertSafe (r : regex) : Prop :=
  (forall x, inert x = true -> blocked r x = true)
  /\ needsChar r = true
  /\ exec r [32%N] = None.

(** [[^)]] *)
Definition notClose (c : N) : bool := negb (c =? 41)%N.


(** ** A concrete analysis

    The example report, with captions in English and Hindi, seen in
    Hindi. *)
Definition demoAudio : jsstring := js "SUQzBAA=".

Definition demoCaption : CaptionData :=
  mkCaption (js "मेज़ पर चाकू और कैंची") (Some demoAudio).

Definition demoCaptions : list (string * CaptionData) :=
  [ ("english"%string,
     mkCaption (js "A knife and scissors on a table")
               (Some (js "data:audio/mp3;base64,SUQzBAA=")));
    ("hindi"%string, demoCaption) ].

Definition demoState : AppState :=
  mkAppState 1 false demoCaptions (Some scenario) server false false.

Definition demoWorld : World :=
  mkWorld demoState None 1700000000000%N [] [] [] 0 [] [].

(** the same, seen in Bengali, for which the analysis has no caption *)
Definition demoBengali : World :=
  withState (setCurrentLanguageIndex (fun _ => 2)) demoWorld.

(** the same, seen in English *)
Definition demoEnglish : World :=
  withState (setCurrentLanguageIndex (fun _ => 0)) demoWorld.

(** the narration of [demoWorld] while the sound of the description
    plays *)
Definition demoPlaying : World := answers (step demoWorld Press) [None; None].

(** ** Keys and the texts that replace them *)

(** [k] occurs in [t], letter case apart. *)
Definition occursCi (k t : jsstring) : bool :=
  includes (map upperAscii t) (map upperAscii k).

(** a replacement text none of whose characters a key can match, and
    that is not empty *)
Definition foreignTo (d p : jsstring) : bool :=
  match p with
  | [] => false
  | _ :: _ => forallb (fun c => forallb (fun k => negb (ciChar k c)) d) p
  end.

(** the key [d] is in the table, with a replacement foreign to it, and
    so are the replacements of the entries after it *)
Fixpoint afterKey (d : jsstring) (table : list (jsstring * jsstring)) : bool :=
  match table with
  | [] => false
  | (k, p) :: rest =>
    if unitsEqb k d then
      foreignTo d p
      && forallb (fun e => needsChar (literalCi (fst e)) && foreignTo d (snd e))
                 rest
    else afterKey d rest
  end.

(** lower-case letters that no other character is lowered to *)
Definition plainLower (n : jsstring) : bool :=
  forallb (fun k => (97 <=? k)%N && (k <=? 122)%N
                    && negb (k =? 107)%N && negb (k =? 105)%N) n.

(* ===================================================================== *)
(** * Hazard text: what the further properties speak of *)
(* ===================================================================== *)

(** a digit with a full stop after it somewhere in [t] *)
Fixpoint digitDot (t : jsstring) : bool :=
  match t with
  | d :: ((c :: _) as t') => (isDigit d && (c =? 46)%N) || digitDot t'
  | _ => false
  end.

(** a full stop at the start of [t] *)
Definition dotFirst (t : jsstring) : bool :=
  match t with c :: _ => (c =? 46)%N | [] => false end.

(** a full stop after the digits [t] begins with *)
Definition dotAfterDigits (t : jsstring) : bool :=
  dotFirst (snd (span isDigit t)).




(* ===================================================================== *)
(** * The audio mode and the narration *)
(* ===================================================================== *)

(** the calls other than [setAudioMode] *)
Definition keepsMode {X : Type} (c : cmd X) : Prop :=
  match c with SetAudioMode _ => False | _ => True end.

(** a function body that never sets the audio mode *)
Fixpoint quiet {R : Type} (p : prog R) : Prop :=
  match p with
  | Ret _ => True
  | Throw _ => True
  | Call c k => keepsMode c /\ forall x, quiet (k x)
  | Await _ k => forall x, quiet (k x)
  end.

Definition quietTask (t : task) : Prop :=
  match t with Task _ _ k => forall x, quiet (k x) end.

(** the update of [toggleAudioMode] *)
Definition otherMode (prev : AudioMode) : AudioMode :=
  match prev with server => tts | tts => server end.

Definition toggled (w : World) : World := withState (setAudioMode otherMode) w.

(** a world in which no suspended call sets the audio mode *)
Definition allQuiet (w : World) : Prop := Forall quietTask (tasks w).

Definition liftToggled {X : Type} (m : option ((X + error) * World))
    : option ((X + error) * World) :=
  match m with Some (r, w') => Some (r, toggled w') | None => None end.

(** [demoWorld] with the audio mode [tts] *)
Definition demoTts : World := withState (setAudioMode (fun _ => tts)) demoWorld.

(* ===================================================================== *)
(** * Gestures of the result screen *)
(* ===================================================================== *)

(** The distances [dx] and [dy] of a gesture are finite numbers, here
    exact rationals, as every finite double is; the handlers take their
    absolute values and compare them. *)
Definition number := QArith_base.Q.

(** [x > y] *)
Definition greater (x y : number) : bool := negb (QArith_base.Qle_bool x y).

(** [onMoveShouldSetPanResponder] *)
Definition onMoveShouldSetPanResponder (dx dy : number) : bool :=
  greater (Qabs.Qabs dx) (QArith_base.inject_Z 20%Z)
  || greater (Qabs.Qabs dy) (QArith_base.inject_Z 20%Z).

(** what the release of a gesture calls *)
Inductive gestureCall : Type :=
| CallChangeLanguage
| CallReturnToCamera.

Definition minSwipeDistance : number := QArith_base.inject_Z 50%Z.

(** [onPanResponderRelease] *)
Definition onPanResponderRelease (dx dy : number) : option gestureCall :=
  if greater (Qabs.Qabs dx) minSwipeDistance
     || greater (Qabs.Qabs dy) minSwipeDistance
  then
    if greater (Qabs.Qabs dx) (Qabs.Qabs dy) then
      (* horizontal swipe, in either direction *)
      Some CallChangeLanguage
    else
      (* vertical swipe *)
      if greater (QArith_base.inject_Z 0%Z) dy then Some CallReturnToCamera   (* swipe up *)
      else None
  else None.

(* ===================================================================== *)
(** * The result screen *)
(* ===================================================================== *)

(** What the result screen shows of the state of a render. *)

(** the caption of the current language, [captions[currentLanguage.code]] *)
Definition captionOf (r : AppState) : option CaptionData :=
  lookup (code (languageAt (currentLanguageIndex r))) (captions r).

(** [captions[currentLanguage.code]?.text ||
     "No description available for this language."] *)
Definition descriptionText (r : AppState) : jsstring :=
  orElse (match captionOf r with Some c => text c | None => [] end)
         (js "No description available for this language.").

(** [captions[currentLanguage.code]?.audio_base64] as a condition: what
    makes the audio status read 'AI Audio Available' and not 'TTS Only' *)
Definition hasRenderedAudio (r : AppState) : bool :=
  match captionOf r with
  | Some c =>
    match truthy (audio_base64 c) with Some _ => true | None => false end
  | None => false
  end.

(** the playback status, shown while [isPlaying] *)
Definition playbackStatusText (r : AppState) : option string :=
  if isPlaying r then
    Some (if isPlayingDescription r then "Playing Description"
          else "Playing Safety Alert")%string
  else None.

(* ===================================================================== *)
(** * The analysis of an image *)
(* ===================================================================== *)

Inductive Screen : Type := cameraScreen | resultScreen.

(** The response of the server, as far as [captureImage] reads it. *)
Record Response : Type := mkResponse {
  ok : bool;
  status : nat
}.

(** A caption of the analysis that is an object.  Its fields [text] and
    [audio_base64] are strings when they are there, as the type
    [CaptionData] of the source says. *)
Record CaptionJson : Type := mkCaptionJson {
  jsonText : option jsstring;
  jsonAudio : option jsstring
}.

(** The value [response.json()] gives, when it is not [null]:
    [image_caption], when it is there and not a false value, with its
    entries in the order of [Object.entries], each an object or not; and
    [hazard_detection], a string when it is there. *)
Record AnalysisResult : Type := mkAnalysisResult {
  image_caption : option (list (string * option CaptionJson));
  hazard_detection : option jsstring
}.

(** the property [k] of [o] added, or replaced when it is there *)
Fixpoint setOwn {A : Type} (k : string) (v : A) (o : list (string * A))
    : list (string * A) :=
  match o with
  | [] => [(k, v)]
  | (k', v') :: o' =>
    if String.eqb k k' then (k, v) :: o' else (k', v') :: setOwn k v o'
  end.

(** [o[k] = v] on an object made by a literal, [o] its own properties.
    The key ["__proto__"] is the accessor of the prototype: the assignment
    sets the prototype of the object, when [v] is an object, and adds no
    property.  A prototype set this way shows at the names of its own
    properties and nowhere else. *)
Definition assign {A : Type} (k : string) (v : A) (o : list (string * A))
    : list (string * A) :=
  if String.eqb k "__proto__" then o else setOwn k v o.

(** The names of the properties that an object made by a literal inherits
    from [Object.prototype]. *)
Definition inheritedNames : list string :=
  [ "constructor"; "hasOwnProperty"; "isPrototypeOf"; "propertyIsEnumerable";
    "toLocaleString"; "toString"; "valueOf"; "__proto__";
    "__defineGetter__"; "__defineSetter__"; "__lookupGetter__";
    "__lookupSetter__" ]%string.

(** [{ text: captionData.text || 'No description available',
       audio_base64: captionData.audio_base64 }] *)
Definition processedCaption (captionData : CaptionJson) : CaptionData :=
  mkCaption (orElse (match jsonText captionData with
                     | Some t => t
                     | None => []
                     end)
                    (js "No description available"))
            (jsonAudio captionData).

(** one turn of the loop over [Object.entries(result.image_caption)]:
    an entry that is an object is taken, any other is passed over *)
Definition processEntry (processedCaptions : list (string * CaptionData))
    (entry : string * option CaptionJson) : list (string * CaptionData) :=
  match entry with
  | (lang, Some data) => assign lang (processedCaption data) processedCaptions
  | (_, None) => processedCaptions
  end.

(** the property an entry of [image_caption] leaves in the captions *)
Definition ownCaption (entry : string * option CaptionJson)
    : list (string * CaptionData) :=
  match entry with
  | (lang, Some data) =>
    if String.eqb lang "__proto__" then []
    else [(lang, processedCaption data)]
  | (_, None) => []
  end.

Definition processCaptions (entries : list (string * option CaptionJson))
    : list (string * CaptionData) :=
  fold_left processEntry entries [].

(** [result.hazard_detection || 'No hazard information available'] *)
Definition receivedHazardInfo (result : AnalysisResult) : jsstring :=
  orElse (match hazard_detection result with Some h => h | None => [] end)
         (js "No hazard information available").

(* ===================================================================== *)
(** * The application around the narration *)
(* ===================================================================== *)

(** Calls that return at once: those of the narration, and the state and
    the camera of the screens. *)
Inductive appCmd : Type -> Type :=
| Narration (X : Type) (c : cmd X) : appCmd X
| GetCameraRef : appCmd bool                  (* cameraRef.current is set *)
| SetIsLoading (b : bool) : appCmd unit
| SetCapturedImage (photo : option jsstring) : appCmd unit
| SetCaptions (c : list (string * CaptionData)) : appCmd unit
| SetHazardInfo (h : option jsstring) : appCmd unit
| SetHasPlayedAudio (b : bool) : appCmd unit
| SetCurrentScreen (s : Screen) : appCmd unit
| AlertRetry (title message : string) : appCmd unit.
                                    (* Alert.alert with OK and Retry *)

Arguments Narration {X} c.

(** Operations that are awaited: those of the narration, the camera and
    the server. *)
Inductive appOp : Type -> Type :=
| Audio (X : Type) (o : op X) : appOp X
| TakePictureAsync : appOp jsstring                       (* photo.uri *)
| Fetch (photo : jsstring) : appOp Response
| ResponseJson (r : Response) : appOp (option AnalysisResult).

Arguments Audio {X} o.

Inductive appProg (R : Type) : Type :=
| ARet (r : R)
| AThrow (e : error)
| ACall (X : Type) (c : appCmd X) (k : X -> appProg R)
| AAwait (X : Type) (o : appOp X) (k : X + error -> appProg R).

Arguments ARet {R} r.
Arguments AThrow {R} e.
Arguments ACall {R X} c k.
Arguments AAwait {R X} o k.

Fixpoint abind {A B : Type} (p : appProg A) (f : A -> appProg B) : appProg B :=
  match p with
  | ARet r => f r
  | AThrow e => AThrow e
  | ACall c k => ACall c (fun x => abind (k x) f)
  | AAwait o k => AAwait o (fun x => abind (k x) f)
  end.

Fixpoint atryCatch {A : Type} (p : appProg A) (h : error -> appProg A)
    : appProg A :=
  match p with
  | ARet r => ARet r
  | AThrow e => h e
  | ACall c k => ACall c (fun x => atryCatch (k x) h)
  | AAwait o k => AAwait o (fun x => atryCatch (k x) h)
  end.

Fixpoint atryFinally {A : Type} (p : appProg A) (f : appProg unit)
    : appProg A :=
  match p with
  | ARet r => abind f (fun _ => ARet r)
  | AThrow e => abind f (fun _ => AThrow e)
  | ACall c k => ACall c (fun x => atryFinally (k x) f)
  | AAwait o k => AAwait o (fun x => atryFinally (k x) f)
  end.

Definition acall {X : Type} (c : appCmd X) : appProg X :=
  ACall c (fun x => ARet x).

Definition aawait {X : Type} (o : appOp X) : appProg X :=
  AAwait o (fun r => match r with inl x => ARet x | inr e => AThrow e end).

(** a function of the narration, called from the screens *)
Fixpoint lift {R : Type} (p : prog R) : appProg R :=
  match p with
  | Ret r => ARet r
  | Throw e => AThrow e
  | Call c k => ACall (Narration c) (fun x => lift (k x))
  | Await o k => AAwait (Audio o) (fun x => lift (k x))
  end.

Declare Scope app_scope.
Delimit Scope app_scope with app.
Notation "x <- p ;; q" := (abind p (fun x => q))
  (at level 61, p at next level, right associativity) : app_scope.
Notation "p ;; q" := (abind p (fun _ => q))
  (at level 61, right associativity) : app_scope.
Open Scope app_scope.

(** the error thrown for a response that is not [ok] *)
Definition httpError (r : Response) : error :=
  String.append "HTTP error! status: "
    (DecimalString.NilZero.string_of_uint (Nat.to_uint (status r))).

(** the error of reading a property of [null] *)
Definition typeError : error := "TypeError"%string.

(** [captureImage], as created in a render with the given [isLoading].
    The request is made of the photo; its address is a constant. *)
Definition captureImage (isLoading : bool) : appProg unit :=
  camera <- acall GetCameraRef ;;
  if camera && negb isLoading then
    atryFinally
      (atryCatch
         (acall (SetIsLoading true) ;;
          photo <- aawait TakePictureAsync ;;
          acall (SetCapturedImage (Some photo)) ;;
          response <- aawait (Fetch photo) ;;
          if negb (ok response) then AThrow (httpError response)
          else
            result <- aawait (ResponseJson response) ;;
            match result with
            | None => AThrow typeError
            | Some result =>
              match image_caption result with
              | Some entries => acall (SetCaptions (processCaptions entries))
              | None => ARet tt
              end ;;
              acall (SetHazardInfo (Some (receivedHazardInfo result))) ;;
              (* reset audio flag for new analysis *)
              acall (SetHasPlayedAudio false) ;;
              acall (SetCurrentScreen resultScreen)
            end)
         (fun _ =>
            acall (AlertRetry "Error"
              "Failed to process image. Please check your network connection and server status.")))
      (acall (SetIsLoading false))
  else ARet tt.

(** [handleCameraPress] *)
Definition handleCameraPress (isLoading : bool) : appProg unit :=
  if negb isLoading then captureImage isLoading else ARet tt.

(** [returnToCamera] *)
Definition returnToCamera : appProg unit :=
  (* stop any playing audio *)
  lift stopCurrentAudio ;;
  (* reset state *)
  acall (SetCurrentScreen cameraScreen) ;;
  acall (SetCapturedImage None) ;;
  acall (SetCaptions []) ;;
  acall (SetHazardInfo None) ;;
  acall (SetHasPlayedAudio false).

Close Scope app_scope.

(** A suspended call of the application. *)
Inductive appTask : Type :=
| AppTask (h : handle) (X : Type) (o : appOp X)
          (k : X + error -> appProg unit).

Arguments AppTask h {X} o k.

Definition appTaskHandle (t : appTask) : handle :=
  match t with AppTask h _ _ => h end.

(** The application: the narration and its platform, the state of the
    screens, the camera, and the suspended calls.  The camera permission
    is granted.  [captionsObject] tells the objects apart that [captions]
    holds, one after the other: [setCaptions] is only ever given an
    object made on the spot. *)
Record App : Type := mkApp {
  world : World;
  currentScreen : Screen;
  capturedImage : option jsstring;
  isLoading : bool;
  hasPlayedAudio : bool;
  cameraRef : bool;
  captionsObject : nat;
  calls : list appTask
}.

Definition withWorld (w : World) (a : App) : App :=
  mkApp w (currentScreen a) (capturedImage a) (isLoading a)
        (hasPlayedAudio a) (cameraRef a) (captionsObject a) (calls a).

Definition withCalls (cs : list appTask) (a : App) : App :=
  mkApp (world a) (currentScreen a) (capturedImage a) (isLoading a)
        (hasPlayedAudio a) (cameraRef a) (captionsObject a) cs.

Definition setCaptions (c : list (string * CaptionData)) (s : AppState)
    : AppState :=
  mkAppState (currentLanguageIndex s) (isPlaying s) c (hazardInfo s)
             (audioMode s) (isPlayingDescription s) (isPlayingHazard s).

Definition setHazardInfo (h : option jsstring) (s : AppState) : AppState :=
  mkAppState (currentLanguageIndex s) (isPlaying s) (captions s) h
             (audioMode s) (isPlayingDescription s) (isPlayingHazard s).

Definition appPerform {X : Type} (c : appCmd X) (a : App) : X * App :=
  match c in appCmd X return X * App with
  | Narration c' =>
    let (x, w') := perform c' (world a) in (x, withWorld w' a)
  | GetCameraRef => (cameraRef a, a)
  | SetIsLoading b =>
    (tt, mkApp (world a) (currentScreen a) (capturedImage a) b
               (hasPlayedAudio a) (cameraRef a) (captionsObject a) (calls a))
  | SetCapturedImage photo =>
    (tt, mkApp (world a) (currentScreen a) photo (isLoading a)
               (hasPlayedAudio a) (cameraRef a) (captionsObject a) (calls a))
  | SetCaptions c' =>                             (* a new object *)
    (tt, mkApp (withState (setCaptions c') (world a)) (currentScreen a)
               (capturedImage a) (isLoading a) (hasPlayedAudio a)
               (cameraRef a) (S (captionsObject a)) (calls a))
  | SetHazardInfo h =>
    (tt, withWorld (withState (setHazardInfo h) (world a)) a)
  | SetHasPlayedAudio b =>
    (tt, mkApp (world a) (currentScreen a) (capturedImage a) (isLoading a)
               b (cameraRef a) (captionsObject a) (calls a))
  | SetCurrentScreen s =>
    (tt, mkApp (world a) s (capturedImage a) (isLoading a)
               (hasPlayedAudio a) (cameraRef a) (captionsObject a) (calls a))
  | AlertRetry title message =>
    (tt, withWorld (emit (EvAlert title message) (world a)) a)
  end.

(** what an awaited operation does when it is issued *)
Definition appIssue {X : Type} (o : appOp X) (h : handle) (w : World) : World :=
  match o with
  | Audio o' => issue o' h w
  | _ => w
  end.

Fixpoint appRun (p : appProg unit) (a : App) : App :=
  match p with
  | ARet _ => a
  | AThrow _ => a
  | ACall c k => let (x, a') := appPerform c a in appRun (k x) a'
  | AAwait o k =>
    let h := fresh (world a) in
    withCalls (calls a ++ [AppTask h o k])
      (withWorld (appIssue o h (withFresh (S h) (world a))) a)
  end.

(** What the platform answers to an awaited operation: that it is done
    or has failed, or the value it gives. *)
Inductive reply : Type :=
| Settled (outcome : option error)
| Photo (photoUri : jsstring)
| Responded (r : Response)
| Parsed (result : option AnalysisResult).

(** The operation [o] of the call [h] settled with a reply; a reply that
    does not fit the operation settles nothing. *)
Definition appOutcome {X : Type} (o : appOp X) (h : handle) (r : reply)
    (w : World) : option ((X + error) * World) :=
  match o in appOp X return option ((X + error) * World) with
  | Audio o' =>
    match r with
    | Settled outcome => outcomeOf o' h outcome w
    | _ => None
    end
  | TakePictureAsync =>
    match r with
    | Photo photoUri => Some (inl photoUri, w)
    | Settled (Some e) => Some (inr e, w)
    | _ => None
    end
  | Fetch _ =>
    match r with
    | Responded response => Some (inl response, w)
    | Settled (Some e) => Some (inr e, w)
    | _ => None
    end
  | ResponseJson _ =>
    match r with
    | Parsed result => Some (inl result, w)
    | Settled (Some e) => Some (inr e, w)
    | _ => None
    end
  end.

Fixpoint findCall (h : handle) (cs : list appTask) : option appTask :=
  match cs with
  | [] => None
  | t :: cs' => if Nat.eqb (appTaskHandle t) h then Some t else findCall h cs'
  end.

Definition dropCall (h : handle) (cs : list appTask) : list appTask :=
  filter (fun t => negb (Nat.eqb (appTaskHandle t) h)) cs.

Definition appSettle (h : handle) (r : reply) (a : App) : App :=
  match findCall h (calls a) with
  | None => a
  | Some (AppTask _ o k) =>
    match appOutcome o h r (world a) with
    | None => a
    | Some (x, w') =>
      appRun (k x) (withCalls (dropCall h (calls a)) (withWorld w' a))
    end
  end.

(** What reaches the application: a touch of the camera screen; on the
    result screen the speak button, the end of a gesture and the audio
    mode button; and the platform settling an operation. *)
Inductive appInput : Type :=
| TouchCamera
| PressSpeak
| ReleaseGesture (dx dy : number)
| PressMode
| Reply (h : handle) (r : reply).

Definition appStep (a : App) (i : appInput) : App :=
  match i, currentScreen a with
  | TouchCamera, cameraScreen => appRun (handleCameraPress (isLoading a)) a
  | PressSpeak, resultScreen =>
    appRun (lift (speakCurrentDescription (state (world a)))) a
  | ReleaseGesture dx dy, resultScreen =>
    match onPanResponderRelease dx dy with
    | Some CallChangeLanguage => appRun (lift changeLanguage) a
    | Some CallReturnToCamera => appRun returnToCamera a
    | None => a
    end
  | PressMode, resultScreen => appRun (lift toggleAudioMode) a
  | Reply h r, _ => appSettle h r a
  | _, _ => a
  end.

(** the call that was suspended last, settled *)
Definition appPending (a : App) : option handle :=
  match rev (calls a) with
  | t :: _ => Some (appTaskHandle t)
  | [] => None
  end.

Definition appAnswer (a : App) (r : reply) : App :=
  match appPending a with
  | Some h => appSettle h r a
  | None => a
  end.

Definition appAnswers (a : App) (rs : list reply) : App :=
  fold_left appAnswer rs a.

Definition appWellFormed (a : App) : Prop :=
  Forall (fun t => appTaskHandle t < fresh (world a)) (calls a).

(** the failures of an analysis: of the camera, of the network, a response
    that is not [ok], a body that is not JSON, and the body [null] *)
Definition captureFailures (photo : jsstring) (good bad : Response)
    (e : error) : list (list reply) :=
  [ [Settled (Some e)];
    [Photo photo; Settled (Some e)];
    [Photo photo; Responded bad];
    [Photo photo; Responded good; Settled (Some e)];
    [Photo photo; Responded good; Parsed None] ].

Definition captureErrorAlert : event :=
  EvAlert "Error"
    "Failed to process image. Please check your network connection and server status.".

(** ** A concrete analysis and application *)

Definition demoPhoto : jsstring := js "file:///cache/photo.jpg".

Definition demoResponse : Response := mkResponse true 200.

Definition demoRefusal : Response := mkResponse false 500.

Definition demoEntries : list (string * option CaptionJson) :=
  [ ("english"%string,
     Some (mkCaptionJson (Some (js "A knife and scissors on a table"))
                         (Some (js "data:audio/mp3;base64,SUQzBAA="))));
    ("hindi"%string,
     Some (mkCaptionJson (Some (text demoCaption)) (audio_base64 demoCaption)));
    ("bengali"%string, Some (mkCaptionJson None None));
    ("telugu"%string, None) ].

Definition demoAnalysis : AnalysisResult :=
  mkAnalysisResult (Some demoEntries) (Some scenario).

(** the state after [demoAnalysis] has been received, seen in Hindi *)
Definition demoReceived : AppState :=
  mkAppState 1 false (processCaptions demoEntries) (Some scenario) server
             false false.

(** the application at its start, on the camera screen *)
Definition demoCameraApp : App :=
  mkApp (mkWorld (mkAppState 0 false [] None server false false)
                 None 1700000000000%N [] [] [] 0 [] [])
        cameraScreen None false false true 0 [].

(** the application on the result screen, with [demoWorld] *)
Definition demoResultApp : App :=
  mkApp demoWorld resultScreen (Some demoPhoto) false false true 1 [].

(** the same while an analysis is under way *)
Definition demoLoadingApp : App := appStep demoCameraApp TouchCamera.

(** an upward gesture *)
Definition demoUp : number * number :=
  (QArith_base.inject_Z 0, QArith_base.inject_Z (-80)).

(* ===================================================================== *)
(** * The narration that starts by itself *)
(* ===================================================================== *)

(** The effect that plays the narration "when language changes or when
    first loaded".  React runs an effect after the first render and after
    every render in which one of its dependencies is not what it was in
    the render before, the clean-up of its last run first; the state set
    in one turn of the event loop is rendered at the end of the turn, and
    the timer takes the [speakCurrentDescription] of that render. *)

Definition sameScreen (s s' : Screen) : bool :=
  match s, s' with
  | cameraScreen, cameraScreen => true
  | resultScreen, resultScreen => true
  | _, _ => false
  end.

(** [[currentLanguageIndex, currentScreen, captions]], compared: the
    first two by value, [captions] as an object *)
Definition sameDependencies (a a' : App) : bool :=
  Nat.eqb (currentLanguageIndex (state (world a)))
          (currentLanguageIndex (state (world a')))
  && sameScreen (currentScreen a) (currentScreen a')
  && Nat.eqb (captionsObject a) (captionsObject a').

(** The body of the effect: on the result screen with a caption at least,
    a timer of 500 ms for the [speakCurrentDescription] of this render. *)
Definition autoPlay (a : App) : option AppState :=
  match currentScreen a, captions (state (world a)) with
  | resultScreen, _ :: _ => Some (state (world a))
  | _, _ => None
  end.

(** The application as rendered, and the timer of the effect while it is
    pending, with the render its callback is of. *)
Record View : Type := mkView {
  shown : App;
  timer : option AppState
}.

(** the first render *)
Definition mount (a : App) : View := mkView a (autoPlay a).

(** the render at the end of a turn that leaves the application as [a'] *)
Definition render (v : View) (a' : App) : View :=
  if sameDependencies (shown v) a' then mkView a' (timer v)
  else mkView a' (autoPlay a').

Inductive viewInput : Type :=
| Of (i : appInput)
| TimerFires.                            (* the 500 ms have passed *)

Definition viewStep (v : View) (i : viewInput) : View :=
  match i with
  | Of i => render v (appStep (shown v) i)
  | TimerFires =>
    match timer v with
    | Some r =>
      render (mkView (shown v) None)
             (appRun (lift (speakCurrentDescription r)) (shown v))
    | None => v
    end
  end.

Definition viewSteps (v : View) (inputs : list viewInput) : View :=
  fold_left viewStep inputs v.

(** the call that was suspended last, settled *)
Definition viewAnswer (v : View) (r : reply) : View :=
  match appPending (shown v) with
  | Some h => viewStep v (Of (Reply h r))
  | None => v
  end.

Definition viewAnswers (v : View) (rs : list reply) : View :=
  fold_left viewAnswer rs v.

(** What a pending timer is sure of: the result screen is shown, there is
    a caption, and the render of the timer has the language and the
    captions of now. *)
Definition timely (v : View) : Prop :=
  match timer v with
  | Some r =>
    currentScreen (shown v) = resultScreen
    /\ captions (state (world (shown v))) <> []
    /\ currentLanguageIndex r = currentLanguageIndex (state (world (shown v)))
    /\ captions r = captions (state (world (shown v)))
  | None => True
  end.

(** [captions] holds a later object, or the same with the same value. *)
Definition laterCaptions (a a' : App) : Prop :=
  captionsObject a <= captionsObject a'
  /\ (captionsObject a = captionsObject a' ->
      captions (state (world a')) = captions (state (world a))).

(** A call that leaves the language index as it is, and a function body
    that makes only such calls. *)
Definition keepsIndex {X : Type} (c : cmd X) : Prop :=
  match c with
  | SetCurrentLanguageIndex _ => False
  | _ => True
  end.

Fixpoint steady {R : Type} (p : prog R) : Prop :=
  match p with
  | Ret _ => True
  | Throw _ => True
  | Call c k => keepsIndex c /\ forall x, steady (k x)
  | Await _ k => forall x, steady (k x)
  end.

(** the state after [demoAnalysis] has been received, seen in English *)
Definition demoReceivedEnglish : AppState :=
  mkAppState 0 false (processCaptions demoEntries) (Some scenario) server
             false false.

(** a gesture to the left *)
Definition demoLeft : number * number :=
  (QArith_base.inject_Z (-80), QArith_base.inject_Z 10).

(** the application on the result screen after [demoAnalysis] has come *)
Definition demoView : View :=
  viewAnswers (viewStep (mount demoCameraApp) (Of TouchCamera))
    [Photo demoPhoto; Responded demoResponse; Parsed (Some demoAnalysis)].

(** a caption without rendered audio, as [captureImage] makes it of an
    entry without text *)
Definition demoPlain : CaptionData :=
  mkCaption (js "No description available") None.

(** the same after two changes of the language, at a caption without
    rendered audio *)
Definition demoThird : View :=
  viewSteps demoView
    [Of (ReleaseGesture (fst demoLeft) (snd demoLeft));
     Of (ReleaseGesture (fst demoLeft) (snd demoLeft))].

(* ===================================================================== *)
(** * Properties *)
(* ===================================================================== *)

Ltac conj_compute :=
  repeat match goal with |- _ /\ _ => split end; vm_compute; reflexivity.

Lemma unitsEqb_false (a b : jsstring) : unitsEqb a b = false -> a <> b.
Proof.
  unfold unitsEqb. destruct (list_eq_dec N.eq_dec a b); congruence.
Qed.

Lemma unitsEqb_eq a b : unitsEqb a b = true -> a = b.
Proof.
  unfold unitsEqb. destruct (list_eq_dec N.eq_dec a b); [auto|discriminate].
Qed.

Lemma startsWith_app p s : startsWith p (p ++ s) = true.
Proof.
  induction p as [|k p IH]; [reflexivity|].
  simpl. rewrite N.eqb_refl. exact IH.
Qed.

Lemma includes_here s n : startsWith n s = true -> includes s n = true.
Proof. intros H. destruct s; cbn [includes]; rewrite H; reflexivity. Qed.

Lemma includes_app a n b : includes (a ++ n ++ b) n = true.
Proof.
  induction a as [|c a IH].
  - cbn [app]. apply includes_here. apply startsWith_app.
  - simpl. rewrite IH. apply orb_true_r.
Qed.


(** ** The worked example *)

Lemma scenario_cleaned :
  cleanHazardText scenario
  = js "Safety alert: Knife - 91 close, left" ++ [LF]
    ++ js "Scissors - 77 far, right".
Proof. vm_compute. reflexivity. Qed.

(** The numbering pattern takes the [0.] of each score, and the score
    pattern finds nothing left to remove. *)
Lemma scenario_numbering_eats_scores :
  replaceAll reNumbering (constant [])
    (js "1. Knife - 0.91 (close, left)")
  = js "Knife - 91 (close, left)"
  /\ replaceAll reConfidence (constant []) (js "Knife - 91 (close, left)")
     = js "Knife - 91 (close, left)"
  /\ replaceAll reConfidence (constant []) (js "Knife - 0.91 (close, left)")
     = js "Knife(close, left)".
Proof. conj_compute. Qed.

(** C1, as the specification words it, fails: the clean-up of the example
    report is not the sentence the specification gives. *)
Lemma C1_scenario_not_as_specified :
  hasHazardousObjects (Some scenario) = true
  /\ safetyMessage (Some scenario)
     <> js "Safety alert: Knife close, left Scissors far, right".
Proof.
  split; [vm_compute; reflexivity|].
  apply unitsEqb_false. vm_compute. reflexivity.
Qed.

(** C1, amended: for the example report and Hindi, the clean-up replaces
    the header by "Safety alert: ", removes the numbering of the two items,
    unwraps the parentheses and keeps the line break between the items;
    [r1] and [r2] are what it leaves of the two score fragments.  The
    translation then puts the Hindi phrase for "Safety alert", "Knife",
    "close", "left", "Scissors", "far" and "right" and changes nothing
    else. *)
Theorem C1_scenario_hindi :
  exists r1 r2 : jsstring,
    subseq r1 (js " - 0.91 ") = true /\ subseq r2 (js " - 0.77 ") = true
    /\ safetyMessage (Some scenario)
       = js "Safety alert: Knife" ++ r1 ++ js "close, left" ++ [LF]
         ++ js "Scissors" ++ r2 ++ js "far, right"
    /\ translatedSafetyMessage (Some scenario) hindi
       = js "सुरक्षा चेतावनी: चाकू" ++ r1 ++ js "पास, बाएं" ++ [LF]
         ++ js "कैंची" ++ r2 ++ js "दूर, दाएं".
Proof.
  exists (js " - 91 "), (js " - 77 ").
  conj_compute.
Qed.

(** ** Translation *)

Lemma translate_english (t : jsstring) (l : Language) :
  code l = "english"%string -> translateHazardInfo t l = t.
Proof. intros H. unfold translateHazardInfo. rewrite H. reflexivity. Qed.

(** C5: the entry for "very close" never applies.  "close" stands before
    it in each table, so in every language but English "very close" comes
    out as "very" followed by the word for "close", and not as the phrase
    the table has for "very close". *)
Theorem C5_very_close_not_translated :
  Forall (fun l =>
    code l = "english"%string \/
    exists close veryClose,
      entryFor l (js "close") = Some close
      /\ entryFor l (js "very close") = Some veryClose
      /\ translateHazardInfo (js "very close") l = js "very " ++ close
      /\ translateHazardInfo (js "very close") l <> veryClose)
    LANGUAGES
  /\ translatedSafetyMessage (Some veryCloseReport) hindi
     = js "सुरक्षा चेतावनी: चाकू - 91 very पास, बाएं".
Proof.
  split; [|vm_compute; reflexivity].
  unfold LANGUAGES.
  repeat (apply Forall_cons || apply Forall_nil);
    (left; reflexivity) ||
    (right; eexists; eexists;
     split; [vm_compute; reflexivity|];
     split; [vm_compute; reflexivity|];
     split; [vm_compute; reflexivity|];
     apply unitsEqb_false; vm_compute; reflexivity).
Qed.

(** ** The "no hazard" statement *)

Lemma noHazardBoilerplate_values :
  map noHazardBoilerplate LANGUAGES
  = [ js "No hazardous objects present in the image";
      js "छवि में कोई खतरनाक वस्तु मौजूद नहीं है";
      js "ছবিতে কোনো বিপজ্জনক বস্তু নেই";
      js "చిత్రంలో ప్రమాదకరమైన వస్తువులు లేవు";
      js "படத்தில் ஆபத்தான பொருள்கள் எதுவும் இல்லை";
      js "ചിത്രത്തിൽ അപകടകരമായ വസ്തുക്കൾ ഇല്ല" ].
Proof. vm_compute. reflexivity. Qed.

Lemma hasHazardousObjects_sentinels :
  hasHazardousObjects None = false
  /\ hasHazardousObjects (Some []) = false
  /\ hasHazardousObjects (Some (js "No hazard information available")) = false
  /\ hasHazardousObjects (Some (js "No objects detected")) = false
  /\ hasHazardousObjects (Some (js "NO OBJECTS DETECTED in the image")) = false.
Proof. conj_compute. Qed.

(** C6: when [hasHazardousObjects] finds no detection in the report (no
    report, an empty one, one without "detected", or one with "no objects
    detected"), the safety statement of every language of the catalog is the
    "no hazardous objects" sentence of that language, which is not the
    translation of the fallback sentence "Safety alert: Hazardous objects
    detected in the image". *)
Theorem C6_no_hazard_boilerplate (l : Language) (hazard : option jsstring) :
  In l LANGUAGES ->
  hasHazardousObjects hazard = false ->
  translatedSafetyMessage hazard l = noHazardBoilerplate l
  /\ translatedSafetyMessage hazard l <> translateHazardInfo hazardFallback l.
Proof.
  intros Hl Hh.
  unfold translatedSafetyMessage, safetyMessage. rewrite Hh.
  unfold LANGUAGES in Hl. simpl in Hl.
  repeat (destruct Hl as [<- | Hl]);
    try (split; [vm_compute; reflexivity
                | apply unitsEqb_false; vm_compute; reflexivity]).
  contradiction.
Qed.

Lemma C6_no_hazard_boilerplate_witness :
  translatedSafetyMessage (Some (js "No objects detected")) hindi
  = noHazardBoilerplate hindi
  /\ translatedSafetyMessage (Some (js "No objects detected")) hindi
     <> translateHazardInfo hazardFallback hindi.
Proof.
  apply (C6_no_hazard_boilerplate hindi (Some (js "No objects detected"))).
  - simpl. right. left. reflexivity.
  - vm_compute. reflexivity.
Defined.

(** ** Matching and characters outside the patterns *)

Lemma span_blocked p x a b :
  p x = false ->
  span p (a ++ x :: b) = let (g, r) := span p a in (g, r ++ x :: b).
Proof.
  intros Hx. induction a as [|c a IH]; simpl.
  - rewrite Hx. reflexivity.
  - destruct (p c); [|reflexivity].
    rewrite IH. destruct (span p a). reflexivity.
Qed.

Lemma extend_consume x b g m :
  extend x b (consume g m) = consume g (extend x b m).
Proof. destruct m as [[gs rest]|]; reflexivity. Qed.

Lemma exec_blocked r x b :
  blocked r x = true ->
  forall a, exec r (a ++ x :: b) = extend x b (exec r a).
Proof.
  induction r as [|i r IH]; intros Hb a; [reflexivity|].
  simpl in Hb. apply andb_true_iff in Hb. destruct Hb as [Hi Hr].
  apply negb_true_iff in Hi. specialize (IH Hr).
  destruct i as [p|p|p|p]; simpl in Hi; simpl exec.
  - destruct a as [|c a]; simpl.
    + rewrite Hi. reflexivity.
    + destruct (p c); [|reflexivity].
      rewrite IH, extend_consume. reflexivity.
  - destruct a as [|c a]; simpl.
    + rewrite Hi. change (x :: b) with ([] ++ x :: b).
      rewrite IH, extend_consume. reflexivity.
    + destruct (p c).
      * rewrite IH, extend_consume. reflexivity.
      * change (c :: a ++ x :: b) with ((c :: a) ++ x :: b).
        rewrite IH, extend_consume. reflexivity.
  - rewrite (span_blocked p x a b Hi). destruct (span p a) as [g t'].
    rewrite IH, extend_consume. reflexivity.
  - rewrite (span_blocked p x a b Hi). destruct (span p a) as [g t'].
    destruct g; [reflexivity|].
    rewrite IH, extend_consume. reflexivity.
Qed.

Lemma span_sound p t g r : span p t = (g, r) -> t = g ++ r.
Proof.
  revert g r. induction t as [|c t IH]; simpl; intros g r H.
  - inversion H. reflexivity.
  - destruct (p c).
    + destruct (span p t) as [g' r'] eqn:E. inversion H; subst.
      simpl. f_equal. apply IH. reflexivity.
    + inversion H. reflexivity.
Qed.

Lemma consume_some g m gs rest :
  consume g m = Some (gs, rest) ->
  exists gs', m = Some (gs', rest) /\ gs = g :: gs'.
Proof.
  destruct m as [[gs' rest']|]; simpl; [|discriminate].
  intros [= <- <-]. exists gs'. split; reflexivity.
Qed.

Lemma exec_sound r : forall t gs rest,
  exec r t = Some (gs, rest) -> t = concat gs ++ rest.
Proof.
  induction r as [|i r IH]; intros t gs rest H.
  - simpl in H. inversion H. reflexivity.
  - destruct i as [p|p|p|p]; simpl in H.
    + destruct t as [|c t]; [discriminate|]. destruct (p c); [|discriminate].
      apply consume_some in H. destruct H as (gs' & E & ->).
      simpl. f_equal. apply IH. exact E.
    + assert (K : forall t', consume [] (exec r t') = Some (gs, rest) ->
                  t' = concat gs ++ rest).
      { intros t' K. apply consume_some in K. destruct K as (gs' & E & ->).
        simpl. apply IH. exact E. }
      destruct t as [|c t]; [exact (K _ H)|].
      destruct (p c); [|exact (K _ H)].
      apply consume_some in H. destruct H as (gs' & E & ->).
      simpl. f_equal. apply IH. exact E.
    + destruct (span p t) as [g t'] eqn:S.
      apply consume_some in H. destruct H as (gs' & E & ->).
      change (concat (g :: gs')) with (g ++ concat gs').
      rewrite <- app_assoc.
      rewrite <- (IH _ _ _ E). apply span_sound with (p := p). exact S.
    + destruct (span p t) as [g t'] eqn:S. destruct g as [|c g]; [discriminate|].
      apply consume_some in H. destruct H as (gs' & E & ->).
      change (concat ((c :: g) :: gs')) with ((c :: g) ++ concat gs').
      rewrite <- app_assoc.
      rewrite <- (IH _ _ _ E). apply span_sound with (p := p). exact S.
Qed.

Lemma exec_nonempty r : needsChar r = true -> forall t gs rest,
  exec r t = Some (gs, rest) -> concat gs <> [].
Proof.
  induction r as [|i r IH]; intros Hn t gs rest H; [discriminate|].
  assert (K : forall g t', needsChar r = true ->
              consume g (exec r t') = Some (gs, rest) -> concat gs <> []).
  { intros g t' Hr K. apply consume_some in K. destruct K as (gs' & E & ->).
    simpl. intros Z. apply app_eq_nil in Z.
    destruct Z as [_ Z]. exact (IH Hr _ _ _ E Z). }
  destruct i as [p|p|p|p]; simpl in H, Hn.
  - destruct t as [|c t]; [discriminate|]. destruct (p c); [|discriminate].
    apply consume_some in H. destruct H as (gs' & E & ->). discriminate.
  - destruct t as [|c t]; [exact (K _ _ Hn H)|].
    destruct (p c); exact (K _ _ Hn H).
  - destruct (span p t) as [g t']. exact (K _ _ Hn H).
  - destruct (span p t) as [g t']. destruct g as [|c g]; [discriminate|].
    apply consume_some in H. destruct H as (gs' & E & ->). discriminate.
Qed.

Lemma exec_nil r : needsChar r = true -> exec r [] = None.
Proof.
  intros Hn. destruct (exec r []) as [[gs rest]|] eqn:E; [|reflexivity].
  exfalso. pose proof (exec_sound _ _ _ _ E) as S.
  symmetry in S. apply app_eq_nil in S. destruct S as [S _].
  exact (exec_nonempty _ Hn _ _ _ E S).
Qed.

(** ** Global replacement, unfolded *)

Lemma replaceAllFrom_skip r f l t :
  replaceAllFrom r f (length l) (l ++ t) = replaceAllFrom r f 0 t.
Proof.
  induction l as [|c l IH]; [reflexivity|]. simpl. exact IH.
Qed.

Lemma replaceAll_nil r f : needsChar r = true -> replaceAll r f [] = [].
Proof.
  intros Hn. unfold replaceAll. simpl. rewrite (exec_nil _ Hn). reflexivity.
Qed.

Lemma replaceAll_miss r f c t :
  exec r (c :: t) = None ->
  replaceAll r f (c :: t) = c :: replaceAll r f t.
Proof. intros H. unfold replaceAll. simpl replaceAllFrom. rewrite H. reflexivity. Qed.

Lemma replaceAll_hit r f t gs rest :
  needsChar r = true ->
  exec r t = Some (gs, rest) ->
  replaceAll r f t = f gs ++ replaceAll r f rest.
Proof.
  intros Hn H. pose proof (exec_sound _ _ _ _ H) as S.
  pose proof (exec_nonempty _ Hn _ _ _ H) as Ne.
  destruct t as [|c t].
  - rewrite (exec_nil _ Hn) in H. discriminate.
  - unfold replaceAll. simpl replaceAllFrom. rewrite H.
    destruct (concat gs) as [|d m] eqn:C; [congruence|].
    simpl length. simpl in S. inversion S; subst.
    rewrite replaceAllFrom_skip. reflexivity.
Qed.

(** the induction that follows a global replacement *)
Lemma replaceAll_ind r f (P : jsstring -> jsstring -> Prop) :
  needsChar r = true ->
  P [] [] ->
  (forall c t, exec r (c :: t) = None ->
     P t (replaceAll r f t) -> P (c :: t) (c :: replaceAll r f t)) ->
  (forall t gs rest, exec r t = Some (gs, rest) ->
     P rest (replaceAll r f rest) -> P t (f gs ++ replaceAll r f rest)) ->
  forall t, P t (replaceAll r f t).
Proof.
  intros Hn Hnil Hmiss Hhit t.
  assert (K : forall n t, length t <= n -> P t (replaceAll r f t)).
  { clear t. induction n as [|n IH]; intros t Hl.
    - destruct t; [|simpl in Hl; lia]. rewrite (replaceAll_nil _ _ Hn). exact Hnil.
    - destruct t as [|c t]; [rewrite (replaceAll_nil _ _ Hn); exact Hnil|].
      destruct (exec r (c :: t)) as [[gs rest]|] eqn:E.
      + rewrite (replaceAll_hit _ f _ _ _ Hn E). apply Hhit; [exact E|].
        apply IH. pose proof (exec_sound _ _ _ _ E) as S.
        pose proof (exec_nonempty _ Hn _ _ _ E) as Ne.
        apply (f_equal (@length N)) in S. rewrite length_app in S.
        destruct (concat gs); [congruence|]. simpl in S, Hl. lia.
      + rewrite (replaceAll_miss _ f _ _ E). apply Hmiss; [exact E|].
        apply IH. simpl in Hl. lia. }
  apply (K (length t)). lia.
Qed.

(** ** Characters no pattern can match *)

Lemma inert_ge x : inert x = true -> (128 <= x)%N.
Proof.
  unfold inert. intros H. apply andb_true_iff in H. destruct H as [H _].
  apply N.leb_le. exact H.
Qed.

Lemma inert_isWhiteSpace x : inert x = true -> isWhiteSpace x = false.
Proof.
  unfold inert. intros H. apply andb_true_iff in H. destruct H as [_ H].
  apply negb_true_iff. exact H.
Qed.

Lemma inert_isDigit x : inert x = true -> isDigit x = false.
Proof.
  intros H. apply inert_ge in H. unfold isDigit.
  apply andb_false_iff. right. apply N.leb_gt. lia.
Qed.

Lemma inert_exactChar k x :
  (k <? 128)%N = true -> inert x = true -> exactChar k x = false.
Proof.
  intros Hk H. apply inert_ge in H. apply N.ltb_lt in Hk.
  unfold exactChar. apply N.eqb_neq. lia.
Qed.

Lemma upperAscii_small k : (k < 128)%N -> (upperAscii k < 128)%N.
Proof.
  intros Hk. unfold upperAscii.
  destruct ((97 <=? k)%N && (k <=? 122)%N) eqn:E; [|exact Hk].
  apply andb_true_iff in E. destruct E as [E1 E2].
  apply N.leb_le in E1. apply N.leb_le in E2. lia.
Qed.

Lemma upperAscii_large x : (128 <= x)%N -> upperAscii x = x.
Proof.
  intros Hx. unfold upperAscii.
  destruct ((97 <=? x)%N && (x <=? 122)%N) eqn:E; [|reflexivity].
  apply andb_true_iff in E. destruct E as [_ E2].
  apply N.leb_le in E2. lia.
Qed.

Lemma inert_ciChar k x :
  (k <? 128)%N = true -> inert x = true -> ciChar k x = false.
Proof.
  intros Hk H. apply inert_ge in H. apply N.ltb_lt in Hk.
  unfold ciChar. rewrite (upperAscii_large _ H).
  pose proof (upperAscii_small _ Hk). apply N.eqb_neq. lia.
Qed.

Lemma blocked_app r1 r2 x :
  blocked (r1 ++ r2) x = blocked r1 x && blocked r2 x.
Proof. unfold blocked. apply forallb_app. Qed.

Lemma blocked_literalCi k x :
  forallb (fun c => (c <? 128)%N) k = true -> inert x = true ->
  blocked (literalCi k) x = true.
Proof.
  intros Hk Hx. induction k as [|c k IH]; [reflexivity|].
  simpl in Hk. apply andb_true_iff in Hk. destruct Hk as [Hc Hk].
  unfold blocked. simpl. rewrite (inert_ciChar _ _ Hc Hx). simpl.
  exact (IH Hk).
Qed.

Lemma inertSafe_key k : asciiKey k = true -> inertSafe (literalCi k).
Proof.
  unfold asciiKey. intros H.
  apply andb_true_iff in H. destruct H as [H H3].
  apply andb_true_iff in H. destruct H as [H1 H2].
  split; [|split].
  - intros x Hx. exact (blocked_literalCi _ _ H1 Hx).
  - exact H2.
  - destruct (exec (literalCi k) [32%N]); [discriminate|reflexivity].
Qed.

Lemma inertSafe_header : inertSafe reHeader.
Proof.
  split; [|split; reflexivity].
  intros x Hx. unfold reHeader. rewrite !blocked_app.
  rewrite (blocked_literalCi (js "Detected ") x eq_refl Hx).
  rewrite (blocked_literalCi (js " object") x eq_refl Hx).
  unfold blocked. simpl.
  rewrite (inert_isDigit _ Hx), (inert_ciChar 115 _ eq_refl Hx),
    (inert_exactChar 58 _ eq_refl Hx), (inert_exactChar LF _ eq_refl Hx).
  reflexivity.
Qed.

Lemma inertSafe_numbering : inertSafe reNumbering.
Proof.
  split; [|split; reflexivity].
  intros x Hx. unfold reNumbering, blocked. simpl.
  rewrite (inert_isDigit _ Hx), (inert_exactChar 46 _ eq_refl Hx),
    (inert_isWhiteSpace _ Hx). reflexivity.
Qed.

Lemma inertSafe_confidence : inertSafe reConfidence.
Proof.
  split; [|split; reflexivity].
  intros x Hx. unfold reConfidence, blocked. simpl.
  rewrite (inert_isDigit _ Hx), (inert_exactChar 46 _ eq_refl Hx),
    (inert_exactChar 45 _ eq_refl Hx), (inert_isWhiteSpace _ Hx).
  reflexivity.
Qed.

(** ** The shape of a localized phrase *)

Lemma phraseTail_ind (P : jsstring -> Prop) :
  P [] ->
  (forall c t, inert c = true -> phraseTail t = true -> P t -> P (c :: t)) ->
  (forall d t, inert d = true -> phraseTail t = true -> P t ->
     P (32%N :: d :: t)) ->
  forall t, phraseTail t = true -> P t.
Proof.
  intros Hnil Hin Hsp.
  assert (K : forall n t, length t <= n -> phraseTail t = true -> P t).
  { induction n as [|n IH]; intros t Hl Ht.
    - destruct t; [exact Hnil|simpl in Hl; lia].
    - destruct t as [|c t]; [exact Hnil|]. simpl in Ht, Hl.
      destruct (inert c) eqn:Ec.
      + apply Hin; [exact Ec|exact Ht|]. apply IH; [lia|exact Ht].
      + destruct (N.eqb_spec c 32); [subst c|discriminate].
        destruct t as [|d t]; [discriminate|].
        apply andb_true_iff in Ht. destruct Ht as [Hd Ht]. simpl in Hl.
        apply Hsp; [exact Hd|exact Ht|]. apply IH; [lia|exact Ht]. }
  intros t. apply (K (length t)). lia.
Qed.

Lemma phraseShaped_inv p :
  phraseShaped p = true ->
  exists x t, p = x :: t /\ inert x = true /\ phraseTail t = true.
Proof.
  destruct p as [|x t]; [discriminate|]. simpl. intros H.
  apply andb_true_iff in H. destruct H as [Hx Ht].
  exists x, t. repeat split; assumption.
Qed.

(** ** Texts cut at phrases *)

Lemma weave_app u a pieces : weave (u ++ a) pieces = u ++ weave a pieces.
Proof.
  destruct pieces as [|[p b] pieces]; simpl; [reflexivity|].
  rewrite <- app_assoc. reflexivity.
Qed.

Lemma weave_cons c a pieces : weave (c :: a) pieces = c :: weave a pieces.
Proof. exact (weave_app [c] a pieces). Qed.

(** two cut texts, one after the other *)
Lemma weave_join a1 pieces1 a2 pieces2 :
  exists a1' pieces1',
    map fst pieces1' = map fst pieces1
    /\ weave a1 pieces1 ++ weave a2 pieces2 = weave a1' (pieces1' ++ pieces2).
Proof.
  revert a1. induction pieces1 as [|[p b] pieces1 IH]; intros a1.
  - exists (a1 ++ a2), []. split; [reflexivity|].
    simpl. symmetry. apply weave_app.
  - destruct (IH b) as (b' & pieces1' & Em & E).
    exists a1, ((p, b') :: pieces1'). split.
    + simpl. rewrite Em. reflexivity.
    + simpl. rewrite <- !app_assoc, E. reflexivity.
Qed.

Lemma weave_phrase a p b pieces :
  phraseShaped p = true ->
  exists x t, weave a ((p, b) :: pieces) = a ++ x :: t.
Proof.
  intros Hp. destruct (phraseShaped_inv _ Hp) as (x & t & -> & _).
  exists x, (t ++ weave b pieces). reflexivity.
Qed.

Lemma keeps_compose f g : keeps f -> keeps g -> keeps (fun t => g (f t)).
Proof.
  intros Hf Hg a pieces Hp.
  destruct (Hf a pieces Hp) as (a1 & pieces1 & Em1 & E1).
  rewrite <- Em1 in Hp.
  destruct (Hg a1 pieces1 Hp) as (a2 & pieces2 & Em2 & E2).
  exists a2, pieces2. split; [congruence|]. rewrite E1. exact E2.
Qed.

Section Passing.

Variable r : regex.
Variable f : list jsstring -> jsstring.
Hypothesis safe : inertSafe r.

Lemma needs : needsChar r = true.
Proof. exact (proj1 (proj2 safe)). Qed.

Lemma exec_inert x t : inert x = true -> exec r (x :: t) = None.
Proof.
  intros Hx. change (x :: t) with ([] ++ x :: t).
  rewrite (exec_blocked _ _ _ (proj1 safe x Hx)).
  rewrite (exec_nil _ needs). reflexivity.
Qed.

Lemma exec_space d t : inert d = true -> exec r (32%N :: d :: t) = None.
Proof.
  intros Hd. change (32%N :: d :: t) with ([32%N] ++ d :: t).
  rewrite (exec_blocked _ _ _ (proj1 safe d Hd)).
  rewrite (proj2 (proj2 safe)). reflexivity.
Qed.

Lemma replaceAll_blocked x a b :
  inert x = true ->
  replaceAll r f (a ++ x :: b)
  = replaceAll r f a ++ x :: replaceAll r f b.
Proof.
  intros Hx. pose proof (proj1 safe x Hx) as Hb.
  apply (replaceAll_ind r f
    (fun t out => replaceAll r f (t ++ x :: b)
                  = out ++ x :: replaceAll r f b) needs).
  - simpl. apply replaceAll_miss. apply exec_inert. exact Hx.
  - intros c t Hm IH.
    change ((c :: t) ++ x :: b) with (c :: (t ++ x :: b)).
    rewrite replaceAll_miss.
    + rewrite IH. reflexivity.
    + change (c :: (t ++ x :: b)) with ((c :: t) ++ x :: b).
      rewrite (exec_blocked _ _ _ Hb), Hm. reflexivity.
  - intros t gs rest Hh IH.
    rewrite (replaceAll_hit r f (t ++ x :: b) gs (rest ++ x :: b) needs).
    + rewrite IH, app_assoc. reflexivity.
    + rewrite (exec_blocked _ _ _ Hb), Hh. reflexivity.
Qed.

Lemma replaceAll_tail t b :
  phraseTail t = true ->
  replaceAll r f (t ++ b) = t ++ replaceAll r f b.
Proof.
  intros Ht. revert t Ht. apply (phraseTail_ind
    (fun t => replaceAll r f (t ++ b) = t ++ replaceAll r f b)).
  - reflexivity.
  - intros c t Hc _ IH. simpl. rewrite replaceAll_miss.
    + rewrite IH. reflexivity.
    + apply exec_inert. exact Hc.
  - intros d t Hd _ IH. simpl.
    rewrite replaceAll_miss by (apply exec_space; exact Hd).
    rewrite replaceAll_miss by (apply exec_inert; exact Hd).
    rewrite IH. reflexivity.
Qed.

(** a global replacement works on the two sides of a phrase apart *)
Lemma replaceAll_phrase p a b :
  phraseShaped p = true ->
  replaceAll r f (a ++ p ++ b) = replaceAll r f a ++ p ++ replaceAll r f b.
Proof.
  intros Hp. destruct (phraseShaped_inv _ Hp) as (x & t & -> & Hx & Ht).
  change (a ++ (x :: t) ++ b) with (a ++ x :: (t ++ b)).
  rewrite (replaceAll_blocked _ _ _ Hx), (replaceAll_tail _ _ Ht).
  reflexivity.
Qed.

Lemma keeps_replaceAll : keeps (replaceAll r f).
Proof.
  intros a pieces. revert a.
  induction pieces as [|[p b] pieces IH]; intros a Hp.
  - exists (replaceAll r f a), []. split; reflexivity.
  - simpl in Hp. inversion Hp as [|? ? Hp1 Hp2]; subst.
    destruct (IH b Hp2) as (b' & pieces' & Em & E).
    exists (replaceAll r f a), ((p, b') :: pieces'). split.
    + simpl. rewrite Em. reflexivity.
    + simpl. rewrite (replaceAll_phrase _ _ _ Hp1), E. reflexivity.
Qed.

Lemma replaceFirst_miss c t :
  exec r (c :: t) = None ->
  replaceFirst r f (c :: t) = c :: replaceFirst r f t.
Proof. intros H. simpl replaceFirst. rewrite H. reflexivity. Qed.

Lemma replaceFirst_hit t gs rest :
  exec r t = Some (gs, rest) -> replaceFirst r f t = f gs ++ rest.
Proof. intros H. destruct t; simpl; rewrite H; reflexivity. Qed.

Lemma replaceFirst_tail t b :
  phraseTail t = true -> replaceFirst r f (t ++ b) = t ++ replaceFirst r f b.
Proof.
  intros Ht. revert t Ht. apply (phraseTail_ind
    (fun t => replaceFirst r f (t ++ b) = t ++ replaceFirst r f b)).
  - reflexivity.
  - intros c t Hc _ IH. cbn [app].
    rewrite replaceFirst_miss by (apply exec_inert; exact Hc).
    rewrite IH. reflexivity.
  - intros d t Hd _ IH. cbn [app].
    rewrite replaceFirst_miss by (apply exec_space; exact Hd).
    rewrite replaceFirst_miss by (apply exec_inert; exact Hd).
    rewrite IH. reflexivity.
Qed.

(** a single replacement is made before a phrase, or after it *)
Lemma replaceFirst_phrase p a b :
  phraseShaped p = true ->
  (exists a', replaceFirst r f (a ++ p ++ b) = a' ++ p ++ b)
  \/ replaceFirst r f (a ++ p ++ b) = a ++ p ++ replaceFirst r f b.
Proof.
  intros Hp. destruct (phraseShaped_inv _ Hp) as (x & t & -> & Hx & Ht).
  pose proof (proj1 safe x Hx) as Hb.
  change ((exists a', replaceFirst r f (a ++ x :: (t ++ b))
                      = a' ++ x :: (t ++ b))
          \/ replaceFirst r f (a ++ x :: (t ++ b))
             = a ++ x :: (t ++ replaceFirst r f b)).
  induction a as [|c a IH].
  - right. cbn [app].
    rewrite replaceFirst_miss by (apply exec_inert; exact Hx).
    rewrite (replaceFirst_tail _ _ Ht). reflexivity.
  - destruct (exec r (c :: a)) as [[gs rest]|] eqn:E.
    + left. exists (f gs ++ rest).
      rewrite (replaceFirst_hit _ gs (rest ++ x :: (t ++ b))).
      * rewrite <- app_assoc. reflexivity.
      * rewrite (exec_blocked _ _ _ Hb), E. reflexivity.
    + assert (M : replaceFirst r f ((c :: a) ++ x :: (t ++ b))
                  = c :: replaceFirst r f (a ++ x :: (t ++ b))).
      { change ((c :: a) ++ x :: (t ++ b)) with (c :: (a ++ x :: (t ++ b))).
        apply replaceFirst_miss.
        change (c :: (a ++ x :: (t ++ b))) with ((c :: a) ++ x :: (t ++ b)).
        rewrite (exec_blocked _ _ _ Hb), E. reflexivity. }
      rewrite M. destruct IH as [[a' IH]|IH]; rewrite IH.
      * left. exists (c :: a'). reflexivity.
      * right. reflexivity.
Qed.

Lemma keeps_replaceFirst : keeps (replaceFirst r f).
Proof.
  intros a pieces. revert a.
  induction pieces as [|[p b] pieces IH]; intros a Hp.
  - exists (replaceFirst r f a), []. split; reflexivity.
  - simpl in Hp. inversion Hp as [|? ? Hp1 Hp2]; subst.
    simpl weave.
    destruct (replaceFirst_phrase p a (weave b pieces) Hp1) as [[a' E]|E];
      rewrite E.
    + exists a', ((p, b) :: pieces). split; reflexivity.
    + destruct (IH b Hp2) as (b' & pieces' & Em & Eb).
      exists a, ((p, b') :: pieces'). split.
      * simpl. rewrite Em. reflexivity.
      * simpl. rewrite Eb. reflexivity.
Qed.

End Passing.

(** ** Unwrapping parentheses *)

Lemma exec_parens t :
  exec reParens t =
  match t with
  | c :: t1 =>
    if (c =? 40)%N then
      match span notClose t1 with
      | (d :: g, e :: rest) =>
        if (e =? 41)%N then Some ([[c]; d :: g; [e]], rest) else None
      | _ => None
      end
    else None
  | [] => None
  end.
Proof.
  destruct t as [|c t1]; [reflexivity|].
  unfold reParens. simpl exec. unfold exactChar. fold notClose.
  destruct (c =? 40)%N; [|reflexivity].
  destruct (span notClose t1) as [[|d g] [|e rest]]; try reflexivity.
  destruct (e =? 41)%N; reflexivity.
Qed.

Lemma needsChar_parens : needsChar reParens = true.
Proof. reflexivity. Qed.

Lemma span_app p l1 l2 :
  span p (l1 ++ l2) =
  match span p l1 with
  | (g1, []) => let (g2, r2) := span p l2 in (g1 ++ g2, r2)
  | (g1, r1) => (g1, r1 ++ l2)
  end.
Proof.
  induction l1 as [|c l1 IH]; simpl.
  - destruct (span p l2). reflexivity.
  - destruct (p c); [|reflexivity].
    rewrite IH. destruct (span p l1) as [g1 [|e r1]].
    + destruct (span p l2). reflexivity.
    + reflexivity.
Qed.

Lemma span_all p l :
  forallb p l = true -> span p l = (l, []).
Proof.
  induction l as [|c l IH]; simpl; [reflexivity|].
  intros H. apply andb_true_iff in H. destruct H as [Hc Hl].
  rewrite Hc, (IH Hl). reflexivity.
Qed.

(** a phrase holds no parenthesis *)
Lemma inert_plain c :
  inert c = true -> (c =? 40)%N = false /\ notClose c = true.
Proof.
  intros H. apply inert_ge in H. unfold notClose. split.
  - apply N.eqb_neq. lia.
  - apply negb_true_iff, N.eqb_neq. lia.
Qed.

Lemma phraseTail_plain t :
  phraseTail t = true ->
  forallb notClose t = true
  /\ forall b, replaceAll reParens (group 1) (t ++ b)
               = t ++ replaceAll reParens (group 1) b.
Proof.
  revert t. apply (phraseTail_ind (fun t =>
    forallb notClose t = true
    /\ forall b, replaceAll reParens (group 1) (t ++ b)
                 = t ++ replaceAll reParens (group 1) b)).
  - split; reflexivity.
  - intros c t Hc _ [IH1 IH2]. destruct (inert_plain _ Hc) as [H40 H41].
    split; [simpl; rewrite H41; exact IH1|].
    intros b. cbn [app]. rewrite replaceAll_miss.
    + rewrite IH2. reflexivity.
    + rewrite exec_parens, H40. reflexivity.
  - intros d t Hd _ [IH1 IH2]. destruct (inert_plain _ Hd) as [H40 H41].
    split; [simpl; rewrite H41; exact IH1|].
    intros b. cbn [app].
    rewrite replaceAll_miss by (rewrite exec_parens; reflexivity).
    rewrite replaceAll_miss by (rewrite exec_parens, H40; reflexivity).
    rewrite IH2. reflexivity.
Qed.

Lemma phraseShaped_plain p :
  phraseShaped p = true ->
  forallb notClose p = true
  /\ forall b, replaceAll reParens (group 1) (p ++ b)
               = p ++ replaceAll reParens (group 1) b.
Proof.
  intros Hp. destruct (phraseShaped_inv _ Hp) as (x & t & -> & Hx & Ht).
  destruct (phraseTail_plain _ Ht) as [Hall Hpass].
  destruct (inert_plain _ Hx) as [H40 H41]. split.
  - simpl. rewrite H41. exact Hall.
  - intros b. cbn [app]. rewrite replaceAll_miss.
    + rewrite Hpass. reflexivity.
    + rewrite exec_parens, H40. reflexivity.
Qed.

(** Where the text in a pair of parentheses ends, in a text cut at
    phrases: the text in the parentheses and the text after them are cut
    at the same phrases. *)
Lemma span_weave pieces : forall a g e rest,
  Forall (fun p => phraseShaped p = true) (map fst pieces) ->
  span notClose (weave a pieces) = (g, e :: rest) ->
  exists a1 pieces1 a2 pieces2,
    map fst pieces1 ++ map fst pieces2 = map fst pieces
    /\ g = weave a1 pieces1 /\ rest = weave a2 pieces2.
Proof.
  induction pieces as [|[p b] pieces IH]; intros a g e rest Hp S.
  - exists g, [], rest, []. repeat split; reflexivity.
  - simpl in Hp. inversion Hp as [|? ? Hp1 Hp2]; subst.
    simpl weave in S. rewrite span_app in S.
    destruct (span notClose a) as [g1 [|e1 r1]] eqn:Sa.
    + rewrite span_app in S.
      rewrite (span_all _ _ (proj1 (phraseShaped_plain _ Hp1))) in S.
      destruct (span notClose (weave b pieces)) as [g2 r2] eqn:Sb.
      injection S as Eg Er. subst r2.
      destruct (IH b g2 e rest Hp2 Sb)
        as (a1 & pieces1 & a2 & pieces2 & Em & E1 & E2).
      exists g1, ((p, a1) :: pieces1), a2, pieces2. repeat split.
      * simpl. rewrite Em. reflexivity.
      * simpl. rewrite <- Eg, E1. reflexivity.
      * exact E2.
    + injection S as Eg Ee Er.
      exists g, [], r1, ((p, b) :: pieces). repeat split.
      symmetry. exact Er.
Qed.

Lemma keeps_parens : keeps (replaceAll reParens (group 1)).
Proof.
  assert (K : forall n a pieces,
    length (weave a pieces) < n ->
    Forall (fun p => phraseShaped p = true) (map fst pieces) ->
    exists a' pieces',
      map fst pieces' = map fst pieces
      /\ replaceAll reParens (group 1) (weave a pieces) = weave a' pieces').
  { induction n as [|n IH]; intros a pieces Hl Hp; [lia|].
    destruct a as [|c a].
    - destruct pieces as [|[p b] pieces].
      + exists [], []. split; reflexivity.
      + simpl in Hp. inversion Hp as [|? ? Hp1 Hp2]; subst.
        destruct (phraseShaped_inv _ Hp1) as (x & t & Ep & _).
        destruct (IH b pieces) as (b' & pieces' & Em & E); [|exact Hp2|].
        { simpl in Hl. rewrite Ep in Hl. simpl in Hl.
          rewrite length_app in Hl. lia. }
        exists [], ((p, b') :: pieces'). split.
        * simpl. rewrite Em. reflexivity.
        * simpl. rewrite (proj2 (phraseShaped_plain _ Hp1)), E. reflexivity.
    - rewrite weave_cons in Hl |- *. simpl in Hl.
      destruct (exec reParens (c :: weave a pieces)) as [[gs rest]|] eqn:E.
      + rewrite (replaceAll_hit _ _ _ _ _ needsChar_parens E).
        rewrite exec_parens in E.
        destruct (c =? 40)%N; [|discriminate].
        destruct (span notClose (weave a pieces)) as [j j0] eqn:S.
        destruct j as [|d g]; [discriminate|].
        destruct j0 as [|e rest']; [discriminate|].
        destruct (e =? 41)%N; [|discriminate].
        inversion E; subst gs rest.
        change (group 1 [[c]; d :: g; [e]]) with (d :: g).
        pose proof (span_sound _ _ _ _ S) as Ew.
        destruct (span_weave _ _ _ _ _ Hp S)
          as (a1 & pieces1 & a2 & pieces2 & Em & E1 & E2).
        rewrite <- Em in Hp. rewrite Forall_app in Hp.
        destruct Hp as [Hp1 Hp2].
        destruct (IH a2 pieces2) as (a2' & pieces2' & Em2 & Er);
          [|exact Hp2|].
        { rewrite <- E2. rewrite Ew in Hl.
          rewrite length_app in Hl. simpl in Hl. lia. }
        rewrite E2, Er, E1.
        destruct (weave_join a1 pieces1 a2' pieces2')
          as (a1' & pieces1' & Em1 & Ej).
        exists a1', (pieces1' ++ pieces2'). split.
        * rewrite map_app, Em1, Em2. exact Em.
        * exact Ej.
      + rewrite (replaceAll_miss _ _ _ _ E).
        destruct (IH a pieces) as (a' & pieces' & Em & Ea); [lia|exact Hp|].
        exists (c :: a'), pieces'. split; [exact Em|].
        rewrite Ea, weave_cons. reflexivity. }
  intros a pieces Hp. apply (K (S (length (weave a pieces)))); [lia|exact Hp].
Qed.

(** ** Trimming and the fallback *)

Lemma trimStart_block a x b :
  isWhiteSpace x = false ->
  trimStart (a ++ x :: b) = trimStart a ++ x :: b.
Proof.
  intros Hx. induction a as [|c a IH]; simpl.
  - rewrite Hx. reflexivity.
  - destruct (isWhiteSpace c); [exact IH|reflexivity].
Qed.

Lemma phraseShaped_last p :
  phraseShaped p = true ->
  exists q y, p = q ++ [y] /\ inert y = true.
Proof.
  intros Hp. destruct (phraseShaped_inv _ Hp) as (x & t & -> & Hx & Ht).
  clear Hp. revert x Hx. revert t Ht.
  apply (phraseTail_ind (fun t => forall x, inert x = true ->
    exists q y, x :: t = q ++ [y] /\ inert y = true)).
  - intros x Hx. exists [], x. split; [reflexivity|exact Hx].
  - intros c t Hc _ IH x Hx. destruct (IH c Hc) as (q & y & E & Hy).
    exists (x :: q), y. rewrite E. split; [reflexivity|exact Hy].
  - intros d t Hd _ IH x Hx. destruct (IH d Hd) as (q & y & E & Hy).
    exists (x :: 32%N :: q), y. rewrite E. split; [reflexivity|exact Hy].
Qed.

Lemma trimEnd_block a y b :
  isWhiteSpace y = false ->
  trimEnd (a ++ y :: b) = a ++ y :: trimEnd b.
Proof.
  intros Hy. unfold trimEnd.
  replace (rev (a ++ y :: b)) with (rev b ++ y :: rev a).
  - rewrite (trimStart_block _ _ _ Hy), rev_app_distr. simpl rev.
    rewrite rev_involutive, <- app_assoc. reflexivity.
  - rewrite rev_app_distr. simpl rev. rewrite <- app_assoc. reflexivity.
Qed.

Lemma trimStart_weave a p b pieces :
  phraseShaped p = true ->
  trimStart (weave a ((p, b) :: pieces))
  = weave (trimStart a) ((p, b) :: pieces).
Proof.
  intros Hp. destruct (phraseShaped_inv _ Hp) as (x & t & -> & Hx & _).
  simpl weave.
  change (a ++ (x :: t) ++ weave b pieces)
    with (a ++ x :: (t ++ weave b pieces)).
  rewrite (trimStart_block _ _ _ (inert_isWhiteSpace _ Hx)). reflexivity.
Qed.

Lemma trimEnd_weave pieces : forall a p b,
  Forall (fun p => phraseShaped p = true) (map fst ((p, b) :: pieces)) ->
  exists pieces',
    map fst pieces' = map fst ((p, b) :: pieces)
    /\ trimEnd (weave a ((p, b) :: pieces)) = weave a pieces'.
Proof.
  induction pieces as [|[p2 b2] pieces IH]; intros a p b Hp;
    simpl in Hp; inversion Hp as [|? ? Hp1 Hp2]; subst.
  - destruct (phraseShaped_last _ Hp1) as (q & y & Eq & Hy).
    exists [(p, trimEnd b)]. split; [reflexivity|].
    simpl weave. rewrite Eq.
    replace (a ++ (q ++ [y]) ++ b) with ((a ++ q) ++ y :: b)
      by (rewrite <- !app_assoc; reflexivity).
    rewrite (trimEnd_block _ _ _ (inert_isWhiteSpace _ Hy)).
    rewrite <- !app_assoc. reflexivity.
  - destruct (IH ((a ++ p) ++ b) p2 b2 Hp2) as (pieces' & Em & E).
    exists ((p, b) :: pieces'). split.
    + simpl. simpl in Em. rewrite Em. reflexivity.
    + replace (weave a ((p, b) :: (p2, b2) :: pieces))
        with (weave ((a ++ p) ++ b) ((p2, b2) :: pieces)).
      * rewrite E, weave_app, <- app_assoc. reflexivity.
      * rewrite weave_app, <- app_assoc. reflexivity.
Qed.

Lemma keeps_trim : keeps trim.
Proof.
  intros a [|[p b] pieces] Hp.
  - exists (trim a), []. split; reflexivity.
  - unfold trim.
    assert (Hp1 : phraseShaped p = true) by (inversion Hp; assumption).
    rewrite (trimStart_weave _ _ _ _ Hp1).
    destruct (trimEnd_weave pieces (trimStart a) p b Hp) as (pieces' & Em & E).
    exists (trimStart a), pieces'. split; assumption.
Qed.

Lemma keeps_orElse fallback : keeps (fun t => orElse t fallback).
Proof.
  intros a [|[p b] pieces] Hp.
  - exists (orElse a fallback), []. split; reflexivity.
  - assert (Hp1 : phraseShaped p = true) by (inversion Hp; assumption).
    destruct (weave_phrase a p b pieces Hp1) as (x & t & E).
    exists a, ((p, b) :: pieces). split; [reflexivity|].
    rewrite E. destruct a; reflexivity.
Qed.

(** ** Translation *)

Lemma keeps_fold (table : list (jsstring * jsstring)) :
  Forall (fun e => keeps (fun t => translateEntry t e)) table ->
  keeps (fun t => fold_left translateEntry table t).
Proof.
  induction 1 as [|e table He _ IH].
  - intros a pieces _. exists a, pieces. split; reflexivity.
  - simpl. exact (keeps_compose _ _ He IH).
Qed.

Lemma keeps_translateEntry e :
  asciiKey (fst e) = true -> keeps (fun t => translateEntry t e).
Proof.
  intros Hk. destruct e as [english translated]. simpl in Hk.
  unfold translateEntry.
  apply keeps_replaceAll. apply inertSafe_key. exact Hk.
Qed.

Lemma tables_ascii :
  forallb (fun lt => forallb (fun e => asciiKey (fst e)) (snd lt))
          translations = true.
Proof. vm_compute. reflexivity. Qed.

Lemma tables_phrases :
  forallb (fun lt => forallb (fun e => phraseShaped (snd e)) (snd lt))
          translations = true.
Proof. vm_compute. reflexivity. Qed.

Lemma lookup_In {A : Type} k (o : list (string * A)) v :
  lookup k o = Some v -> In (k, v) o.
Proof.
  induction o as [|[k' v'] o IH]; simpl; [discriminate|].
  destruct (String.eqb_spec k k').
  - intros [= ->]. left. subst. reflexivity.
  - intros H. right. exact (IH H).
Qed.

Lemma keeps_translate l : keeps (fun t => translateHazardInfo t l).
Proof.
  unfold translateHazardInfo.
  destruct (String.eqb (code l) "english");
    [intros a pieces _; exists a, pieces; split; reflexivity|].
  destruct (lookup (code l) translations) as [table|] eqn:E;
    [|intros a pieces _; exists a, pieces; split; reflexivity].
  apply keeps_fold. apply Forall_forall. intros e He.
  apply keeps_translateEntry.
  pose proof tables_ascii as T. rewrite forallb_forall in T.
  specialize (T _ (lookup_In _ _ _ E)). simpl in T.
  rewrite forallb_forall in T. exact (T _ He).
Qed.

Lemma localized_phraseShaped l p :
  In p (localizedPhrases l) -> phraseShaped p = true.
Proof.
  unfold localizedPhrases, tableOf.
  destruct (lookup (code l) translations) as [table|] eqn:E; [|intros []].
  intros H. apply in_map_iff in H. destruct H as (e & <- & He).
  pose proof tables_phrases as T. rewrite forallb_forall in T.
  specialize (T _ (lookup_In _ _ _ E)). simpl in T.
  rewrite forallb_forall in T. exact (T _ He).
Qed.

Lemma keeps_processHazard l : keeps (fun report => processHazard report l).
Proof.
  unfold processHazard, hazardMessage, cleanHazardText.
  apply (keeps_compose
    (fun t => orElse (trim (replaceAll reParens (group 1)
       (replaceAll reConfidence (constant [])
         (replaceAll reNumbering (constant [])
           (replaceFirst reHeader (constant (js "Safety alert: ")) t)))))
       hazardFallback)
    (fun t => translateHazardInfo t l)); [|apply keeps_translate].
  apply (keeps_compose _ (fun t => orElse t hazardFallback));
    [|apply keeps_orElse].
  apply (keeps_compose _ trim); [|apply keeps_trim].
  apply (keeps_compose _ (replaceAll reParens (group 1)));
    [|apply keeps_parens].
  apply (keeps_compose _ (replaceAll reConfidence (constant [])));
    [|apply keeps_replaceAll; exact inertSafe_confidence].
  apply (keeps_compose _ (replaceAll reNumbering (constant [])));
    [|apply keeps_replaceAll; exact inertSafe_numbering].
  apply keeps_replaceFirst. exact inertSafe_header.
Qed.

(** The clean-up and the translation by themselves leave the localized
    phrases of a text in place: however a text is cut at localized phrases
    of the language, what they make of it is cut at the same phrases in
    the same order. *)
Lemma cleanup_and_translation_keep_phrases (l : Language)
    (t before : jsstring) (pieces : list (jsstring * jsstring)) :
  Forall (fun phrase => In phrase (localizedPhrases l)) (map fst pieces) ->
  t = weave before pieces ->
  exists before' pieces',
    map fst pieces' = map fst pieces
    /\ processHazard t l = weave before' pieces'.
Proof.
  intros Hin ->.
  apply (keeps_processHazard l before pieces).
  apply (Forall_impl _ (localized_phraseShaped l)). exact Hin.
Qed.

(** ** The detection test on what the translation returns *)

Lemma exec_literalCi k s :
  exec (literalCi k) s
  = if startsWith (map upperAscii k) (map upperAscii s)
    then Some (map (fun c => [c]) (firstn (length k) s), skipn (length k) s)
    else None.
Proof.
  revert s. induction k as [|c k IH]; intros s; [reflexivity|].
  cbn [literalCi map exec]. destruct s as [|d s]; [reflexivity|].
  cbn [map startsWith]. unfold ciChar at 1.
  destruct (upperAscii d =? upperAscii c)%N; [|reflexivity].
  fold (literalCi k). rewrite IH. cbn [andb].
  destruct (startsWith (map upperAscii k) (map upperAscii s)); reflexivity.
Qed.

Lemma plainLower_cons k n :
  plainLower (k :: n) = true ->
  ((97 <= k <= 122)%N /\ k <> 107%N /\ k <> 105%N) /\ plainLower n = true.
Proof.
  simpl. intros H. apply andb_true_iff in H. destruct H as [Hk Hn].
  apply andb_true_iff in Hk. destruct Hk as [Hk K4].
  apply andb_true_iff in Hk. destruct Hk as [Hk K3].
  apply andb_true_iff in Hk. destruct Hk as [K1 K2].
  apply N.leb_le in K1. apply N.leb_le in K2.
  apply negb_true_iff, N.eqb_neq in K3.
  apply negb_true_iff, N.eqb_neq in K4.
  repeat split; assumption.
Qed.

Lemma startsWith_lowered n : plainLower n = true -> forall t,
  startsWith n (toLowerCase t) = true ->
  startsWith (map upperAscii n) (map upperAscii t) = true.
Proof.
  induction n as [|k n IH]; intros Hn t H; [reflexivity|].
  apply plainLower_cons in Hn. destruct Hn as [(Hk & K1 & K2) Hn].
  destruct t as [|c t]; [discriminate H|].
  cbn [map startsWith].
  unfold toLowerCase in H. cbn [flat_map] in H. fold (toLowerCase t) in H.
  unfold lowerUnit, lowerAscii in H.
  destruct (N.eqb_spec c 8490) as [->|N1].
  { cbn [app startsWith] in H. apply andb_true_iff in H. destruct H as [H _].
    apply N.eqb_eq in H. lia. }
  destruct (N.eqb_spec c 304) as [->|N2].
  { cbn [app startsWith] in H. apply andb_true_iff in H. destruct H as [H _].
    apply N.eqb_eq in H. lia. }
  cbn [app startsWith] in H. apply andb_true_iff in H. destruct H as [H1 H2].
  rewrite (IH Hn _ H2), andb_true_r. unfold upperAscii.
  apply N.eqb_eq in H1. apply N.eqb_eq.
  destruct (N.leb_spec 65 c), (N.leb_spec c 90), (N.leb_spec 97 c),
    (N.leb_spec c 122), (N.leb_spec 97 k), (N.leb_spec k 122);
    cbn [andb] in *; lia.
Qed.

Lemma includes_lowered k n t :
  plainLower (k :: n) = true ->
  includes (toLowerCase t) (k :: n) = true -> occursCi (k :: n) t = true.
Proof.
  intros Hn. unfold occursCi.
  destruct (plainLower_cons _ _ Hn) as [(Hk & _ & _) _].
  induction t as [|c t IH]; intros H.
  - simpl in H. discriminate.
  - cbn [map includes]. apply orb_true_iff.
    unfold toLowerCase in H. cbn [flat_map] in H. fold (toLowerCase t) in H.
    assert (Hs : startsWith (k :: n) (lowerUnit c ++ toLowerCase t) = true
                 \/ includes (toLowerCase t) (k :: n) = true).
    { unfold lowerUnit in *.
      destruct (c =? 8490)%N; [|destruct (c =? 304)%N];
        cbn [app includes] in H; apply orb_true_iff in H;
        destruct H as [H|H]; auto.
      apply orb_true_iff in H. destruct H as [H|H]; auto.
      exfalso. cbn [startsWith] in H. apply andb_true_iff in H.
      destruct H as [H _]. apply N.eqb_eq in H. lia. }
    destruct Hs as [Hs|Hs]; [left|right; exact (IH Hs)].
    apply (startsWith_lowered _ Hn (c :: t)).
    unfold toLowerCase. cbn [flat_map]. exact Hs.
Qed.

(** ** A key that the translation leaves nowhere *)


Lemma foreignTo_cons d p :
  foreignTo d p = true ->
  exists c p', p = c :: p'
    /\ forallb (fun k => negb (ciChar k c)) d = true.
Proof.
  destruct p as [|c p']; [discriminate|]. simpl.
  intros H. apply andb_true_iff in H. destruct H as [H _].
  exists c, p'. split; [reflexivity|exact H].
Qed.

Lemma foreignTo_tail k d p : foreignTo (k :: d) p = true -> foreignTo d p = true.
Proof.
  destruct p as [|c p']; [discriminate|]. unfold foreignTo.
  generalize (c :: p'). intros q. induction q as [|x q IH]; [reflexivity|].
  simpl. intros H. apply andb_true_iff in H. destruct H as [H1 H2].
  apply andb_true_iff in H1. destruct H1 as [_ H1].
  rewrite H1. exact (IH H2).
Qed.

(** a key cannot begin inside a foreign text *)
Lemma startsWith_foreign k d p t :
  foreignTo (k :: d) p = true ->
  startsWith (map upperAscii (k :: d)) (map upperAscii (p ++ t)) = false.
Proof.
  intros H. apply foreignTo_cons in H. destruct H as (c & p' & -> & H).
  simpl in H. apply andb_true_iff in H. destruct H as [H _].
  apply negb_true_iff in H. unfold ciChar in H.
  cbn [app map startsWith]. rewrite H. reflexivity.
Qed.

Lemma occursCi_foreign k d p t :
  foreignTo (k :: d) p = true ->
  occursCi (k :: d) (p ++ t) = occursCi (k :: d) t.
Proof.
  intros H. unfold occursCi.
  assert (K : forall q, forallb (fun c => forallb (fun k' => negb (ciChar k' c))
                                    (k :: d)) q = true ->
              includes (map upperAscii (q ++ t)) (map upperAscii (k :: d))
              = includes (map upperAscii t) (map upperAscii (k :: d))).
  { induction q as [|c q IH]; intros Hq; [reflexivity|].
    simpl in Hq. apply andb_true_iff in Hq. destruct Hq as [Hc Hq].
    apply andb_true_iff in Hc. destruct Hc as [Hc _].
    apply negb_true_iff in Hc. unfold ciChar in Hc.
    cbn [app map includes startsWith]. rewrite Hc. cbn [andb orb].
    exact (IH Hq). }
  apply K. destruct p as [|c p']; [discriminate|]. exact H.
Qed.

(** What a key matches at the start of a text after a replacement, it
    matches at the start of the text before, when the replacement text is
    foreign to the key. *)
Lemma startsWith_replaced r p :
  needsChar r = true ->
  forall t d,
    foreignTo d p = true ->
    startsWith (map upperAscii d)
               (map upperAscii (replaceAll r (constant p) t)) = true ->
    startsWith (map upperAscii d) (map upperAscii t) = true.
Proof.
  intros Hn.
  apply (replaceAll_ind r (constant p)
           (fun t out => forall d, foreignTo d p = true ->
              startsWith (map upperAscii d) (map upperAscii out) = true ->
              startsWith (map upperAscii d) (map upperAscii t) = true) Hn).
  - intros d _ H. exact H.
  - intros c t _ IH d Hd H. destruct d as [|k d]; [reflexivity|].
    cbn [map startsWith] in *. apply andb_true_iff in H.
    destruct H as [H1 H2]. rewrite H1.
    exact (IH d (foreignTo_tail _ _ _ Hd) H2).
  - intros t gs rest _ _ d Hd H. destruct d as [|k d]; [reflexivity|].
    unfold constant in H. rewrite (startsWith_foreign _ _ _ _ Hd) in H.
    discriminate.
Qed.

(** after its own replacement a key occurs nowhere *)
Lemma replaced_key_is_gone k d p t :
  foreignTo (k :: d) p = true ->
  occursCi (k :: d) (replaceAll (literalCi (k :: d)) (constant p) t) = false.
Proof.
  intros Hp.
  assert (Hn : needsChar (literalCi (k :: d)) = true) by reflexivity.
  apply (replaceAll_ind (literalCi (k :: d)) (constant p)
           (fun t out => occursCi (k :: d) out = false) Hn).
  - reflexivity.
  - intros c t' Hmiss IH.
    rewrite <- (replaceAll_miss _ (constant p) _ _ Hmiss).
    unfold occursCi.
    rewrite (replaceAll_miss _ (constant p) _ _ Hmiss).
    cbn [map includes]. apply orb_false_iff. split; [|exact IH].
    apply not_true_is_false. intros E.
    assert (E' : startsWith (map upperAscii (k :: d))
                   (map upperAscii
                      (replaceAll (literalCi (k :: d)) (constant p) (c :: t')))
                 = true).
    { rewrite (replaceAll_miss _ (constant p) _ _ Hmiss). exact E. }
    apply (startsWith_replaced _ _ Hn _ _ Hp) in E'.
    rewrite exec_literalCi, E' in Hmiss. discriminate.
  - intros t' gs rest _ IH. unfold constant.
    rewrite (occursCi_foreign _ _ _ _ Hp). exact IH.
Qed.

Lemma includes_after a b n : includes (a ++ b) n = false -> includes b n = false.
Proof.
  induction a as [|c a IH]; intros H; [exact H|].
  cbn [app includes] in H. apply orb_false_iff in H. apply IH, H.
Qed.

(** a key that occurs nowhere occurs nowhere after the replacement of
    another by a text foreign to it *)
Lemma absent_key_stays_absent k d k' p t :
  needsChar (literalCi k') = true ->
  foreignTo (k :: d) p = true ->
  occursCi (k :: d) t = false ->
  occursCi (k :: d) (replaceAll (literalCi k') (constant p) t) = false.
Proof.
  intros Hn Hp. revert t.
  apply (replaceAll_ind (literalCi k') (constant p)
           (fun t out => occursCi (k :: d) t = false ->
                         occursCi (k :: d) out = false) Hn).
  - intros H. exact H.
  - intros c t' Hmiss IH H.
    unfold occursCi in H. cbn [map includes] in H.
    apply orb_false_iff in H. destruct H as [H1 H2].
    unfold occursCi. cbn [map includes]. apply orb_false_iff.
    split; [|exact (IH H2)].
    apply not_true_is_false. intros E.
    assert (E' : startsWith (map upperAscii (k :: d))
                   (map upperAscii
                      (replaceAll (literalCi k') (constant p) (c :: t')))
                 = true).
    { rewrite (replaceAll_miss _ (constant p) _ _ Hmiss). exact E. }
    apply (startsWith_replaced _ _ Hn _ _ Hp) in E'.
    cbn [map] in E'. rewrite E' in H1. discriminate.
  - intros t' gs rest Hex IH H. unfold constant.
    rewrite (occursCi_foreign _ _ _ _ Hp). apply IH.
    pose proof (exec_sound _ _ _ _ Hex) as S. subst t'.
    unfold occursCi in *. rewrite map_app in H.
    exact (includes_after _ _ _ H).
Qed.

Lemma fold_stays_absent k d rest :
  forallb (fun e => needsChar (literalCi (fst e)) && foreignTo (k :: d) (snd e))
          rest = true ->
  forall t, occursCi (k :: d) t = false ->
            occursCi (k :: d) (fold_left translateEntry rest t) = false.
Proof.
  induction rest as [|[k' p] rest IH]; intros H t Ht; [exact Ht|].
  simpl in H. apply andb_true_iff in H. destruct H as [He Hr].
  apply andb_true_iff in He. destruct He as [Hn Hp].
  cbn [fold_left translateEntry]. apply (IH Hr).
  apply absent_key_stays_absent; assumption.
Qed.

Lemma fold_afterKey k d table :
  afterKey (k :: d) table = true ->
  forall t, occursCi (k :: d) (fold_left translateEntry table t) = false.
Proof.
  induction table as [|[k' p] table IH]; intros H t; [discriminate|].
  cbn [afterKey] in H. cbn [fold_left translateEntry].
  destruct (unitsEqb k' (k :: d)) eqn:E.
  - apply unitsEqb_eq in E. subst k'.
    apply andb_true_iff in H. destruct H as [Hp Hr].
    apply (fold_stays_absent _ _ _ Hr).
    apply replaced_key_is_gone. exact Hp.
  - apply (IH H).
Qed.

Lemma tables_translate_detected :
  forallb (fun e => afterKey (js "detected") (snd e)) translations = true.
Proof. vm_compute. reflexivity. Qed.

(** In a language other than English the translation leaves no "detected"
    in a text, in whatever letter case: the detection test fails on
    everything the translation returns. *)
Lemma translation_fails_the_detection_test (l : Language) (t : jsstring) :
  In l LANGUAGES ->
  code l <> "english"%string ->
  hasHazardousObjects (Some (translateHazardInfo t l)) = false.
Proof.
  intros Hl He.
  assert (Hocc : occursCi (js "detected") (translateHazardInfo t l) = false).
  { unfold translateHazardInfo.
    destruct (String.eqb_spec (code l) "english"); [contradiction|].
    destruct (lookup (code l) translations) as [table|] eqn:E.
    - pose proof tables_translate_detected as T.
      rewrite forallb_forall in T.
      specialize (T _ (lookup_In _ _ _ E)). cbn [snd] in T.
      change (js "detected") with (100%N :: [101; 116; 101; 99; 116; 101; 100]%N)
        in *.
      apply fold_afterKey. exact T.
    - exfalso. unfold LANGUAGES in Hl. simpl in Hl.
      repeat (destruct Hl as [<- | Hl]; [try discriminate E; try contradiction|]).
      contradiction. }
  unfold hasHazardousObjects.
  destruct (translateHazardInfo t l) as [|c out] eqn:Eo; [reflexivity|].
  destruct (includes (toLowerCase (c :: out)) (js "detected")) eqn:Ei;
    [|reflexivity].
  exfalso.
  change (js "detected") with (100%N :: [101; 116; 101; 99; 116; 101; 100]%N)
    in *.
  apply includes_lowered in Ei; [|reflexivity].
  rewrite Ei in Hocc. discriminate.
Qed.

Lemma translate_noHazardMessage (l : Language) :
  In l LANGUAGES ->
  translateHazardInfo noHazardMessage l = noHazardBoilerplate l
  /\ hasHazardousObjects (Some (noHazardBoilerplate l)) = false.
Proof.
  intros Hl. unfold LANGUAGES in Hl. simpl in Hl.
  repeat (destruct Hl as [<- | Hl]; [split; vm_compute; reflexivity|]).
  contradiction.
Qed.

(** C7, as the specification words it, fails: the Hindi output for the
    example report is made of seven translated phrases and the text between
    them; fed back as a report it does not pass the detection test, and what
    comes back holds none of the seven. *)
Lemma C7_reprocessing_loses_translated_phrases :
  Forall (fun phrase => In phrase (localizedPhrases hindi))
    [ js "सुरक्षा चेतावनी"; js "चाकू"; js "पास"; js "बाएं";
      js "कैंची"; js "दूर"; js "दाएं" ]
  /\ translatedSafetyMessage (Some scenario) hindi
     = weave []
         [ (js "सुरक्षा चेतावनी", js ": "); (js "चाकू", js " - 91 ");
           (js "पास", js ", "); (js "बाएं", [LF]);
           (js "कैंची", js " - 77 "); (js "दूर", js ", ");
           (js "दाएं", []) ]
  /\ translatedSafetyMessage
       (Some (translatedSafetyMessage (Some scenario) hindi)) hindi
     = noHazardBoilerplate hindi
  /\ Forall (fun phrase =>
               includes (translatedSafetyMessage
                           (Some (translatedSafetyMessage (Some scenario) hindi))
                           hindi) phrase = false)
       [ js "सुरक्षा चेतावनी"; js "चाकू"; js "पास"; js "बाएं";
         js "कैंची"; js "दूर"; js "दाएं" ]
  /\ ~ (exists before' pieces',
          map fst pieces'
          = [ js "सुरक्षा चेतावनी"; js "चाकू"; js "पास"; js "बाएं";
              js "कैंची"; js "दूर"; js "दाएं" ]
          /\ translatedSafetyMessage
               (Some (translatedSafetyMessage (Some scenario) hindi)) hindi
             = weave before' pieces').
Proof.
  split; [|split; [|split; [|split]]].
  - repeat (apply Forall_cons;
            [vm_compute; repeat first [left; reflexivity | right]|]).
    apply Forall_nil.
  - vm_compute. reflexivity.
  - vm_compute. reflexivity.
  - repeat (apply Forall_cons; [vm_compute; reflexivity|]). apply Forall_nil.
  - intros (before' & pieces' & Hm & E).
    destruct pieces' as [|[p b] rest]; [discriminate Hm|].
    cbn [map fst] in Hm. injection Hm as Hp _. subst p.
    cbn [weave] in E.
    assert (K : includes (translatedSafetyMessage
                  (Some (translatedSafetyMessage (Some scenario) hindi)) hindi)
                  (js "सुरक्षा चेतावनी") = true)
      by (rewrite E; apply includes_app).
    assert (K' : includes (translatedSafetyMessage
                   (Some (translatedSafetyMessage (Some scenario) hindi)) hindi)
                   (js "सुरक्षा चेतावनी") = false)
      by (vm_compute; reflexivity).
    rewrite K in K'. discriminate.
Qed.

(** C7, amended: the processing of a report (detection test, clean-up,
    translation) is a function of the report and the language.  Its output,
    fed back as a report, goes through the detection test again.  When the
    report has no detection, the output is the "no hazardous objects"
    sentence of the language and processing it again gives it back.  In a
    language other than English the output of any report holds no
    "detected" any more, the tables translate the word: processing it
    again gives the "no hazardous objects" sentence of the language,
    whatever the report was.  English has no translated phrases. *)
Theorem C7_reprocessing_ends_in_no_hazard_sentence (l : Language)
    (report : jsstring) :
  In l LANGUAGES ->
  (forall report' l', report' = report -> l' = l ->
     translatedSafetyMessage (Some report') l'
     = translatedSafetyMessage (Some report) l)
  /\ (hasHazardousObjects (Some report) = false ->
      translatedSafetyMessage (Some report) l = noHazardBoilerplate l
      /\ translatedSafetyMessage
           (Some (translatedSafetyMessage (Some report) l)) l
         = translatedSafetyMessage (Some report) l)
  /\ (code l <> "english"%string ->
      hasHazardousObjects (Some (translatedSafetyMessage (Some report) l))
      = false
      /\ translatedSafetyMessage
           (Some (translatedSafetyMessage (Some report) l)) l
         = noHazardBoilerplate l)
  /\ (code l = "english"%string -> localizedPhrases l = []).
Proof.
  intros Hl.
  destruct (translate_noHazardMessage l Hl) as [Hb Hnb].
  assert (Hno : forall h, hasHazardousObjects (Some h) = false ->
                  translatedSafetyMessage (Some h) l = noHazardBoilerplate l).
  { intros h Hh. unfold translatedSafetyMessage, safetyMessage.
    rewrite Hh. exact Hb. }
  split; [intros report' l' -> ->; reflexivity|].
  split; [|split].
  - intros Hh. rewrite (Hno _ Hh). split; [reflexivity|].
    apply Hno. exact Hnb.
  - intros He.
    assert (Hf : hasHazardousObjects
                   (Some (translatedSafetyMessage (Some report) l)) = false)
      by (apply translation_fails_the_detection_test; assumption).
    split; [exact Hf|]. apply Hno. exact Hf.
  - intros He. unfold localizedPhrases, tableOf.
    rewrite He. reflexivity.
Qed.

Lemma C7_reprocessing_ends_in_no_hazard_sentence_witness :
  (forall report' l', report' = scenario -> l' = hindi ->
     translatedSafetyMessage (Some report') l'
     = translatedSafetyMessage (Some scenario) hindi)
  /\ (hasHazardousObjects (Some scenario) = false ->
      translatedSafetyMessage (Some scenario) hindi = noHazardBoilerplate hindi
      /\ translatedSafetyMessage
           (Some (translatedSafetyMessage (Some scenario) hindi)) hindi
         = translatedSafetyMessage (Some scenario) hindi)
  /\ (code hindi <> "english"%string ->
      hasHazardousObjects (Some (translatedSafetyMessage (Some scenario) hindi))
      = false
      /\ translatedSafetyMessage
           (Some (translatedSafetyMessage (Some scenario) hindi)) hindi
         = noHazardBoilerplate hindi)
  /\ (code hindi = "english"%string -> localizedPhrases hindi = []).
Proof.
  apply (C7_reprocessing_ends_in_no_hazard_sentence hindi scenario).
  right. left. reflexivity.
Defined.

(** ** Settling the call suspended last *)

Lemma findTask_last ts h (X : Type) (o : op X) k :
  Forall (fun t => taskHandle t < h) ts ->
  findTask h (ts ++ [Task h o k]) = Some (Task h o k).
Proof.
  induction 1 as [|t ts Ht _ IH]; simpl.
  - rewrite Nat.eqb_refl. reflexivity.
  - destruct (Nat.eqb_spec (taskHandle t) h); [lia|]. exact IH.
Qed.

Lemma dropTask_last ts h (X : Type) (o : op X) k :
  Forall (fun t => taskHandle t < h) ts ->
  dropTask h (ts ++ [Task h o k]) = ts.
Proof.
  induction 1 as [|t ts Ht _ IH]; simpl.
  - rewrite Nat.eqb_refl. reflexivity.
  - destruct (Nat.eqb_spec (taskHandle t) h); [lia|]. simpl. f_equal. exact IH.
Qed.

Lemma pending_last w ts t :
  tasks w = ts ++ [t] -> pending w = Some (taskHandle t).
Proof.
  intros H. unfold pending. rewrite H, rev_app_distr. reflexivity.
Qed.

Lemma resolve_tasks (X : Type) (o : op X) h w r w' :
  resolve o h w = Some (r, w') -> tasks w' = tasks w.
Proof.
  destruct o; simpl; intros H;
    try (destruct (memNat _ _); [|discriminate]);
    inversion H; reflexivity.
Qed.

Lemma reject_tasks (X : Type) (o : op X) h e w r w' :
  reject o h e w = Some (r, w') -> tasks w' = tasks w.
Proof.
  destruct o; simpl; intros H;
    try (destruct (memNat _ _); [|discriminate]);
    inversion H; reflexivity.
Qed.

Lemma answer_last w ts h (X : Type) (o : op X) k outcome :
  tasks w = ts ++ [Task h o k] ->
  Forall (fun t => taskHandle t < h) ts ->
  answer w outcome =
  match outcomeOf o h outcome w with
  | Some (r, w') => run (k r) (withTasks ts w')
  | None => w
  end.
Proof.
  intros Ht Hlt. unfold answer. rewrite (pending_last _ _ _ Ht). simpl.
  unfold settle. rewrite Ht, (findTask_last _ _ _ _ _ Hlt).
  unfold outcomeOf.
  destruct outcome as [e|].
  - destruct (reject o h e w) as [[r w']|] eqn:E; [|reflexivity].
    rewrite (reject_tasks _ _ _ _ _ _ _ E), Ht, (dropTask_last _ _ _ _ _ Hlt).
    reflexivity.
  - destruct (resolve o h w) as [[r w']|] eqn:E; [|reflexivity].
    rewrite (resolve_tasks _ _ _ _ _ _ E), Ht, (dropTask_last _ _ _ _ _ Hlt).
    reflexivity.
Qed.

Lemma wellFormed_le w h :
  wellFormed w -> fresh w <= h ->
  Forall (fun t => taskHandle t < h) (tasks w).
Proof.
  unfold wellFormed. intros H Hle.
  eapply Forall_impl; [|exact H]. simpl. intros; lia.
Qed.




Lemma answers_nil w : answers w [] = w.
Proof. reflexivity. Qed.


Lemma memNat_In n l : In n l -> memNat n l = true.
Proof.
  intros H. unfold memNat. apply existsb_exists. exists n.
  split; [exact H|apply Nat.eqb_refl].
Qed.

Lemma outcomeOf_enabled (X : Type) (o : op X) h outcome w :
  enabled o h w -> outcomeOf o h outcome w = effect o h outcome w.
Proof.
  destruct o, outcome; simpl; intros H; try reflexivity;
    rewrite (memNat_In _ _ H); reflexivity.
Qed.

Lemma answer_enabled w ts h (X : Type) (o : op X) k outcome :
  tasks w = ts ++ [Task h o k] ->
  Forall (fun t => taskHandle t < h) ts ->
  enabled o h w ->
  answer w outcome =
  match effect o h outcome w with
  | Some (r, w') => run (k r) (withTasks ts w')
  | None => w
  end.
Proof.
  intros Ht Hlt He. rewrite (answer_last _ _ _ _ _ _ outcome Ht Hlt).
  rewrite (outcomeOf_enabled _ _ _ _ _ He). reflexivity.
Qed.

Lemma answers_step w o os w' :
  answer w o = w' -> answers w (o :: os) = answers w' os.
Proof. intros <-. reflexivity. Qed.

(** Symbolic execution.  A world is evaluated once, into a record, and
    the statements are then read off its fields. *)

Ltac exec :=
  lazy -[answers answer languageAt safetyMessage translateHazardInfo
         removeNat memNat removeUri stripDataUrlPrefix app since speeches
         audioErrorAlert noDescriptionAlert In not lt].

(** a goal [answer w outcome = ?w'], [H] the well-formedness of the world
    the narration started in *)
(** the handles of the suspended calls are below that of the last *)
Ltac handles H :=
  repeat first
    [ apply Forall_nil
    | apply (wellFormed_le _ _ H); lazy;
      repeat first [apply le_n | apply le_S]
    | apply Forall_app; split
    | apply Forall_cons;
      [lazy; repeat first [apply le_n | apply le_S]|] ].

Ltac settle_last H :=
  etransitivity;
  [ eapply answer_enabled;
    [ reflexivity
    | handles H
    | lazy; first [exact I | left; reflexivity] ]
  | exec; reflexivity ].

(** a goal [answers w outcomes = ?w'] *)
Ltac drive H :=
  repeat (etransitivity; [apply answers_step; settle_last H|]);
  apply answers_nil.

(** a goal [step w Press = ?w'] *)
Ltac press Hp Hc Hm Ha :=
  unfold step, speakCurrentDescription; cbv beta iota delta [state];
  rewrite ?Hp, ?Hc, ?Hm, ?Ha;
  repeat match goal with
         | H : safetyMessage _ = _ :: _ |- _ => rewrite H
         end;
  exec; reflexivity.

Lemma answers_from w w' os : w = w' -> answers w os = answers w' os.
Proof. intros <-. reflexivity. Qed.

Lemma answer_from w w' o : w = w' -> answer w o = answer w' o.
Proof. intros <-. reflexivity. Qed.

(** a goal [answers (step w Press) outcomes = ?w'] *)
Ltac session Hw Hp Hc Hm Ha :=
  etransitivity; [apply answers_from; press Hp Hc Hm Ha|]; drive Hw.

(** [normalize x tac]: the local definition [x] of a world is replaced by
    the record [tac] finds for it. *)
Ltac normalize x tac :=
  let E := fresh "E" in
  let R := fresh "R" in
  evar (R : World);
  assert (E : x = R) by (subst x R; tac);
  clearbody x; subst x; subst R.

Lemma safetyMessage_nonempty h : safetyMessage h <> [].
Proof.
  unfold safetyMessage. destruct (hasHazardousObjects h).
  - unfold hazardMessage, orElse.
    destruct (cleanHazardText _); [|discriminate].
    vm_compute. discriminate.
  - vm_compute. discriminate.
Qed.

Lemma skipn_log (lg l : list event) : skipn (length lg) (lg ++ l) = l.
Proof. rewrite skipn_app, skipn_all, Nat.sub_diag. reflexivity. Qed.

Lemma skipn_log0 (lg : list event) : skipn (length lg) lg = [].
Proof. apply skipn_all. Qed.

Ltac open_world w :=
  destruct w as [st sr ck fl ld sp fr ts lg];
  unfold currentCaption, currentLanguage, renderedOperations, swipe,
    pressToStop in *;
  cbv beta iota delta
    [state soundRef log tasks files loaded speaking fresh clock] in *.

Ltac read_log :=
  unfold since; cbv beta iota delta [log];
  match goal with
  | |- context [skipn (length ?L) _] =>
    let P := fresh "P" in
    generalize L; intros P;
    rewrite <- ?app_assoc; rewrite ?skipn_log, ?skipn_log0;
    try reflexivity
  end.

Ltac read :=
  first [ solve [read_log]
        | solve [unfold idle; lazy; repeat split; reflexivity]
        | solve [lazy; reflexivity] ].

Ltac conjuncts := repeat match goal with |- _ /\ _ => split end.

(** C8: when no narration is playing and the analysis has no caption for
    the current language, the speak command shows the "No Description"
    alert and does nothing else: the flags, [soundRef], the files, the
    sounds, the synthesizer and the suspended calls are as before, so the
    phase stays idle, nothing is played and no audio resource is made. *)
Theorem C8_caption_missing (w : World) :
  isPlaying (state w) = false ->
  currentCaption w = None ->
  step w Press = emit noDescriptionAlert w.
Proof.
  intros Hp Hc. unfold step, speakCurrentDescription.
  unfold currentCaption, currentLanguage in Hc. rewrite Hp, Hc. reflexivity.
Qed.

(** C10: the speak command given while [isPlaying] holds acts as a stop.
    Run to its end (the unloading of the current sound, when there is one,
    having completed) it leaves [soundRef] empty and its sound unloaded,
    the synthesizer stopped, the three flags false, no file touched and no
    further call suspended; all that happens is the unloading and
    [Speech.stop()]: no alert, no sound, no speech. *)
Theorem C10_press_while_playing (w : World) :
  wellFormed w ->
  isPlaying (state w) = true ->
  let w' := pressToStop w in
  soundRef w' = None
  /\ (forall s, soundRef w = Some s -> ~ In s (loaded w'))
  /\ speaking w' = []
  /\ idle (state w')
  /\ tasks w' = tasks w
  /\ files w' = files w
  /\ since w w'
     = match soundRef w with Some s => [EvUnload s] | None => [] end
       ++ [EvSpeechStop].
Proof.
  intros Hw Hp w'. open_world w.
  destruct sr as [s|].
  - normalize w' ltac:(etransitivity;
      [apply answer_from; press Hp Hp Hp Hp|settle_last Hw]).
    conjuncts; try read.
    intros s' [= <-]. lazy -[In not removeNat].
    unfold removeNat. rewrite filter_In.
    intros [_ H]. rewrite Nat.eqb_refl in H. discriminate.
  - normalize w' ltac:(press Hp Hp Hp Hp).
    conjuncts; try read.
    intros s' [=].
Qed.

Ltac name_answer x :=
  match goal with |- context [answer ?W ?o] => set (x := answer W o) end.

Ltac expand_outcomes e :=
  change (failsAt 0 e) with [Some e] in *;
  change (failsAt 1 e) with [None; Some e] in *;
  change (failsAt 2 e) with [None; None; Some e] in *;
  change (failsAt 3 e) with [None; None; None; Some e] in *;
  change (repeat (@None error) 0) with (@nil (option error)) in *;
  change (repeat (@None error) 1) with [@None error] in *;
  change (repeat (@None error) 2) with [@None error; None] in *;
  change (repeat (@None error) 3) with [@None error; None; None] in *.

(** C3: with the audio mode [server] and a caption that carries audio,
    let the rendered playback fail at any of its operations (unloading the
    previous sound, writing the file, creating the sound, the playback
    itself), the ones before it having succeeded.  Up to the failure
    nothing is spoken; the failure makes the synthesizer speak the text of
    the same caption, once.  If the synthesizer fails too, the "Audio
    Error" alert is all that follows: the flags are reset and nothing stays
    suspended, so nothing is tried again.  If it succeeds the narration
    goes on to the pause without speaking the description again. *)
Theorem C3_single_fallback (w : World) (c : CaptionData) (a : jsstring)
    (n : nat) (e e' : error) :
  wellFormed w ->
  isPlaying (state w) = false ->
  audioMode (state w) = server ->
  currentCaption w = Some c ->
  truthy (audio_base64 c) = Some a ->
  n < renderedOperations w ->
  let retry := EvSpeak (text c) (voice (currentLanguage w)) in
  let w0 := answers (step w Press) (repeat None n) in
  let w1 := answers (step w Press) (failsAt n e) in
  speeches (since w w0) = []
  /\ speeches (since w w1) = [retry]
  /\ (let w2 := answer w1 (Some e') in
      since w1 w2 = [audioErrorAlert]
      /\ idle (state w2) /\ tasks w2 = tasks w)
  /\ (let w2 := answer w1 None in
      since w1 w2 = []
      /\ isPlaying (state w2) = true
      /\ isPlayingDescription (state w2) = false).
Proof.
  intros Hw Hp Hm Hc Ha Hn retry w0 w1. open_world w.
  assert (Hcases : n = 0 \/ n = 1 \/ n = 2 \/ (n = 3 /\ sr <> None))
    by (destruct sr;
        [assert (n < 4) by exact Hn;
         assert (n = 0 \/ n = 1 \/ n = 2 \/ n = 3) as [?|[?|[?|?]]] by lia;
         auto; do 3 right; split; [assumption|discriminate]
        |assert (n < 3) by exact Hn; lia]).
  clear Hn.
  destruct Hcases as [->|[->|[->|[-> Hsr]]]];
    (destruct sr as [s|]; [|try congruence]);
    expand_outcomes e;
    normalize w0 ltac:(session Hw Hp Hc Hm Ha);
    normalize w1 ltac:(session Hw Hp Hc Hm Ha);
    (split; [read|]); (split; [read|]);
    (split; cbv zeta; name_answer w2; normalize w2 ltac:(settle_last Hw);
     conjuncts; read).
Qed.

(** the safety message of a render, which is never empty, by name *)
Ltac name_safety st Hsafe :=
  unfold translatedSafetyMessage;
  pose proof (safetyMessage_nonempty (hazardInfo st)) as Hsafe;
  destruct (safetyMessage (hazardInfo st)) eqn:Hsafe';
  [congruence|clear Hsafe].

(** C4: the temporary file is deleted only when the playback reports its
    end.  When the playback reports an error instead, the file written for
    it is still there when the narration has ended (the description spoken
    by the synthesizer, the pause, the safety statement) and no deletion
    was asked for; on the path where the playback finishes the deletion
    is asked for. *)
Theorem C4_temporary_file_left_behind (w : World) (c : CaptionData)
    (a : jsstring) (e : error) :
  wellFormed w ->
  isPlaying (state w) = false ->
  audioMode (state w) = server ->
  currentCaption w = Some c ->
  truthy (audio_base64 c) = Some a ->
  soundRef w = None ->
  let temp := clock w in
  let failed := answers (step w Press) [None; None; Some e] in
  let ended := answers failed [None; None; None] in
  let finished := answers (step w Press) [None; None; None] in
  (In temp (files failed) /\ ~ In (EvDelete temp) (since w failed))
  /\ (tasks ended = tasks w /\ idle (state ended) /\ In temp (files ended)
      /\ ~ In (EvDelete temp) (since w ended))
  /\ In (EvDelete temp) (since w finished).
Proof.
  intros Hw Hp Hm Hc Ha Hs temp failed ended finished.
  open_world w. subst sr. name_safety st Hsafe.
  normalize failed ltac:(session Hw Hp Hc Hm Ha).
  normalize ended ltac:(drive Hw).
  normalize finished ltac:(session Hw Hp Hc Hm Ha).
  subst temp. conjuncts; try read.
  - left. reflexivity.
  - read_log. cbn. intros [H|[H|[H|[]]]]; discriminate.
  - left. reflexivity.
  - read_log. cbn. intros [H|[H|[H|[H|[]]]]]; discriminate.
  - read_log. cbn. right. right. left. reflexivity.
Qed.

(** C2: a stop in the description phase that comes while [playServerAudio]
    still awaits the writing of the temporary file.  The first press starts
    the narration ([isPlaying] and [isPlayingDescription] hold), the second
    press is the stop: it calls [Speech.stop()] and resets the flags, and
    finds no sound to unload.  The suspended narration then goes on: the
    file is written, the sound plays to its end, and after the pause the
    safety statement is spoken. *)
Theorem C2_stop_while_preparing (w : World) (c : CaptionData)
    (a : jsstring) :
  wellFormed w ->
  isPlaying (state w) = false ->
  audioMode (state w) = server ->
  currentCaption w = Some c ->
  truthy (audio_base64 c) = Some a ->
  soundRef w = None ->
  let started := step w Press in
  let stopped := step started Press in
  let later := answers stopped [None; None; None; None] in
  (isPlaying (state started) = true
   /\ isPlayingDescription (state started) = true
   /\ since w started = [])
  /\ (idle (state stopped) /\ since started stopped = [EvSpeechStop])
  /\ since stopped later
     = [ EvWrite (clock w);
         EvPlay (S (S (fresh w))) (clock w);
         EvDelete (clock w);
         EvSpeak (translatedSafetyMessage (hazardInfo (state w))
                                          (currentLanguage w))
                 (voice (currentLanguage w)) ].
Proof.
  intros Hw Hp Hm Hc Ha Hs started stopped later.
  open_world w. subst sr. name_safety st Hsafe.
  normalize started ltac:(press Hp Hc Hm Ha).
  normalize stopped ltac:(unfold step; exec; reflexivity).
  normalize later ltac:(drive Hw).
  conjuncts; read.
Qed.

Lemma swipe_spec (w : World) :
  wellFormed w ->
  wellFormed (swipe w)
  /\ currentLanguageIndex (state (swipe w))
     = nextLanguageIndex (currentLanguageIndex (state w)).
Proof.
  intros Hw. open_world w. unfold step, changeLanguage.
  destruct sr as [s|].
  - set (w' := answer _ None).
    normalize w' ltac:(etransitivity;
      [apply answer_from; exec; reflexivity|settle_last Hw]).
    split; [|reflexivity].
    apply (wellFormed_le _ _ Hw). lazy. apply le_S, le_n.
  - split; [exact Hw|reflexivity].
Qed.

Lemma swipe_iter (n : nat) (w : World) :
  wellFormed w ->
  wellFormed (Nat.iter n swipe w)
  /\ currentLanguageIndex (state (Nat.iter n swipe w))
     = Nat.iter n nextLanguageIndex (currentLanguageIndex (state w)).
Proof.
  intros Hw. induction n as [|n [IHw IHi]]; [split; [exact Hw|reflexivity]|].
  rewrite !Nat.iter_succ. destruct (swipe_spec _ IHw) as [Hw' Hi].
  split; [exact Hw'|]. rewrite Hi, IHi. reflexivity.
Qed.

(** C9: the catalog has the six languages english, hindi, bengali, telugu,
    tamil, malayalam; [changeLanguage], run to its end, moves the index
    from [i] to [(i + 1) mod 6], which is below the length of the catalog;
    from index 0 five changes reach 5 and a sixth returns to 0. *)
Theorem C9_language_cycle (w : World) :
  wellFormed w ->
  let i := currentLanguageIndex (state w) in
  map code LANGUAGES
  = ["english"; "hindi"; "bengali"; "telugu"; "tamil"; "malayalam"]%string
  /\ currentLanguageIndex (state (swipe w)) = (i + 1) mod 6
  /\ currentLanguageIndex (state (swipe w)) < length LANGUAGES
  /\ (i = 0 ->
      currentLanguageIndex (state (Nat.iter 5 swipe w)) = 5
      /\ currentLanguageIndex (state (Nat.iter 6 swipe w)) = 0).
Proof.
  intros Hw i. split; [reflexivity|].
  destruct (swipe_spec _ Hw) as [_ Hs]. rewrite Hs. fold i.
  split; [reflexivity|]. split.
  - unfold nextLanguageIndex. cbn [length LANGUAGES].
    apply Nat.mod_upper_bound. discriminate.
  - intros Hi.
    destruct (swipe_iter 5 _ Hw) as [_ H5].
    destruct (swipe_iter 6 _ Hw) as [_ H6].
    rewrite H5, H6. fold i. rewrite Hi. split; reflexivity.
Qed.

(** The other half of the toggle: pressed while nothing plays, with a
    caption for the current language, the command starts a narration,
    which is suspended at its first operation with [isPlaying] and
    [isPlayingDescription] set. *)
Lemma press_while_idle_starts (w : World) (c : CaptionData) :
  isPlaying (state w) = false ->
  currentCaption w = Some c ->
  let started := step w Press in
  isPlaying (state started) = true
  /\ isPlayingDescription (state started) = true
  /\ length (tasks started) = S (length (tasks w)).
Proof.
  intros Hp Hc started. open_world w.
  assert (E : exists st' sr' ck' fl' ld' sp' fr' t lg',
             started = mkWorld st' sr' ck' fl' ld' sp' fr' (ts ++ [t]) lg'
             /\ isPlaying st' = true /\ isPlayingDescription st' = true).
  { subst started. unfold step, speakCurrentDescription.
    cbv beta iota delta [state]. rewrite Hp, Hc.
    destruct (audioMode st), (truthy (audio_base64 c)), sr; exec;
      do 9 eexists; (split; [reflexivity|split; reflexivity]). }
  destruct E as (st' & sr' & ck' & fl' & ld' & sp' & fr' & t & lg' & -> & H1 & H2).
  cbv beta iota delta [state tasks]. rewrite length_app. simpl.
  repeat split; [exact H1|exact H2|lia].
Qed.

(** ** A stop that finds the description audible *)

Lemma answer_disabled w ts h (X : Type) (o : op X) k outcome :
  tasks w = ts ++ [Task h o k] ->
  Forall (fun t => taskHandle t < h) ts ->
  outcomeOf o h outcome w = None ->
  answer w outcome = w.
Proof.
  intros Ht Hlt Hn. rewrite (answer_last _ _ _ _ _ _ outcome Ht Hlt), Hn.
  reflexivity.
Qed.

Lemma memNat_not_In n l : ~ In n l -> memNat n l = false.
Proof.
  intros H. unfold memNat. destruct (existsb (Nat.eqb n) l) eqn:E;
    [|reflexivity].
  apply existsb_exists in E. destruct E as (m & Hm & Em).
  apply Nat.eqb_eq in Em. subst m. contradiction.
Qed.

Lemma not_In_removeNat n l : ~ In n (removeNat n l).
Proof.
  unfold removeNat. rewrite filter_In. intros [_ H].
  rewrite Nat.eqb_refl in H. discriminate.
Qed.

Lemma outcomeOf_unloaded s h outcome w :
  ~ In s (loaded w) -> outcomeOf (PlaybackStatusUpdate s) h outcome w = None.
Proof.
  intros H. destruct outcome; simpl; rewrite (memNat_not_In _ _ H);
    reflexivity.
Qed.

Lemma outcomeOf_silent t v h outcome w :
  ~ In h (speaking w) -> outcomeOf (Speak t v) h outcome w = None.
Proof.
  intros H. destruct outcome; simpl; rewrite (memNat_not_In _ _ H);
    reflexivity.
Qed.

Lemma answers_fixed w :
  (forall outcome, answer w outcome = w) ->
  forall outcomes, answers w outcomes = w.
Proof.
  intros H outcomes. induction outcomes as [|o os IH]; [reflexivity|].
  rewrite (answers_step w o os w (H o)). exact IH.
Qed.

(** A stop while the sound of the description plays: the sound is
    unloaded, the flags are reset, and the narration that was stopped
    stays suspended whatever the platform is asked to settle, since the
    platform reports no end of playback for a sound that is not loaded. *)
Lemma stop_while_sound_plays (w : World) (c : CaptionData) (a : jsstring) :
  wellFormed w ->
  isPlaying (state w) = false ->
  audioMode (state w) = server ->
  currentCaption w = Some c ->
  truthy (audio_base64 c) = Some a ->
  soundRef w = None ->
  let playing := answers (step w Press) [None; None] in
  let stopped := pressToStop playing in
  (isPlayingDescription (state playing) = true
   /\ soundRef playing = Some (S (S (fresh w))))
  /\ idle (state stopped)
  /\ soundRef stopped = None
  /\ since playing stopped = [EvUnload (S (S (fresh w))); EvSpeechStop]
  /\ forall outcomes, answers stopped outcomes = stopped.
Proof.
  intros Hw Hp Hm Hc Ha Hs playing stopped.
  open_world w. subst sr. name_safety st Hsafe.
  normalize playing ltac:(session Hw Hp Hc Hm Ha).
  cbv beta iota delta [soundRef] in stopped.
  normalize stopped ltac:(etransitivity;
    [apply answer_from; unfold step, speakCurrentDescription; exec;
     reflexivity
    |settle_last Hw]).
  conjuncts; try read.
  apply answers_fixed. intros outcome.
  eapply answer_disabled;
    [ reflexivity
    | handles Hw
    | apply outcomeOf_unloaded; apply not_In_removeNat ].
Qed.

(** The same while the synthesizer speaks the description: [Speech.stop()]
    takes the utterance from the synthesizer, which then reports neither
    its end nor an error. *)
Lemma stop_while_speaking (w : World) (c : CaptionData) :
  wellFormed w ->
  isPlaying (state w) = false ->
  audioMode (state w) = tts ->
  currentCaption w = Some c ->
  soundRef w = None ->
  let speaking := step w Press in
  let stopped := step speaking Press in
  (isPlayingDescription (state speaking) = true
   /\ since w speaking = [EvSpeak (text c) (voice (currentLanguage w))])
  /\ idle (state stopped)
  /\ since speaking stopped = [EvSpeechStop]
  /\ forall outcomes, answers stopped outcomes = stopped.
Proof.
  intros Hw Hp Hm Hc Hs speaking stopped.
  open_world w. subst sr. name_safety st Hsafe.
  normalize speaking ltac:(press Hp Hc Hm Hm).
  normalize stopped ltac:(unfold step, speakCurrentDescription; exec;
                          reflexivity).
  conjuncts; try read.
  apply answers_fixed. intros outcome.
  eapply answer_disabled;
    [ reflexivity
    | handles Hw
    | apply outcomeOf_silent; intros [] ].
Qed.

(** ** Instances *)

Lemma demoWorld_wellFormed : wellFormed demoWorld.
Proof. apply Forall_nil. Qed.

Lemma C8_caption_missing_witness :
  step demoBengali Press = emit noDescriptionAlert demoBengali.
Proof. apply C8_caption_missing; reflexivity. Defined.

Lemma C10_press_while_playing_witness :
  let w' := pressToStop demoPlaying in
  soundRef w' = None
  /\ (forall s, soundRef demoPlaying = Some s -> ~ In s (loaded w'))
  /\ speaking w' = []
  /\ idle (state w')
  /\ tasks w' = tasks demoPlaying
  /\ files w' = files demoPlaying
  /\ since demoPlaying w'
     = match soundRef demoPlaying with
       | Some s => [EvUnload s]
       | None => []
       end ++ [EvSpeechStop].
Proof.
  apply C10_press_while_playing.
  - unfold wellFormed. vm_compute. repeat constructor.
  - vm_compute. reflexivity.
Defined.

Lemma C3_single_fallback_witness :
  let retry := EvSpeak (text demoCaption) (voice (currentLanguage demoWorld)) in
  let w0 := answers (step demoWorld Press) (repeat None 2) in
  let w1 := answers (step demoWorld Press) (failsAt 2 "codec"%string) in
  speeches (since demoWorld w0) = []
  /\ speeches (since demoWorld w1) = [retry]
  /\ (let w2 := answer w1 (Some "synthesis"%string) in
      since w1 w2 = [audioErrorAlert]
      /\ idle (state w2) /\ tasks w2 = tasks demoWorld)
  /\ (let w2 := answer w1 None in
      since w1 w2 = []
      /\ isPlaying (state w2) = true
      /\ isPlayingDescription (state w2) = false).
Proof.
  apply (C3_single_fallback demoWorld demoCaption demoAudio 2
           "codec"%string "synthesis"%string).
  - exact demoWorld_wellFormed.
  - reflexivity.
  - reflexivity.
  - reflexivity.
  - reflexivity.
  - vm_compute. repeat constructor.
Defined.

Lemma C4_temporary_file_left_behind_witness :
  let temp := clock demoWorld in
  let failed := answers (step demoWorld Press) [None; None; Some "codec"%string] in
  let ended := answers failed [None; None; None] in
  let finished := answers (step demoWorld Press) [None; None; None] in
  (In temp (files failed) /\ ~ In (EvDelete temp) (since demoWorld failed))
  /\ (tasks ended = tasks demoWorld /\ idle (state ended)
      /\ In temp (files ended)
      /\ ~ In (EvDelete temp) (since demoWorld ended))
  /\ In (EvDelete temp) (since demoWorld finished).
Proof.
  apply (C4_temporary_file_left_behind demoWorld demoCaption demoAudio
           "codec"%string).
  - exact demoWorld_wellFormed.
  - reflexivity.
  - reflexivity.
  - reflexivity.
  - reflexivity.
  - reflexivity.
Defined.

Lemma C2_stop_while_preparing_witness :
  let started := step demoWorld Press in
  let stopped := step started Press in
  let later := answers stopped [None; None; None; None] in
  (isPlaying (state started) = true
   /\ isPlayingDescription (state started) = true
   /\ since demoWorld started = [])
  /\ (idle (state stopped) /\ since started stopped = [EvSpeechStop])
  /\ since stopped later
     = [ EvWrite (clock demoWorld);
         EvPlay (S (S (fresh demoWorld))) (clock demoWorld);
         EvDelete (clock demoWorld);
         EvSpeak (translatedSafetyMessage (hazardInfo (state demoWorld))
                                          (currentLanguage demoWorld))
                 (voice (currentLanguage demoWorld)) ].
Proof.
  apply (C2_stop_while_preparing demoWorld demoCaption demoAudio).
  - exact demoWorld_wellFormed.
  - reflexivity.
  - reflexivity.
  - reflexivity.
  - reflexivity.
  - reflexivity.
Defined.

Lemma C9_language_cycle_witness :
  currentLanguageIndex (state (Nat.iter 5 swipe demoEnglish)) = 5
  /\ currentLanguageIndex (state (Nat.iter 6 swipe demoEnglish)) = 0.
Proof.
  apply (C9_language_cycle demoEnglish).
  - apply Forall_nil.
  - reflexivity.
Defined.

(* ===================================================================== *)
(** * Further properties *)
(* ===================================================================== *)

(** ** The data URL prefix *)

(** X7: [playServerAudio] takes the prefix [data:audio/mp3;base64,] off the
    start of the payload, once: the payload made of the prefix and some
    data gives the data, also when the data begins with the prefix again;
    a payload that does not begin with the prefix is written as it is. *)
Theorem data_url_prefix_removed_once (d : jsstring) :
  stripDataUrlPrefix (dataUrlPrefix ++ d) = d
  /\ (startsWith dataUrlPrefix d = false -> stripDataUrlPrefix d = d).
Proof.
  split.
  - unfold stripDataUrlPrefix. rewrite startsWith_app.
    rewrite skipn_app, skipn_all, Nat.sub_diag. reflexivity.
  - intros H. unfold stripDataUrlPrefix. rewrite H. reflexivity.
Qed.

(** ** The detection test *)

Lemma toLowerCase_app a b : toLowerCase (a ++ b) = toLowerCase a ++ toLowerCase b.
Proof. apply flat_map_app. Qed.

(** X1: a report that holds "no objects detected" somewhere, in any letter
    case, counts as free of hazards, whatever else it says. *)
Theorem no_objects_detected_overrides (a m b : jsstring) :
  toLowerCase m = js "no objects detected" ->
  hasHazardousObjects (Some (a ++ m ++ b)) = false.
Proof.
  intros Hm. unfold hasHazardousObjects.
  destruct (a ++ m ++ b) as [|c t] eqn:E; [reflexivity|].
  rewrite <- E, !toLowerCase_app, Hm, includes_app.
  apply andb_false_r.
Qed.

Lemma no_objects_detected_overrides_witness :
  hasHazardousObjects
    (Some (js "Detected 2 objects: knife, scissors. "
           ++ js "No Objects Detected" ++ js " in the second image"))
  = false.
Proof.
  apply (no_objects_detected_overrides
           (js "Detected 2 objects: knife, scissors. ")
           (js "No Objects Detected") (js " in the second image")).
  vm_compute. reflexivity.
Defined.

(** ** Something to say *)

Lemma replaceAll_nonempty r f t :
  (forall gs, f gs <> []) -> t <> [] -> replaceAll r f t <> [].
Proof.
  intros Hf Ht. destruct t as [|c t]; [congruence|].
  unfold replaceAll. simpl.
  destruct (exec r (c :: t)) as [[gs rest]|]; [|discriminate].
  specialize (Hf gs).
  destruct (f gs); [congruence|]. destruct (length (concat gs)); discriminate.
Qed.

Lemma phraseShaped_nonempty p : phraseShaped p = true -> p <> [].
Proof. destruct p; [discriminate|discriminate]. Qed.

Lemma translate_nonempty t l : t <> [] -> translateHazardInfo t l <> [].
Proof.
  intros Ht. unfold translateHazardInfo.
  destruct (String.eqb (code l) "english"); [exact Ht|].
  destruct (lookup (code l) translations) as [table|] eqn:E; [|exact Ht].
  pose proof tables_phrases as T. rewrite forallb_forall in T.
  specialize (T _ (lookup_In _ _ _ E)). simpl in T.
  rewrite forallb_forall in T.
  clear E. revert t Ht. induction table as [|[k v] table IH]; intros t Ht.
  - exact Ht.
  - simpl. apply IH.
    + intros e He. apply T. right. exact He.
    + apply replaceAll_nonempty; [|exact Ht].
      intros gs. unfold constant. apply phraseShaped_nonempty.
      apply (T (k, v)). left. reflexivity.
Qed.

(** X2: the safety message is never empty, and neither is its translation,
    in any language: the test [if (safetyMessage)] always passes and the
    synthesizer is never given an empty safety statement. *)
Theorem safety_statement_never_empty (h : option jsstring) (l : Language) :
  safetyMessage h <> [] /\ translatedSafetyMessage h l <> [].
Proof.
  split; [apply safetyMessage_nonempty|].
  apply translate_nonempty. apply safetyMessage_nonempty.
Qed.

(** ** The step that removes the confidence scores *)

Lemma exec_numbering t :
  exec reNumbering t =
  match span isDigit t with
  | (d :: g, c :: rest) =>
    if (c =? 46)%N
    then let (ws, r) := span isWhiteSpace rest in Some ([d :: g; [c]; ws], r)
    else None
  | _ => None
  end.
Proof.
  unfold reNumbering. cbn [exec].
  destruct (span isDigit t) as [[|d g] [|c rest]]; try reflexivity.
  unfold exactChar. destruct (c =? 46)%N; [|reflexivity].
  destruct (span isWhiteSpace rest). reflexivity.
Qed.

Lemma exec_numbering_hit t gs rest :
  exec reNumbering t = Some (gs, rest) -> dotAfterDigits t = true.
Proof.
  rewrite exec_numbering. unfold dotAfterDigits.
  destruct (span isDigit t) as [[|d g] [|c r]]; try discriminate.
  simpl. destruct (c =? 46)%N; [reflexivity|discriminate].
Qed.

Lemma exec_numbering_digit c t :
  isDigit c = true -> dotAfterDigits t = true ->
  exec reNumbering (c :: t) <> None.
Proof.
  intros Hc Ht. rewrite exec_numbering. unfold dotAfterDigits in Ht.
  simpl span. rewrite Hc.
  destruct (span isDigit t) as [g [|c' r]]; [discriminate|].
  simpl in Ht. rewrite Ht. destruct (span isWhiteSpace r). discriminate.
Qed.

Lemma digitDot_cons c t :
  digitDot (c :: t) = (isDigit c && dotFirst t) || digitDot t.
Proof. destruct t; [rewrite andb_false_r|]; reflexivity. Qed.

Lemma numbering_leaves_no_digitDot t :
  digitDot (replaceAll reNumbering (constant []) t) = false.
Proof.
  assert (K : digitDot (replaceAll reNumbering (constant []) t) = false
              /\ (dotFirst (replaceAll reNumbering (constant []) t) = true ->
                  dotAfterDigits t = true)); [|exact (proj1 K)].
  apply (replaceAll_ind reNumbering (constant [])
    (fun t out => digitDot out = false
                  /\ (dotFirst out = true -> dotAfterDigits t = true)));
    [reflexivity| | |].
  - split; [reflexivity|discriminate].
  - intros c u Hm [IH1 IH2]. split.
    + rewrite digitDot_cons, IH1, orb_false_r.
      destruct (isDigit c) eqn:Hc; [|reflexivity].
      destruct (dotFirst (replaceAll reNumbering (constant []) u)) eqn:Hd;
        [|reflexivity].
      exfalso. exact (exec_numbering_digit c u Hc (IH2 eq_refl) Hm).
    + simpl. intros Hc. apply N.eqb_eq in Hc. subst c. reflexivity.
  - intros u gs rest Hh [IH1 IH2]. split; [exact IH1|].
    intros _. exact (exec_numbering_hit _ _ _ Hh).
Qed.

Lemma digitDot_app a b : digitDot b = true -> digitDot (a ++ b) = true.
Proof.
  intros H. induction a as [|c a IH]; [exact H|].
  cbn [app]. rewrite digitDot_cons, IH. apply orb_true_r.
Qed.

Lemma digitDot_run g r :
  g <> [] -> forallb isDigit g = true -> digitDot (g ++ 46%N :: r) = true.
Proof.
  induction g as [|d g IH]; [congruence|]. intros _ H.
  simpl in H. apply andb_true_iff in H. destruct H as [Hd Hg].
  cbn [app]. rewrite digitDot_cons. destruct g as [|d' g].
  - simpl. rewrite Hd. reflexivity.
  - rewrite IH; [apply orb_true_r|discriminate|exact Hg].
Qed.

Lemma span_class p t g r : span p t = (g, r) -> forallb p g = true.
Proof.
  revert g r. induction t as [|c t IH]; simpl; intros g r H.
  - inversion H. reflexivity.
  - destruct (p c) eqn:Hc.
    + destruct (span p t) as [g' r'] eqn:E. inversion H; subst.
      simpl. rewrite Hc. exact (IH _ _ eq_refl).
    + inversion H. reflexivity.
Qed.

(** the pattern of the scores needs a digit with a full stop after it *)
Lemma exec_confidence s :
  digitDot s = false -> exec reConfidence s = None.
Proof.
  intros H. unfold reConfidence. cbn [exec].
  destruct (span isWhiteSpace s) as [ws1 r1] eqn:S1.
  destruct r1 as [|c1 r2]; [reflexivity|].
  destruct (exactChar 45 c1); [|reflexivity].
  destruct (span isWhiteSpace r2) as [ws2 r3] eqn:S2.
  destruct (span isDigit r3) as [[|d g] r4] eqn:S3; [reflexivity|].
  destruct r4 as [|c4 r5]; [reflexivity|].
  destruct (exactChar 46 c4) eqn:E46; [|reflexivity].
  exfalso. unfold exactChar in E46. apply N.eqb_eq in E46. subst c4.
  pose proof (span_sound _ _ _ _ S1) as E1.
  pose proof (span_sound _ _ _ _ S2) as E2.
  pose proof (span_sound _ _ _ _ S3) as E3.
  pose proof (span_class _ _ _ _ S3) as Hg.
  assert (D : digitDot s = true).
  { rewrite E1. apply digitDot_app.
    change (c1 :: r2) with ([c1] ++ r2). apply digitDot_app.
    rewrite E2. apply digitDot_app. rewrite E3.
    apply digitDot_run; [discriminate|exact Hg]. }
  congruence.
Qed.

Lemma replaceAll_confidence f t :
  digitDot t = false -> replaceAll reConfidence f t = t.
Proof.
  induction t as [|c t IH]; intros H.
  - apply replaceAll_nil. reflexivity.
  - rewrite replaceAll_miss by (apply exec_confidence; exact H).
    f_equal. apply IH. rewrite digitDot_cons in H.
    apply orb_false_iff in H. exact (proj2 H).
Qed.

(** X3: the step of the clean-up that is to remove the confidence scores
    never changes the text: after the numbering has been removed no digit
    is followed by a full stop, and the pattern of the scores needs one. *)
Theorem confidence_step_changes_nothing (hazardText : jsstring) :
  let numbered := replaceAll reNumbering (constant []) hazardText in
  replaceAll reConfidence (constant []) numbered = numbered.
Proof.
  intros numbered. apply replaceAll_confidence.
  apply numbering_leaves_no_digitDot.
Qed.

(** ** Texts the table does not know *)

Lemma replaceAll_absent k f t :
  occursCi k t = false -> replaceAll (literalCi k) f t = t.
Proof.
  unfold occursCi. induction t as [|c t IH]; intros H.
  - cbn [map includes] in H. apply orb_false_iff in H. destruct H as [H _].
    unfold replaceAll. cbn [replaceAllFrom].
    rewrite exec_literalCi. cbn [map]. rewrite H. reflexivity.
  - cbn [map includes] in H. apply orb_false_iff in H. destruct H as [H1 H2].
    rewrite replaceAll_miss.
    + rewrite (IH H2). reflexivity.
    + rewrite exec_literalCi. cbn [map]. rewrite H1. reflexivity.
Qed.

Lemma fold_absent table t :
  forallb (fun e => negb (occursCi (fst e) t)) table = true ->
  fold_left translateEntry table t = t.
Proof.
  induction table as [|[k v] table IH]; intros H; [reflexivity|].
  simpl in H. apply andb_true_iff in H. destruct H as [Hk Ht].
  apply negb_true_iff in Hk. cbn [fold_left translateEntry].
  rewrite (replaceAll_absent _ _ _ Hk). exact (IH Ht).
Qed.

(** X5: a text in which no key of the table of the language occurs, letter
    case apart, is returned by the translation as it is. *)
Theorem translation_passes_unknown_text (t : jsstring) (l : Language) :
  forallb (fun e => negb (occursCi (fst e) t)) (tableOf l) = true ->
  translateHazardInfo t l = t.
Proof.
  intros H. unfold translateHazardInfo, tableOf in *.
  destruct (String.eqb (code l) "english"); [reflexivity|].
  destruct (lookup (code l) translations) as [table|]; [|reflexivity].
  exact (fold_absent _ _ H).
Qed.

Lemma translation_passes_unknown_text_witness :
  translateHazardInfo (js "Gun - 0.88 (near, behind)") hindi
  = js "Gun - 0.88 (near, behind)".
Proof.
  apply (translation_passes_unknown_text (js "Gun - 0.88 (near, behind)") hindi).
  vm_compute. reflexivity.
Defined.

(** ** Entries that are reached *)

Lemma no_table_for_english : lookup "english" translations = None.
Proof. vm_compute. reflexivity. Qed.

Lemma occursCi_same k t t' :
  map upperAscii t' = map upperAscii t -> occursCi k t' = occursCi k t.
Proof. unfold occursCi. intros ->. reflexivity. Qed.

Lemma startsWith_refl s : startsWith s s = true.
Proof. rewrite <- (app_nil_r s) at 2. apply startsWith_app. Qed.

Lemma replaceAll_whole k v t :
  k <> [] -> map upperAscii t = map upperAscii k ->
  replaceAll (literalCi k) (constant v) t = v.
Proof.
  intros Hk E.
  assert (L : length t = length k).
  { apply (f_equal (@length N)) in E. rewrite !length_map in E. exact E. }
  assert (Hn : needsChar (literalCi k) = true)
    by (destruct k; [congruence|reflexivity]).
  rewrite (replaceAll_hit (literalCi k) (constant v) t
             (map (fun c => [c]) (firstn (length k) t)) [] Hn).
  - rewrite (replaceAll_nil _ _ Hn). apply app_nil_r.
  - rewrite exec_literalCi, E, startsWith_refl, <- L, skipn_all. reflexivity.
Qed.

Lemma replaceAll_phrase_whole k f v :
  asciiKey k = true -> phraseShaped v = true ->
  replaceAll (literalCi k) f v = v.
Proof.
  intros Hk Hv. pose proof (inertSafe_key _ Hk) as safe.
  pose proof (replaceAll_phrase _ f safe v [] [] Hv) as E.
  cbn [app] in E. rewrite app_nil_r in E. rewrite E.
  rewrite (replaceAll_nil _ _ (needs _ safe)). apply app_nil_r.
Qed.

Lemma fold_phrase table v :
  forallb (fun e => asciiKey (fst e)) table = true ->
  phraseShaped v = true ->
  fold_left translateEntry table v = v.
Proof.
  intros H Hv. induction table as [|[k w] table IH]; [reflexivity|].
  simpl in H. apply andb_true_iff in H. destruct H as [Hk Ht].
  cbn [fold_left translateEntry].
  rewrite (replaceAll_phrase_whole _ _ _ Hk Hv). exact (IH Ht).
Qed.

(** X6: a key of the table of a language, written in any letter case, is
    translated to its localized phrase when no key that stands before it
    in the table occurs in it. *)
Theorem unshadowed_entry_is_translated (l : Language)
    (earlier later : list (jsstring * jsstring)) (english translated t : jsstring) :
  tableOf l = earlier ++ (english, translated) :: later ->
  forallb (fun e => negb (occursCi (fst e) english)) earlier = true ->
  map upperAscii t = map upperAscii english ->
  translateHazardInfo t l = translated.
Proof.
  intros Ht He Ec. unfold translateHazardInfo, tableOf in *.
  destruct (lookup (code l) translations) as [table|] eqn:E.
  2:{ destruct earlier; discriminate. }
  destruct (String.eqb_spec (code l) "english") as [En|_].
  { rewrite En, no_table_for_english in E. discriminate. }
  pose proof tables_ascii as TA. rewrite forallb_forall in TA.
  specialize (TA _ (lookup_In _ _ _ E)). simpl in TA.
  pose proof tables_phrases as TP. rewrite forallb_forall in TP.
  specialize (TP _ (lookup_In _ _ _ E)). simpl in TP.
  subst table. rewrite forallb_app in TA, TP.
  apply andb_true_iff in TA. destruct TA as [_ TA].
  apply andb_true_iff in TP. destruct TP as [_ TP].
  simpl in TA, TP.
  apply andb_true_iff in TA. destruct TA as [Hk TA].
  apply andb_true_iff in TP. destruct TP as [Hv _].
  rewrite fold_left_app. cbn [fold_left].
  rewrite (fold_absent earlier t).
  - change (translateEntry t (english, translated))
      with (replaceAll (literalCi english) (constant translated) t).
    rewrite replaceAll_whole; [|destruct english; [discriminate|discriminate]|exact Ec].
    apply fold_phrase; assumption.
  - clear - He Ec. induction earlier as [|e earlier IH]; [reflexivity|].
    simpl in *. apply andb_true_iff in He. destruct He as [H1 H2].
    rewrite (occursCi_same _ _ _ Ec), H1. exact (IH H2).
Qed.

Lemma unshadowed_entry_is_translated_witness :
  translateHazardInfo (js "KNIFE") hindi = js "चाकू".
Proof.
  apply (unshadowed_entry_is_translated hindi
           (firstn 11 (tableOf hindi)) (skipn 12 (tableOf hindi))
           (js "Knife") (js "चाकू") (js "KNIFE")).
  - vm_compute. reflexivity.
  - vm_compute. reflexivity.
  - vm_compute. reflexivity.
Defined.

(** ** Reports that begin with the header *)





















(** ** Narrations from start to end *)

Lemma not_In_removeUri u l : ~ In u (removeUri u l).
Proof.
  unfold removeUri. rewrite filter_In. intros [_ H].
  rewrite N.eqb_refl in H. discriminate.
Qed.

(** X8: a narration with rendered audio in which every operation succeeds.
    The sound of [soundRef], if there is one, is unloaded; the temporary
    file is written, played and deleted; after the pause the safety
    statement is spoken, once.  At the end the flags are reset, nothing is
    suspended and the file is gone, while the sound that was played is
    still loaded and still in [soundRef]: it is unloaded by the next
    playback or stop only. *)
Theorem narration_with_rendered_audio (w : World) (c : CaptionData)
    (a : jsstring) :
  wellFormed w ->
  isPlaying (state w) = false ->
  audioMode (state w) = server ->
  currentCaption w = Some c ->
  truthy (audio_base64 c) = Some a ->
  let temp := clock w in
  let safety :=
    EvSpeak (translatedSafetyMessage (hazardInfo (state w)) (currentLanguage w))
            (voice (currentLanguage w)) in
  let done := answers (step w Press) (repeat None (renderedOperations w + 2)) in
  exists s,
    since w done
    = match soundRef w with Some old => [EvUnload old] | None => [] end
      ++ [EvWrite temp; EvPlay s temp; EvDelete temp; safety]
    /\ idle (state done)
    /\ tasks done = tasks w
    /\ ~ In temp (files done)
    /\ soundRef done = Some s
    /\ In s (loaded done).
Proof.
  intros Hw Hp Hm Hc Ha temp safety done.
  open_world w. subst temp safety. name_safety st Hsafe.
  destruct sr as [old|];
    [change (repeat (@None error) (4 + 2))
       with [@None error; None; None; None; None; None] in done
    |change (repeat (@None error) (3 + 2))
       with [@None error; None; None; None; None] in done];
    normalize done ltac:(session Hw Hp Hc Hm Ha);
    eexists; conjuncts; try read.
  - lazy -[In not removeUri]. apply not_In_removeUri.
  - left. reflexivity.
  - lazy -[In not removeUri]. apply not_In_removeUri.
  - left. reflexivity.
Qed.

Lemma narration_with_rendered_audio_witness :
  let temp := clock demoWorld in
  let safety :=
    EvSpeak (translatedSafetyMessage (hazardInfo (state demoWorld))
                                     (currentLanguage demoWorld))
            (voice (currentLanguage demoWorld)) in
  let done :=
    answers (step demoWorld Press)
            (repeat None (renderedOperations demoWorld + 2)) in
  exists s,
    since demoWorld done
    = match soundRef demoWorld with Some old => [EvUnload old] | None => [] end
      ++ [EvWrite temp; EvPlay s temp; EvDelete temp; safety]
    /\ idle (state done)
    /\ tasks done = tasks demoWorld
    /\ ~ In temp (files done)
    /\ soundRef done = Some s
    /\ In s (loaded done).
Proof.
  apply (narration_with_rendered_audio demoWorld demoCaption demoAudio).
  - exact demoWorld_wellFormed.
  - reflexivity.
  - reflexivity.
  - reflexivity.
  - reflexivity.
Defined.

(** X9: a narration without rendered audio (the audio mode is [tts], or the
    caption carries no audio) in which the synthesizer succeeds: the
    description and then the safety statement are spoken in the voice of
    the language; no file is written, no sound is created and [soundRef]
    is not touched; at the end the flags are reset and nothing is
    suspended. *)
Theorem narration_with_synthesis (w : World) (c : CaptionData) :
  wellFormed w ->
  isPlaying (state w) = false ->
  currentCaption w = Some c ->
  audioMode (state w) = tts \/ truthy (audio_base64 c) = None ->
  let v := voice (currentLanguage w) in
  let safety :=
    EvSpeak (translatedSafetyMessage (hazardInfo (state w)) (currentLanguage w))
            v in
  let done := answers (step w Press) [None; None; None] in
  since w done = [EvSpeak (text c) v; safety]
  /\ idle (state done)
  /\ tasks done = tasks w
  /\ files done = files w
  /\ loaded done = loaded w
  /\ soundRef done = soundRef w.
Proof.
  intros Hw Hp Hc Hs v safety done.
  open_world w. subst v safety. name_safety st Hsafe.
  destruct Hs as [Hm|Ha].
  - normalize done ltac:(session Hw Hp Hc Hm Hm). conjuncts; read.
  - destruct (audioMode st) eqn:Hm;
      normalize done ltac:(session Hw Hp Hc Hm Ha); conjuncts; read.
Qed.

Lemma narration_with_synthesis_witness :
  let v := voice (currentLanguage demoTts) in
  let safety :=
    EvSpeak (translatedSafetyMessage (hazardInfo (state demoTts))
                                     (currentLanguage demoTts))
            v in
  let done := answers (step demoTts Press) [None; None; None] in
  since demoTts done = [EvSpeak (text demoCaption) v; safety]
  /\ idle (state done)
  /\ tasks done = tasks demoTts
  /\ files done = files demoTts
  /\ loaded done = loaded demoTts
  /\ soundRef done = soundRef demoTts.
Proof.
  apply (narration_with_synthesis demoTts demoCaption).
  - apply Forall_nil.
  - reflexivity.
  - reflexivity.
  - left. reflexivity.
Defined.

(** X10: without rendered audio, a failure of the synthesizer ends the
    narration with the "Audio Error" alert and the flags reset.  When the
    description fails the safety statement is not spoken; when the safety
    statement fails nothing is tried again. *)
Theorem synthesis_failure_ends_narration (w : World) (c : CaptionData)
    (e : error) :
  wellFormed w ->
  isPlaying (state w) = false ->
  currentCaption w = Some c ->
  audioMode (state w) = tts \/ truthy (audio_base64 c) = None ->
  let v := voice (currentLanguage w) in
  let safety :=
    EvSpeak (translatedSafetyMessage (hazardInfo (state w)) (currentLanguage w))
            v in
  let early := answers (step w Press) [Some e] in
  let late := answers (step w Press) [None; None; Some e] in
  (since w early = [EvSpeak (text c) v; audioErrorAlert]
   /\ idle (state early) /\ tasks early = tasks w)
  /\ (since w late = [EvSpeak (text c) v; safety; audioErrorAlert]
      /\ idle (state late) /\ tasks late = tasks w).
Proof.
  intros Hw Hp Hc Hs v safety early late.
  open_world w. subst v safety. name_safety st Hsafe.
  destruct Hs as [Hm|Ha].
  - normalize early ltac:(session Hw Hp Hc Hm Hm).
    normalize late ltac:(session Hw Hp Hc Hm Hm). conjuncts; read.
  - destruct (audioMode st) eqn:Hm;
      normalize early ltac:(session Hw Hp Hc Hm Ha);
      normalize late ltac:(session Hw Hp Hc Hm Ha); conjuncts; read.
Qed.

Lemma synthesis_failure_ends_narration_witness :
  let v := voice (currentLanguage demoTts) in
  let safety :=
    EvSpeak (translatedSafetyMessage (hazardInfo (state demoTts))
                                     (currentLanguage demoTts))
            v in
  let early := answers (step demoTts Press) [Some "synthesis"%string] in
  let late :=
    answers (step demoTts Press) [None; None; Some "synthesis"%string] in
  (since demoTts early = [EvSpeak (text demoCaption) v; audioErrorAlert]
   /\ idle (state early) /\ tasks early = tasks demoTts)
  /\ (since demoTts late
      = [EvSpeak (text demoCaption) v; safety; audioErrorAlert]
      /\ idle (state late) /\ tasks late = tasks demoTts).
Proof.
  apply (synthesis_failure_ends_narration demoTts demoCaption
           "synthesis"%string).
  - apply Forall_nil.
  - reflexivity.
  - reflexivity.
  - left. reflexivity.
Defined.

(** X11: the unloading of the current sound is awaited outside any [try].
    When it fails, the stop (the speak button while [isPlaying]) and the
    change of language end there: [Speech.stop()] is not called, the flags
    and the language stay as they are and [soundRef] keeps the sound. *)
Theorem failed_unload_skips_the_stop (w : World) (s : sound) (e : error) :
  wellFormed w ->
  soundRef w = Some s ->
  (isPlaying (state w) = true ->
   let w' := answer (step w Press) (Some e) in
   state w' = state w /\ soundRef w' = Some s /\ speaking w' = speaking w
   /\ tasks w' = tasks w /\ since w w' = [EvUnload s])
  /\ (let w' := answer (step w Swipe) (Some e) in
      state w' = state w /\ soundRef w' = Some s /\ speaking w' = speaking w
      /\ tasks w' = tasks w /\ since w w' = [EvUnload s]).
Proof.
  intros Hw Hs. split.
  - intros Hp w'. open_world w. subst sr.
    normalize w' ltac:(etransitivity;
      [apply answer_from; press Hp Hp Hp Hp|settle_last Hw]).
    conjuncts; read.
  - intros w'. open_world w. subst sr.
    normalize w' ltac:(etransitivity;
      [apply answer_from; unfold step, changeLanguage; exec; reflexivity
      |settle_last Hw]).
    conjuncts; read.
Qed.

Lemma failed_unload_skips_the_stop_witness :
  (isPlaying (state demoPlaying) = true ->
   let w' := answer (step demoPlaying Press) (Some "unload"%string) in
   state w' = state demoPlaying /\ soundRef w' = Some 2
   /\ speaking w' = speaking demoPlaying
   /\ tasks w' = tasks demoPlaying /\ since demoPlaying w' = [EvUnload 2])
  /\ (let w' := answer (step demoPlaying Swipe) (Some "unload"%string) in
      state w' = state demoPlaying /\ soundRef w' = Some 2
      /\ speaking w' = speaking demoPlaying
      /\ tasks w' = tasks demoPlaying /\ since demoPlaying w' = [EvUnload 2]).
Proof.
  apply (failed_unload_skips_the_stop demoPlaying 2 "unload"%string).
  - unfold wellFormed. vm_compute. repeat constructor.
  - vm_compute. reflexivity.
Defined.

(** X12: [changeLanguage], run to its end, stops the audio as the stop does:
    the sound of [soundRef] is unloaded, [Speech.stop()] is called and the
    flags are reset; the captions, the hazard report, the audio mode and
    the files stay, and no call is suspended or resumed. *)
Theorem swipe_stops_the_audio (w : World) :
  wellFormed w ->
  let w' := swipe w in
  idle (state w')
  /\ soundRef w' = None
  /\ speaking w' = []
  /\ (forall s, soundRef w = Some s -> ~ In s (loaded w'))
  /\ captions (state w') = captions (state w)
  /\ hazardInfo (state w') = hazardInfo (state w)
  /\ audioMode (state w') = audioMode (state w)
  /\ files w' = files w
  /\ tasks w' = tasks w
  /\ since w w'
     = match soundRef w with Some s => [EvUnload s] | None => [] end
       ++ [EvSpeechStop].
Proof.
  intros Hw w'. open_world w. destruct sr as [s|].
  - normalize w' ltac:(etransitivity;
      [apply answer_from; unfold step, changeLanguage; exec; reflexivity
      |settle_last Hw]).
    conjuncts; try read.
    intros s' [= <-]. lazy -[In not removeNat]. apply not_In_removeNat.
  - normalize w' ltac:(unfold step, changeLanguage; exec; reflexivity).
    conjuncts; try read.
    intros s' [=].
Qed.

Lemma swipe_stops_the_audio_witness :
  let w' := swipe demoPlaying in
  idle (state w')
  /\ soundRef w' = None
  /\ speaking w' = []
  /\ (forall s, soundRef demoPlaying = Some s -> ~ In s (loaded w'))
  /\ captions (state w') = captions (state demoPlaying)
  /\ hazardInfo (state w') = hazardInfo (state demoPlaying)
  /\ audioMode (state w') = audioMode (state demoPlaying)
  /\ files w' = files demoPlaying
  /\ tasks w' = tasks demoPlaying
  /\ since demoPlaying w'
     = match soundRef demoPlaying with Some s => [EvUnload s] | None => [] end
       ++ [EvSpeechStop].
Proof.
  apply (swipe_stops_the_audio demoPlaying).
  unfold wellFormed. vm_compute. repeat constructor.
Defined.

(** ** Functions that leave the audio mode alone *)


Lemma quiet_bind {A B : Type} (p : prog A) (f : A -> prog B) :
  quiet p -> (forall a, quiet (f a)) -> quiet (bind p f).
Proof.
  intros Hp Hf. induction p as [r|e|X c k IH|X o k IH]; simpl in *.
  - apply Hf.
  - exact I.
  - destruct Hp as [Hc Hk]. split; [exact Hc|]. intros x. apply IH, Hk.
  - intros x. apply IH, Hp.
Qed.

Lemma quiet_tryCatch {A : Type} (p : prog A) (h : error -> prog A) :
  quiet p -> (forall e, quiet (h e)) -> quiet (tryCatch p h).
Proof.
  intros Hp Hh. induction p as [r|e|X c k IH|X o k IH]; simpl in *.
  - exact I.
  - apply Hh.
  - destruct Hp as [Hc Hk]. split; [exact Hc|]. intros x. apply IH, Hk.
  - intros x. apply IH, Hp.
Qed.

Lemma quiet_tryFinally {A : Type} (p : prog A) (f : prog unit) :
  quiet p -> quiet f -> quiet (tryFinally p f).
Proof.
  intros Hp Hf. induction p as [r|e|X c k IH|X o k IH]; simpl in *.
  - apply quiet_bind; [exact Hf|intros; exact I].
  - apply quiet_bind; [exact Hf|intros; exact I].
  - destruct Hp as [Hc Hk]. split; [exact Hc|]. intros x. apply IH, Hk.
  - intros x. apply IH, Hp.
Qed.

Lemma quiet_call {X : Type} (c : cmd X) : keepsMode c -> quiet (call c).
Proof. intros H. split; [exact H|intros; exact I]. Qed.

Lemma quiet_await {X : Type} (o : op X) : quiet (await o).
Proof. intros [x|e]; exact I. Qed.

Ltac quiet_tac :=
  repeat first
    [ exact I
    | apply quiet_await
    | apply quiet_call; exact I
    | apply quiet_tryFinally
    | apply quiet_tryCatch
    | apply quiet_bind
    | intros ?
    | match goal with
      | |- quiet (match ?x with _ => _ end) => destruct x
      end ].

Lemma quiet_stopCurrentAudio : quiet stopCurrentAudio.
Proof. unfold stopCurrentAudio. quiet_tac. Qed.

Lemma quiet_playServerAudio a : quiet (playServerAudio a).
Proof. unfold playServerAudio. quiet_tac. Qed.

Lemma quiet_speakCurrentDescription r : quiet (speakCurrentDescription r).
Proof.
  unfold speakCurrentDescription.
  destruct (isPlaying r); [apply quiet_stopCurrentAudio|].
  destruct (lookup _ (captions r)) as [c|]; [|apply quiet_call; exact I].
  apply quiet_tryFinally; [|quiet_tac].
  apply quiet_tryCatch; [|quiet_tac].
  do 2 (apply quiet_bind; [apply quiet_call; exact I|intros _]).
  apply quiet_bind.
  { destruct (audioMode r), (truthy (audio_base64 c));
      try apply quiet_await.
    apply quiet_tryCatch; [apply quiet_playServerAudio|].
    intros e. apply quiet_await. }
  intros _. quiet_tac.
Qed.

Lemma quiet_changeLanguage : quiet changeLanguage.
Proof.
  unfold changeLanguage. apply quiet_bind; [apply quiet_stopCurrentAudio|].
  intros _. apply quiet_call. exact I.
Qed.

(** ** The mode switch and a narration under way *)

Lemma perform_toggled {X : Type} (c : cmd X) w :
  keepsMode c ->
  perform c (toggled w) = (fst (perform c w), toggled (snd (perform c w))).
Proof. destruct c; simpl; intros H; try reflexivity. destruct H. Qed.

Lemma issue_toggled {X : Type} (o : op X) h w :
  issue o h (toggled w) = toggled (issue o h w).
Proof. destruct o; reflexivity. Qed.

Lemma run_toggled (p : prog unit) : forall w,
  quiet p -> run p (toggled w) = toggled (run p w).
Proof.
  induction p as [r|e|X c k IH|X o k IH]; intros w Hq; simpl in *.
  - reflexivity.
  - reflexivity.
  - destruct Hq as [Hc Hk]. rewrite (perform_toggled c w Hc).
    destruct (perform c w) as [x w']. simpl. apply IH, Hk.
  - change (withFresh (S (fresh w)) (toggled w))
      with (toggled (withFresh (S (fresh w)) w)).
    rewrite issue_toggled. reflexivity.
Qed.

Lemma run_quiet (p : prog unit) : forall w,
  quiet p -> allQuiet w -> allQuiet (run p w).
Proof.
  induction p as [r|e|X c k IH|X o k IH]; intros w Hq Hw; simpl in *.
  - exact Hw.
  - exact Hw.
  - destruct Hq as [Hc Hk].
    assert (Hw' : allQuiet (snd (perform c w)))
      by (destruct c; exact Hw).
    destruct (perform c w) as [x w']. apply IH; [apply Hk|exact Hw'].
  - unfold allQuiet. simpl. apply Forall_app. split.
    + destruct o; exact Hw.
    + apply Forall_cons; [exact Hq|apply Forall_nil].
Qed.

Lemma outcomeOf_toggled {X : Type} (o : op X) h outcome w :
  outcomeOf o h outcome (toggled w) = liftToggled (outcomeOf o h outcome w).
Proof.
  destruct o, outcome; simpl; try reflexivity;
    match goal with |- context [memNat ?a ?b] => destruct (memNat a b) end;
    reflexivity.
Qed.

Lemma findTask_quiet h ts t :
  Forall quietTask ts -> findTask h ts = Some t -> quietTask t.
Proof.
  induction 1 as [|t' ts Ht _ IH]; simpl; [discriminate|].
  destruct (Nat.eqb (taskHandle t') h); [intros [= <-]; exact Ht|exact IH].
Qed.

Lemma dropTask_quiet h ts : Forall quietTask ts -> Forall quietTask (dropTask h ts).
Proof.
  intros H. unfold dropTask. apply Forall_forall. intros t Ht.
  apply filter_In in Ht. rewrite Forall_forall in H. apply H, Ht.
Qed.

Lemma settle_outcomeOf h outcome w :
  settle h outcome w =
  match findTask h (tasks w) with
  | None => w
  | Some (Task _ o k) =>
    match outcomeOf o h outcome w with
    | None => w
    | Some (r, w') => run (k r) (withTasks (dropTask h (tasks w')) w')
    end
  end.
Proof. unfold settle, outcomeOf. destruct outcome; reflexivity. Qed.

Lemma outcomeOf_tasks {X : Type} (o : op X) h outcome w r w' :
  outcomeOf o h outcome w = Some (r, w') -> tasks w' = tasks w.
Proof.
  destruct outcome; simpl; [apply reject_tasks|apply resolve_tasks].
Qed.

Lemma settle_toggled h outcome w :
  allQuiet w ->
  settle h outcome (toggled w) = toggled (settle h outcome w)
  /\ allQuiet (settle h outcome w).
Proof.
  intros Hw. rewrite !settle_outcomeOf.
  change (tasks (toggled w)) with (tasks w).
  destruct (findTask h (tasks w)) as [[h' X o k]|] eqn:F;
    [|split; [reflexivity|exact Hw]].
  pose proof (findTask_quiet _ _ _ Hw F) as Hk. simpl in Hk.
  rewrite outcomeOf_toggled.
  destruct (outcomeOf o h outcome w) as [[r w']|] eqn:E;
    [|split; [reflexivity|exact Hw]].
  simpl liftToggled. cbv iota beta.
  pose proof (outcomeOf_tasks _ _ _ _ _ _ E) as Et.
  change (tasks (toggled w')) with (tasks w').
  change (withTasks (dropTask h (tasks w')) (toggled w'))
    with (toggled (withTasks (dropTask h (tasks w')) w')).
  split.
  - apply run_toggled, Hk.
  - apply run_quiet; [apply Hk|].
    unfold allQuiet. simpl. rewrite Et. apply dropTask_quiet, Hw.
Qed.

Lemma answer_toggled outcome w :
  allQuiet w ->
  answer (toggled w) outcome = toggled (answer w outcome)
  /\ allQuiet (answer w outcome).
Proof.
  intros Hw. unfold answer.
  change (pending (toggled w)) with (pending w).
  destruct (pending w); [apply settle_toggled, Hw|split; [reflexivity|exact Hw]].
Qed.

Lemma answers_toggled outcomes : forall w,
  allQuiet w ->
  answers (toggled w) outcomes = toggled (answers w outcomes).
Proof.
  induction outcomes as [|o os IH]; intros w Hw; [reflexivity|].
  destruct (answer_toggled o w Hw) as [E Hq].
  unfold answers in *. simpl. rewrite E. apply IH, Hq.
Qed.

Lemma step_ToggleMode w : step w ToggleMode = toggled w.
Proof. reflexivity. Qed.

Lemma answers_quiet outcomes : forall w,
  allQuiet w -> allQuiet (answers w outcomes).
Proof.
  induction outcomes as [|o os IH]; intros w Hw; [exact Hw|].
  unfold answers in *. simpl. apply IH. exact (proj2 (answer_toggled o w Hw)).
Qed.

Lemma settle_quiet h outcome w : allQuiet w -> allQuiet (settle h outcome w).
Proof. intros Hw. exact (proj2 (settle_toggled h outcome w Hw)). Qed.

Lemma step_quiet w i : allQuiet w -> allQuiet (step w i).
Proof.
  intros Hw. destruct i; unfold step.
  - apply run_quiet; [apply quiet_speakCurrentDescription|exact Hw].
  - apply run_quiet; [apply quiet_changeLanguage|exact Hw].
  - exact Hw.
  - exact Hw.
  - apply settle_quiet, Hw.
  - apply settle_quiet, Hw.
Qed.

Lemma steps_quiet inputs : forall w, allQuiet w -> allQuiet (steps w inputs).
Proof.
  induction inputs as [|i inputs IH]; intros w Hw; [exact Hw|].
  unfold steps in *. simpl. apply IH, step_quiet, Hw.
Qed.

(** X14: the audio mode button does not disturb a narration under way.
    In a world reached from one without suspended calls, by any commands
    and outcomes, let a narration start; the button pressed at any moment
    of it leaves what the narration does as it is, whatever the outcomes
    of its operations: the world is the one in which the button is pressed
    after the narration.  Pressed twice, the button changes nothing. *)
Theorem mode_switch_leaves_the_narration (w0 : World) (inputs : list input)
    (before after : list (option error)) :
  tasks w0 = [] ->
  let w := steps w0 inputs in
  answers (step (answers (step w Press) before) ToggleMode) after
  = step (answers (step w Press) (before ++ after)) ToggleMode
  /\ step (step w ToggleMode) ToggleMode = w.
Proof.
  intros H0 w.
  assert (Hw : allQuiet w).
  { apply steps_quiet. unfold allQuiet. rewrite H0. apply Forall_nil. }
  split.
  - rewrite !step_ToggleMode. unfold answers at 3. rewrite fold_left_app.
    apply answers_toggled. apply answers_quiet.
    unfold step. apply run_quiet; [apply quiet_speakCurrentDescription|exact Hw].
  - destruct w as [[i p c h m d z] sr ck fl ld sp fr ts lg].
    destruct m; reflexivity.
Qed.

Lemma mode_switch_leaves_the_narration_witness :
  let w := steps demoWorld [Press; Press; Swipe] in
  answers (step (answers (step w Press) [None; None]) ToggleMode)
          [None; None; None]
  = step (answers (step w Press) ([None; None] ++ [None; None; None]))
         ToggleMode
  /\ step (step w ToggleMode) ToggleMode = w.
Proof.
  apply (mode_switch_leaves_the_narration demoWorld [Press; Press; Swipe]
           [None; None] [None; None; None]).
  reflexivity.
Defined.

(** ** Gestures *)

Section Gestures.

Import QArith_base Qabs Lqa.
Local Open Scope Q_scope.

Lemma greater_spec x y : greater x y = true <-> y < x.
Proof.
  unfold greater. rewrite negb_true_iff. split.
  - intros H. apply Qnot_le_lt. intros L. apply Qle_bool_iff in L. congruence.
  - intros H. destruct (Qle_bool x y) eqn:E; [|reflexivity].
    apply Qle_bool_iff in E. lra.
Qed.

Lemma greater_false x y : greater x y = false <-> x <= y.
Proof.
  unfold greater. rewrite negb_false_iff. apply Qle_bool_iff.
Qed.

Lemma greater_abs_opp x y : greater (Qabs (- x)) y = greater (Qabs x) y.
Proof.
  destruct (greater (Qabs x) y) eqn:E.
  - apply greater_spec in E. apply greater_spec. rewrite Qabs_opp. exact E.
  - apply greater_false in E. apply greater_false. rewrite Qabs_opp. exact E.
Qed.

Lemma abs_opp_greater x y : greater (Qabs (- x)) (Qabs y) = greater (Qabs x) (Qabs y).
Proof. apply greater_abs_opp. Qed.

Ltac booleans :=
  repeat match goal with
  | H : _ || _ = true |- _ => apply orb_true_iff in H; destruct H as [H|H]
  | H : _ || _ = false |- _ => apply orb_false_iff in H; destruct H as [? H]
  | H : greater _ _ = true |- _ => apply greater_spec in H
  | H : greater _ _ = false |- _ => apply greater_false in H
  end.

Ltac absolute :=
  repeat match goal with
  | H : context [Qabs ?x] |- _ =>
    let a := fresh "a" in let Ha := fresh "Ha" in
    assert (Ha : (0 <= x /\ Qabs x == x) \/ (x <= 0 /\ Qabs x == - x))
      by (destruct (Qlt_le_dec x 0);
          [right; split; [lra|apply Qabs_neg; lra]
          |left; split; [lra|apply Qabs_pos; lra]]);
    generalize dependent (Qabs x); intros a; intros
  | |- context [Qabs ?x] =>
    let a := fresh "a" in let Ha := fresh "Ha" in
    assert (Ha : (0 <= x /\ Qabs x == x) \/ (x <= 0 /\ Qabs x == - x))
      by (destruct (Qlt_le_dec x 0);
          [right; split; [lra|apply Qabs_neg; lra]
          |left; split; [lra|apply Qabs_pos; lra]]);
    generalize dependent (Qabs x); intros a; intros
  end.

(** X17: a gesture that makes [onPanResponderRelease] call something has
    moved more than 50 on one axis, so [onMoveShouldSetPanResponder],
    which asks for more than 20, has claimed it. *)
Theorem acting_gesture_was_claimed (dx dy : number) :
  onPanResponderRelease dx dy <> None ->
  onMoveShouldSetPanResponder dx dy = true.
Proof.
  unfold onPanResponderRelease, onMoveShouldSetPanResponder, minSwipeDistance.
  destruct (greater (Qabs dx) (inject_Z 50) || greater (Qabs dy) (inject_Z 50))
    eqn:E;
    [|congruence].
  intros _. apply orb_true_iff.
  apply orb_true_iff in E. destruct E as [E|E]; apply greater_spec in E;
    [left|right]; apply greater_spec; unfold inject_Z in *; lra.
Qed.

Lemma acting_gesture_was_claimed_witness :
  onMoveShouldSetPanResponder (inject_Z 60) (inject_Z 0) = true.
Proof.
  apply (acting_gesture_was_claimed (inject_Z 60) (inject_Z 0)).
  vm_compute. discriminate.
Defined.

Ltac finish :=
  first [ discriminate | reflexivity | exfalso; lra | split; lra ].

(** the distances as numbers with their absolute values, and the three
    tests of the handler as propositions *)
Ltac cases dx dy :=
  unfold onPanResponderRelease, minSwipeDistance;
  pose proof (Qabs_nonneg dx) as HA;
  assert (HB : (0 <= dy /\ Qabs dy == dy) \/ (dy <= 0 /\ Qabs dy == - dy))
    by (destruct (Qlt_le_dec dy 0);
        [right; split; [lra|apply Qabs_neg; lra]
        |left; split; [lra|apply Qabs_pos; lra]]);
  revert HA HB; generalize (Qabs dx) (Qabs dy); intros A B HA HB;
  unfold inject_Z;
  destruct (greater A 50 || greater B 50) eqn:E1;
  destruct (greater A B) eqn:E2;
  destruct (greater 0 dy) eqn:E3;
  booleans; destruct HB as [[HB1 HB2]|[HB1 HB2]].

(** X16: what the release of a gesture calls.  [changeLanguage] for a
    gesture longer than 50 along [dx] and more horizontal than vertical,
    to the left or to the right alike; [returnToCamera] for an upward
    gesture longer than 50 that is at least as vertical as horizontal;
    nothing otherwise, so never [returnToCamera] for a downward gesture. *)
Theorem swipe_classification (dx dy : number) :
  (onPanResponderRelease dx dy = Some CallChangeLanguage
   <-> inject_Z 50 < Qabs dx /\ Qabs dy < Qabs dx)
  /\ (onPanResponderRelease dx dy = Some CallReturnToCamera
      <-> dy < - inject_Z 50 /\ Qabs dx <= - dy)
  /\ onPanResponderRelease (- dx) dy = onPanResponderRelease dx dy.
Proof.
  split; [|split].
  - cases dx dy; (split; [intros G|intros [G1 G2]]); finish.
  - cases dx dy; (split; [intros G|intros [G1 G2]]); finish.
  - unfold onPanResponderRelease. rewrite !greater_abs_opp. reflexivity.
Qed.

End Gestures.

(** ** The calls of the screens, settled *)

Lemma findCall_last cs h (X : Type) (o : appOp X) k :
  Forall (fun t => appTaskHandle t < h) cs ->
  findCall h (cs ++ [AppTask h o k]) = Some (AppTask h o k).
Proof.
  induction 1 as [|t cs Ht _ IH]; simpl.
  - rewrite Nat.eqb_refl. reflexivity.
  - destruct (Nat.eqb_spec (appTaskHandle t) h); [lia|]. exact IH.
Qed.

Lemma dropCall_last cs h (X : Type) (o : appOp X) k :
  Forall (fun t => appTaskHandle t < h) cs ->
  dropCall h (cs ++ [AppTask h o k]) = cs.
Proof.
  induction 1 as [|t cs Ht _ IH]; simpl.
  - rewrite Nat.eqb_refl. reflexivity.
  - destruct (Nat.eqb_spec (appTaskHandle t) h); [lia|]. simpl. f_equal. exact IH.
Qed.

Lemma appAnswer_last a cs h (X : Type) (o : appOp X) k r :
  calls a = cs ++ [AppTask h o k] ->
  Forall (fun t => appTaskHandle t < h) cs ->
  appAnswer a r =
  match appOutcome o h r (world a) with
  | Some (x, w') => appRun (k x) (withCalls cs (withWorld w' a))
  | None => a
  end.
Proof.
  intros Hc Hlt. unfold appAnswer, appPending.
  rewrite Hc, rev_app_distr. simpl. unfold appSettle.
  rewrite Hc, (findCall_last _ _ _ _ _ Hlt), (dropCall_last _ _ _ _ _ Hlt).
  reflexivity.
Qed.

Lemma appWellFormed_le a h :
  appWellFormed a -> fresh (world a) <= h ->
  Forall (fun t => appTaskHandle t < h) (calls a).
Proof.
  unfold appWellFormed. intros H Hle.
  eapply Forall_impl; [|exact H]. simpl. intros; lia.
Qed.

Lemma appAnswers_step a r rs a' :
  appAnswer a r = a' -> appAnswers a (r :: rs) = appAnswers a' rs.
Proof. intros <-. reflexivity. Qed.

Lemma appAnswers_nil a : appAnswers a [] = a.
Proof. reflexivity. Qed.

Lemma appAnswers_from a a' rs : a = a' -> appAnswers a rs = appAnswers a' rs.
Proof. intros <-. reflexivity. Qed.

Lemma appAnswer_from a a' r : a = a' -> appAnswer a r = appAnswer a' r.
Proof. intros <-. reflexivity. Qed.

Ltac app_exec :=
  lazy -[appAnswers appAnswer languageAt safetyMessage translateHazardInfo
         removeNat memNat removeUri stripDataUrlPrefix app since speeches
         processCaptions receivedHazardInfo httpError captureErrorAlert
         audioErrorAlert noDescriptionAlert In not lt outcomeOf].

Ltac app_handles H :=
  repeat first
    [ apply Forall_nil
    | apply (appWellFormed_le _ _ H); lazy;
      repeat first [apply le_n | apply le_S]
    | apply Forall_app; split
    | apply Forall_cons;
      [lazy; repeat first [apply le_n | apply le_S]|] ].

Lemma appAnswer_audio a cs h (X : Type) (o : op X) k outcome :
  calls a = cs ++ [AppTask h (Audio o) k] ->
  Forall (fun t => appTaskHandle t < h) cs ->
  enabled o h (world a) ->
  appAnswer a (Settled outcome) =
  match effect o h outcome (world a) with
  | Some (x, w') => appRun (k x) (withCalls cs (withWorld w' a))
  | None => a
  end.
Proof.
  intros Hc Hlt He. rewrite (appAnswer_last _ _ _ _ _ _ _ Hc Hlt).
  simpl appOutcome. rewrite (outcomeOf_enabled _ _ _ _ _ He). reflexivity.
Qed.

(** a goal [appAnswer a r = ?a'] *)
Ltac app_settle_last H :=
  etransitivity;
  [ first
      [ eapply appAnswer_audio;
        [ reflexivity
        | app_handles H
        | lazy; first [exact I | left; reflexivity] ]
      | eapply appAnswer_last; [ reflexivity | app_handles H ] ]
  | app_exec; reflexivity ].

Ltac app_drive H :=
  repeat (etransitivity; [apply appAnswers_step; app_settle_last H|]);
  apply appAnswers_nil.

Ltac app_normalize x tac :=
  let E := fresh "E" in
  let R := fresh "R" in
  evar (R : App);
  assert (E : x = R) by (subst x R; tac);
  clearbody x; subst x; subst R.

Ltac open_app a :=
  destruct a as [[st sr ck fl ld sp fr ts lg] scr img ldg hpa cam cid cs];
  cbv beta iota delta
    [world currentScreen capturedImage isLoading hasPlayedAudio cameraRef
     captionsObject calls state soundRef log tasks files loaded speaking fresh clock] in *.

(** X21: a touch of the camera screen while an analysis is under way, or
    before the camera is there, does nothing. *)
Theorem touch_while_loading (a : App) :
  currentScreen a = cameraScreen ->
  isLoading a = true \/ cameraRef a = false ->
  appStep a TouchCamera = a.
Proof.
  intros Hs H. open_app a. subst scr.
  destruct H as [H|H]; subst; [reflexivity|].
  destruct ldg; reflexivity.
Qed.

Lemma touch_while_loading_witness :
  appStep demoLoadingApp TouchCamera = demoLoadingApp.
Proof.
  apply (touch_while_loading demoLoadingApp).
  - reflexivity.
  - left. reflexivity.
Defined.

(** X22: an analysis that succeeds.  The touch sets [isLoading]; when the
    photo is taken, the server has answered [ok] and the body is read, the
    result screen is shown with the photo, [isLoading] is false again, the
    captions are those made of [image_caption] (those of before when the
    body has none), the hazard report is set, and no alert is shown. *)
Theorem analysis_received (a : App) (photo : jsstring) (response : Response)
    (result : AnalysisResult) :
  appWellFormed a ->
  currentScreen a = cameraScreen ->
  isLoading a = false ->
  cameraRef a = true ->
  ok response = true ->
  let loading := appStep a TouchCamera in
  let done :=
    appAnswers loading
      [Photo photo; Responded response; Parsed (Some result)] in
  (isLoading loading = true /\ currentScreen loading = cameraScreen)
  /\ currentScreen done = resultScreen
  /\ isLoading done = false
  /\ capturedImage done = Some photo
  /\ hasPlayedAudio done = false
  /\ captions (state (world done))
     = match image_caption result with
       | Some entries => processCaptions entries
       | None => captions (state (world a))
       end
  /\ hazardInfo (state (world done)) = Some (receivedHazardInfo result)
  /\ calls done = calls a
  /\ log (world done) = log (world a).
Proof.
  intros Hw Hs Hl Hc Hok loading done. open_app a. subst scr ldg cam.
  destruct response as [okr str]. simpl in Hok. subst okr.
  app_normalize loading ltac:(app_exec; reflexivity).
  destruct result as [[entries|] hz];
    app_normalize done ltac:(app_drive Hw);
    repeat split.
Qed.

Lemma analysis_received_witness :
  let loading := appStep demoCameraApp TouchCamera in
  let done :=
    appAnswers loading
      [Photo demoPhoto; Responded demoResponse; Parsed (Some demoAnalysis)] in
  (isLoading loading = true /\ currentScreen loading = cameraScreen)
  /\ currentScreen done = resultScreen
  /\ isLoading done = false
  /\ capturedImage done = Some demoPhoto
  /\ hasPlayedAudio done = false
  /\ captions (state (world done))
     = match image_caption demoAnalysis with
       | Some entries => processCaptions entries
       | None => captions (state (world demoCameraApp))
       end
  /\ hazardInfo (state (world done)) = Some (receivedHazardInfo demoAnalysis)
  /\ calls done = calls demoCameraApp
  /\ log (world done) = log (world demoCameraApp).
Proof.
  apply (analysis_received demoCameraApp demoPhoto demoResponse demoAnalysis).
  - apply Forall_nil.
  - reflexivity.
  - reflexivity.
  - reflexivity.
  - reflexivity.
Defined.

(** X23: an analysis that fails, at the camera, on the network, by a
    response that is not [ok], by a body that is not JSON or by the body
    [null].  The "Error" alert is shown, once; [isLoading] is false again;
    the camera screen stays, with the captions, the hazard report and the
    flags as they were.  The photo, once taken, stays in
    [capturedImage]. *)
Theorem analysis_failed (a : App) (photo : jsstring) (good bad : Response)
    (e : error) (replies : list reply) :
  appWellFormed a ->
  currentScreen a = cameraScreen ->
  isLoading a = false ->
  cameraRef a = true ->
  ok good = true ->
  ok bad = false ->
  In replies (captureFailures photo good bad e) ->
  let failed := appAnswers (appStep a TouchCamera) replies in
  since (world a) (world failed) = [captureErrorAlert]
  /\ isLoading failed = false
  /\ currentScreen failed = cameraScreen
  /\ state (world failed) = state (world a)
  /\ hasPlayedAudio failed = hasPlayedAudio a
  /\ calls failed = calls a
  /\ capturedImage failed
     = match replies with
       | Photo _ :: _ => Some photo
       | _ => capturedImage a
       end.
Proof.
  intros Hw Hs Hl Hc Hg Hb Hin failed. open_app a. subst scr ldg cam.
  destruct good as [okg stg]. destruct bad as [okb stb].
  simpl in Hg, Hb. subst okg okb.
  unfold captureFailures in Hin. simpl in Hin.
  destruct Hin as [<-|[<-|[<-|[<-|[<-|[]]]]]];
    app_normalize failed ltac:(etransitivity;
      [apply appAnswers_from; app_exec; reflexivity|app_drive Hw]);
    conjuncts; try read; reflexivity.
Qed.

Lemma analysis_failed_witness :
  let failed :=
    appAnswers (appStep demoCameraApp TouchCamera)
               [Photo demoPhoto; Responded demoRefusal] in
  since (world demoCameraApp) (world failed) = [captureErrorAlert]
  /\ isLoading failed = false
  /\ currentScreen failed = cameraScreen
  /\ state (world failed) = state (world demoCameraApp)
  /\ hasPlayedAudio failed = hasPlayedAudio demoCameraApp
  /\ calls failed = calls demoCameraApp
  /\ capturedImage failed
     = match [Photo demoPhoto; Responded demoRefusal] with
       | Photo _ :: _ => Some demoPhoto
       | _ => capturedImage demoCameraApp
       end.
Proof.
  apply (analysis_failed demoCameraApp demoPhoto demoResponse demoRefusal
           "network"%string [Photo demoPhoto; Responded demoRefusal]).
  - apply Forall_nil.
  - reflexivity.
  - reflexivity.
  - reflexivity.
  - reflexivity.
  - reflexivity.
  - right. right. left. reflexivity.
Defined.

(** a goal [appStep a PressSpeak = ?a'] of an open application *)
Ltac app_press Hp Hc Hm Ha :=
  unfold appStep, speakCurrentDescription;
  cbv beta iota delta [currentScreen world state];
  rewrite ?Hp, ?Hc, ?Hm, ?Ha;
  repeat match goal with
         | H : safetyMessage _ = _ :: _ |- _ => rewrite H
         end;
  app_exec; reflexivity.

(** a goal [appStep a (ReleaseGesture dx dy) = ?a'] *)
Ltac app_release Hr :=
  unfold appStep; cbv beta iota delta [currentScreen];
  rewrite Hr; app_exec; reflexivity.

(** X24: an upward gesture on the result screen, [returnToCamera] run to its
    end: the camera screen is shown, the photo, the captions and the
    hazard report are gone, the audio is stopped as by a stop, and the
    language and the audio mode stay.  When the unloading of the current
    sound fails, nothing of this happens: the result screen stays as it
    is. *)
Theorem swipe_up_returns_to_camera (a : App) (dx dy : number) :
  appWellFormed a ->
  currentScreen a = resultScreen ->
  onPanResponderRelease dx dy = Some CallReturnToCamera ->
  let released := appStep a (ReleaseGesture dx dy) in
  let back :=
    match soundRef (world a) with
    | Some _ => appAnswer released (Settled None)
    | None => released
    end in
  (currentScreen back = cameraScreen
   /\ capturedImage back = None
   /\ captions (state (world back)) = []
   /\ hazardInfo (state (world back)) = None
   /\ hasPlayedAudio back = false)
  /\ (idle (state (world back))
      /\ soundRef (world back) = None
      /\ speaking (world back) = []
      /\ since (world a) (world back)
         = match soundRef (world a) with
           | Some s => [EvUnload s]
           | None => []
           end ++ [EvSpeechStop])
  /\ (currentLanguageIndex (state (world back))
      = currentLanguageIndex (state (world a))
      /\ audioMode (state (world back)) = audioMode (state (world a))
      /\ calls back = calls a)
  /\ forall e,
       soundRef (world a) <> None ->
       let stuck := appAnswer released (Settled (Some e)) in
       currentScreen stuck = resultScreen
       /\ state (world stuck) = state (world a)
       /\ capturedImage stuck = capturedImage a
       /\ calls stuck = calls a.
Proof.
  intros Hw Hs Hr released back. open_app a. subst scr.
  app_normalize released ltac:(app_release Hr).
  destruct sr as [s|].
  - cbv beta iota in back.
    app_normalize back ltac:(app_settle_last Hw).
    conjuncts; try read.
    intros e _ stuck. app_normalize stuck ltac:(app_settle_last Hw).
    repeat split.
  - cbv beta iota in back. subst back.
    conjuncts; try read. intros e H. congruence.
Qed.

Lemma swipe_up_returns_to_camera_witness :
  let released :=
    appStep demoResultApp (ReleaseGesture (fst demoUp) (snd demoUp)) in
  let back :=
    match soundRef (world demoResultApp) with
    | Some _ => appAnswer released (Settled None)
    | None => released
    end in
  (currentScreen back = cameraScreen
   /\ capturedImage back = None
   /\ captions (state (world back)) = []
   /\ hazardInfo (state (world back)) = None
   /\ hasPlayedAudio back = false)
  /\ (idle (state (world back))
      /\ soundRef (world back) = None
      /\ speaking (world back) = []
      /\ since (world demoResultApp) (world back)
         = match soundRef (world demoResultApp) with
           | Some s => [EvUnload s]
           | None => []
           end ++ [EvSpeechStop])
  /\ (currentLanguageIndex (state (world back))
      = currentLanguageIndex (state (world demoResultApp))
      /\ audioMode (state (world back))
         = audioMode (state (world demoResultApp))
      /\ calls back = calls demoResultApp)
  /\ forall e,
       soundRef (world demoResultApp) <> None ->
       let stuck := appAnswer released (Settled (Some e)) in
       currentScreen stuck = resultScreen
       /\ state (world stuck) = state (world demoResultApp)
       /\ capturedImage stuck = capturedImage demoResultApp
       /\ calls stuck = calls demoResultApp.
Proof.
  apply (swipe_up_returns_to_camera demoResultApp (fst demoUp) (snd demoUp)).
  - apply Forall_nil.
  - reflexivity.
  - vm_compute. reflexivity.
Defined.

(** X25: a return to the camera that comes while [playServerAudio] still
    awaits the writing of the temporary file does not end the narration.
    The camera screen is shown and the analysis is gone, and then the file
    is written, the sound plays to its end, and after the pause the safety
    statement of the analysis that was left is spoken. *)
Theorem return_while_preparing (a : App) (c : CaptionData) (audio : jsstring)
    (dx dy : number) :
  appWellFormed a ->
  currentScreen a = resultScreen ->
  isPlaying (state (world a)) = false ->
  audioMode (state (world a)) = server ->
  captionOf (state (world a)) = Some c ->
  truthy (audio_base64 c) = Some audio ->
  soundRef (world a) = None ->
  onPanResponderRelease dx dy = Some CallReturnToCamera ->
  let w := world a in
  let started := appStep a PressSpeak in
  let back := appStep started (ReleaseGesture dx dy) in
  let later :=
    appAnswers back [Settled None; Settled None; Settled None; Settled None] in
  (currentScreen back = cameraScreen
   /\ captions (state (world back)) = []
   /\ hazardInfo (state (world back)) = None
   /\ idle (state (world back))
   /\ since w (world back) = [EvSpeechStop])
  /\ currentScreen later = cameraScreen
  /\ since (world back) (world later)
     = [ EvWrite (clock w);
         EvPlay (S (S (fresh w))) (clock w);
         EvDelete (clock w);
         EvSpeak (translatedSafetyMessage (hazardInfo (state w))
                                          (currentLanguage w))
                 (voice (currentLanguage w)) ].
Proof.
  intros Hw Hs Hp Hm Hc Ha Hr Hg w started back later.
  unfold captionOf in Hc. open_app a. subst scr sr w.
  cbv beta iota delta [currentLanguage state] in *.
  name_safety st Hsafe.
  app_normalize started ltac:(app_press Hp Hc Hm Ha).
  app_normalize back ltac:(app_release Hg).
  app_normalize later ltac:(app_drive Hw).
  conjuncts; read.
Qed.

Lemma return_while_preparing_witness :
  let w := world demoResultApp in
  let started := appStep demoResultApp PressSpeak in
  let back := appStep started (ReleaseGesture (fst demoUp) (snd demoUp)) in
  let later :=
    appAnswers back [Settled None; Settled None; Settled None; Settled None] in
  (currentScreen back = cameraScreen
   /\ captions (state (world back)) = []
   /\ hazardInfo (state (world back)) = None
   /\ idle (state (world back))
   /\ since w (world back) = [EvSpeechStop])
  /\ currentScreen later = cameraScreen
  /\ since (world back) (world later)
     = [ EvWrite (clock w);
         EvPlay (S (S (fresh w))) (clock w);
         EvDelete (clock w);
         EvSpeak (translatedSafetyMessage (hazardInfo (state w))
                                          (currentLanguage w))
                 (voice (currentLanguage w)) ].
Proof.
  apply (return_while_preparing demoResultApp demoCaption demoAudio
           (fst demoUp) (snd demoUp)).
  - apply Forall_nil.
  - reflexivity.
  - reflexivity.
  - reflexivity.
  - reflexivity.
  - reflexivity.
  - reflexivity.
  - vm_compute. reflexivity.
Defined.

(** ** The captions of an analysis *)

Lemma setOwn_fresh {A : Type} k (v : A) o :
  ~ In k (map fst o) -> setOwn k v o = o ++ [(k, v)].
Proof.
  induction o as [|[k0 v0] o IH]; intros H; [reflexivity|].
  simpl in *. destruct (String.eqb_spec k k0) as [->|Hne].
  - exfalso. apply H. left. reflexivity.
  - f_equal. apply IH. intros K. apply H. right. exact K.
Qed.

Lemma processEntry_own acc entry :
  ~ In (fst entry) (map fst acc) ->
  processEntry acc entry = acc ++ ownCaption entry.
Proof.
  destruct entry as [k [data|]]; simpl; intros H.
  - unfold assign. destruct (String.eqb k "__proto__").
    + rewrite app_nil_r. reflexivity.
    + apply setOwn_fresh. exact H.
  - rewrite app_nil_r. reflexivity.
Qed.

Lemma ownCaption_keys entry k :
  In k (map fst (ownCaption entry)) -> k = fst entry.
Proof.
  destruct entry as [k0 [data|]]; simpl; [|intros []].
  destruct (String.eqb k0 "__proto__"); simpl; [intros []|].
  intros [H|[]]. symmetry. exact H.
Qed.

Lemma fold_own entries : forall acc,
  NoDup (map fst entries) ->
  (forall k, In k (map fst entries) -> ~ In k (map fst acc)) ->
  fold_left processEntry entries acc = acc ++ flat_map ownCaption entries.
Proof.
  induction entries as [|e entries IH]; intros acc Hnd Hacc.
  - simpl. rewrite app_nil_r. reflexivity.
  - simpl in Hnd. inversion Hnd as [|? ? Hk Hnd']; subst.
    cbn [fold_left flat_map].
    rewrite processEntry_own by (apply Hacc; left; reflexivity).
    rewrite (IH _ Hnd'), <- app_assoc; [reflexivity|].
    intros k Hin. rewrite map_app, in_app_iff. intros [K|K].
    + exact (Hacc k (or_intror Hin) K).
    + apply ownCaption_keys in K. subst k. exact (Hk Hin).
Qed.

Lemma lookup_app {A : Type} k (o o' : list (string * A)) :
  lookup k (o ++ o')
  = match lookup k o with Some v => Some v | None => lookup k o' end.
Proof.
  induction o as [|[k0 v0] o IH]; [reflexivity|].
  simpl. destruct (String.eqb k k0); [reflexivity|exact IH].
Qed.

Lemma lookup_absent {A : Type} k (o : list (string * A)) :
  ~ In k (map fst o) -> lookup k o = None.
Proof.
  induction o as [|[k0 v0] o IH]; intros H; [reflexivity|].
  simpl in *. destruct (String.eqb_spec k k0) as [->|Hne].
  - exfalso. apply H. left. reflexivity.
  - apply IH. intros K. apply H. right. exact K.
Qed.

Lemma lookup_own entries k :
  NoDup (map fst entries) ->
  lookup k (flat_map ownCaption entries)
  = if String.eqb k "__proto__" then None
    else match lookup k entries with
         | Some (Some data) => Some (processedCaption data)
         | _ => None
         end.
Proof.
  induction entries as [|[k0 d0] entries IH]; intros Hnd.
  - simpl. destruct (String.eqb k "__proto__"); reflexivity.
  - simpl in Hnd. inversion Hnd as [|? ? Hk Hnd']; subst.
    cbn [flat_map lookup]. rewrite lookup_app, (IH Hnd').
    destruct (String.eqb_spec k k0) as [->|Hne].
    + assert (Hn : lookup k0 entries = None) by (apply lookup_absent, Hk).
      rewrite Hn. destruct d0 as [data|]; simpl.
      * destruct (String.eqb k0 "__proto__") eqn:E; simpl;
          [reflexivity|]. rewrite String.eqb_refl. reflexivity.
      * destruct (String.eqb k0 "__proto__"); reflexivity.
    + assert (Hn : lookup k (ownCaption (k0, d0)) = None).
      { apply lookup_absent. intros K. apply ownCaption_keys in K.
        simpl in K. congruence. }
      rewrite Hn. reflexivity.
Qed.

(** X18: the captions made of the entries of [image_caption], the keys of
    the entries being distinct.  The properties of [captions], as
    [Object.keys] gives them, are those of the entries that are objects,
    in their order, the key "__proto__" left out, which sets the prototype
    and adds no property.  Each has the audio of its entry as it is, and its
    text, or "No description available" when the entry has no text.  The
    codes of the catalog, at which the program reads [captions], are no
    names of inherited properties: there a language has a caption exactly
    when its entry is an object. *)
Theorem captions_of_the_objects (entries : list (string * option CaptionJson)) :
  NoDup (map fst entries) ->
  processCaptions entries = flat_map ownCaption entries
  /\ (forall data,
        audio_base64 (processedCaption data) = jsonAudio data
        /\ text (processedCaption data)
           = match jsonText data with
             | Some (c :: t) => c :: t
             | _ => js "No description available"
             end)
  /\ forall l, In l LANGUAGES ->
       (~ In (code l) inheritedNames
        /\ code l <> "text"%string /\ code l <> "audio_base64"%string)
       /\ lookup (code l) (processCaptions entries)
          = match lookup (code l) entries with
            | Some (Some data) => Some (processedCaption data)
            | _ => None
            end.
Proof.
  intros Hnd.
  assert (E : processCaptions entries = flat_map ownCaption entries).
  { unfold processCaptions. rewrite (fold_own entries [] Hnd); [reflexivity|].
    intros k _ []. }
  split; [exact E|]. split.
  - intros data. split; [reflexivity|].
    unfold processedCaption. simpl.
    destruct (jsonText data) as [[|c t]|]; reflexivity.
  - intros l Hl. rewrite E, (lookup_own entries (code l) Hnd).
    unfold LANGUAGES in Hl. simpl in Hl.
    repeat (destruct Hl as [<- | Hl];
            [split; [repeat split; simpl; intuition discriminate
                    |reflexivity]|]).
    contradiction.
Qed.

Lemma captions_of_the_objects_witness :
  processCaptions demoEntries = flat_map ownCaption demoEntries
  /\ (forall data,
        audio_base64 (processedCaption data) = jsonAudio data
        /\ text (processedCaption data)
           = match jsonText data with
             | Some (c :: t) => c :: t
             | _ => js "No description available"
             end)
  /\ forall l, In l LANGUAGES ->
       (~ In (code l) inheritedNames
        /\ code l <> "text"%string /\ code l <> "audio_base64"%string)
       /\ lookup (code l) (processCaptions demoEntries)
          = match lookup (code l) demoEntries with
            | Some (Some data) => Some (processedCaption data)
            | _ => None
            end.
Proof.
  apply (captions_of_the_objects demoEntries).
  vm_compute.
  repeat (apply NoDup_cons; [simpl; intuition discriminate|]).
  apply NoDup_nil.
Defined.

Lemma assign_Forall {A : Type} (P : A -> Prop) k v (o : list (string * A)) :
  P v -> Forall (fun e => P (snd e)) o ->
  Forall (fun e => P (snd e)) (assign k v o).
Proof.
  intros Hv Ho. unfold assign.
  destruct (String.eqb k "__proto__"); [exact Ho|].
  induction Ho as [|[k0 v0] o H0 Ho IH]; simpl.
  - apply Forall_cons; [exact Hv|apply Forall_nil].
  - destruct (String.eqb k k0); apply Forall_cons; assumption.
Qed.

Lemma processedCaption_text data : text (processedCaption data) <> [].
Proof.
  unfold processedCaption. simpl.
  destruct (jsonText data) as [[|c t]|]; simpl; try discriminate;
    vm_compute; discriminate.
Qed.

Lemma processCaptions_texts entries :
  Forall (fun e => text (snd e) <> []) (processCaptions entries).
Proof.
  unfold processCaptions.
  assert (K : forall acc, Forall (fun e => text (snd e) <> []) acc ->
    Forall (fun e => text (snd e) <> [])
      (fold_left processEntry entries acc)).
  { induction entries as [|[k [d|]] entries IH]; intros acc Hacc; simpl.
    - exact Hacc.
    - apply IH. apply (assign_Forall (fun c => text c <> [])).
      + apply processedCaption_text.
      + exact Hacc.
    - apply IH, Hacc. }
  apply K, Forall_nil.
Qed.

Lemma lookup_snd {A : Type} (P : A -> Prop) k (o : list (string * A)) v :
  Forall (fun e => P (snd e)) o -> lookup k o = Some v -> P v.
Proof.
  intros H E. apply lookup_In in E. rewrite Forall_forall in H.
  exact (H _ E).
Qed.

(** X19: with the captions of an analysis, the text of a caption is never
    empty, so the description the result screen shows for a language that
    has a caption is the text the narration speaks, and never the line
    "No description available for this language.". *)
Theorem description_shown_is_spoken (r : AppState)
    (entries : list (string * option CaptionJson)) (c : CaptionData) :
  captions r = processCaptions entries ->
  captionOf r = Some c ->
  text c <> [] /\ descriptionText r = text c.
Proof.
  intros Hc Hl.
  assert (Ht : text c <> []).
  { unfold captionOf in Hl. rewrite Hc in Hl.
    exact (lookup_snd (fun c => text c <> []) _ _ _
             (processCaptions_texts entries) Hl). }
  split; [exact Ht|].
  unfold descriptionText. rewrite Hl. destruct (text c); [congruence|reflexivity].
Qed.

Lemma description_shown_is_spoken_witness :
  text demoCaption <> [] /\ descriptionText demoReceived = text demoCaption.
Proof.
  apply (description_shown_is_spoken demoReceived demoEntries demoCaption).
  - reflexivity.
  - vm_compute. reflexivity.
Defined.

(** X20: the hazard report kept of an analysis is never empty.  When the
    body has no [hazard_detection], or an empty one, the report is "No
    hazard information available", which the detection test takes as free
    of hazards: the narration then says "No hazardous objects present in
    the image". *)
Theorem analysis_without_hazard_report (result : AnalysisResult) :
  receivedHazardInfo result <> []
  /\ (hazard_detection result = None \/ hazard_detection result = Some [] ->
      hasHazardousObjects (Some (receivedHazardInfo result)) = false
      /\ safetyMessage (Some (receivedHazardInfo result)) = noHazardMessage).
Proof.
  split.
  - unfold receivedHazardInfo.
    destruct (hazard_detection result) as [[|c h]|]; simpl; try discriminate;
      vm_compute; discriminate.
  - intros [H|H]; unfold receivedHazardInfo; rewrite H; split;
      vm_compute; reflexivity.
Qed.

(** X15: the playback status of the result screen through a narration
    without rendered audio.  It reads "Playing Description" while the
    description is spoken and "Playing Safety Alert" from then on: during
    the pause, in which nothing is spoken, and during the safety
    statement.  Before and after the narration it is not shown. *)
Theorem playback_status_through_a_narration (w : World) (c : CaptionData) :
  wellFormed w ->
  isPlaying (state w) = false ->
  currentCaption w = Some c ->
  audioMode (state w) = tts \/ hasRenderedAudio (state w) = false ->
  let describing := step w Press in
  let pausing := answer describing None in
  let warning := answer pausing None in
  let done := answer warning None in
  playbackStatusText (state w) = None
  /\ (playbackStatusText (state describing) = Some "Playing Description"%string
      /\ speeches (since w describing)
         = [EvSpeak (text c) (voice (currentLanguage w))])
  /\ (playbackStatusText (state pausing) = Some "Playing Safety Alert"%string
      /\ since describing pausing = [])
  /\ (playbackStatusText (state warning) = Some "Playing Safety Alert"%string
      /\ since pausing warning
         = [EvSpeak (translatedSafetyMessage (hazardInfo (state w))
                                             (currentLanguage w))
                    (voice (currentLanguage w))])
  /\ playbackStatusText (state done) = None.
Proof.
  intros Hw Hp Hc Hs describing pausing warning done.
  assert (Hs' : audioMode (state w) = tts \/ truthy (audio_base64 c) = None).
  { destruct Hs as [Hs|Hs]; [left; exact Hs|right].
    unfold hasRenderedAudio, captionOf in Hs. unfold currentCaption,
      currentLanguage in Hc. rewrite Hc in Hs.
    destruct (truthy (audio_base64 c)); [discriminate|reflexivity]. }
  clear Hs. unfold playbackStatusText at 1. rewrite Hp.
  open_world w. name_safety st Hsafe.
  destruct Hs' as [Hm|Ha].
  - normalize describing ltac:(press Hp Hc Hm Hm).
    normalize pausing ltac:(settle_last Hw).
    normalize warning ltac:(settle_last Hw).
    normalize done ltac:(settle_last Hw).
    conjuncts; read.
  - destruct (audioMode st) eqn:Hm;
      normalize describing ltac:(press Hp Hc Hm Ha);
      normalize pausing ltac:(settle_last Hw);
      normalize warning ltac:(settle_last Hw);
      normalize done ltac:(settle_last Hw);
      conjuncts; read.
Qed.

Lemma playback_status_through_a_narration_witness :
  let describing := step demoTts Press in
  let pausing := answer describing None in
  let warning := answer pausing None in
  let done := answer warning None in
  playbackStatusText (state demoTts) = None
  /\ (playbackStatusText (state describing) = Some "Playing Description"%string
      /\ speeches (since demoTts describing)
         = [EvSpeak (text demoCaption) (voice (currentLanguage demoTts))])
  /\ (playbackStatusText (state pausing) = Some "Playing Safety Alert"%string
      /\ since describing pausing = [])
  /\ (playbackStatusText (state warning) = Some "Playing Safety Alert"%string
      /\ since pausing warning
         = [EvSpeak (translatedSafetyMessage (hazardInfo (state demoTts))
                                             (currentLanguage demoTts))
                    (voice (currentLanguage demoTts))])
  /\ playbackStatusText (state done) = None.
Proof.
  apply (playback_status_through_a_narration demoTts demoCaption).
  - apply Forall_nil.
  - reflexivity.
  - reflexivity.
  - left. reflexivity.
Defined.

(** X13: a change of language that comes while [playServerAudio] still
    awaits the writing of the temporary file does not end the narration.
    The language changes and the flags are reset, and then the file is
    written, the sound of the caption of the language that was left plays
    to its end, and the safety statement is spoken in that language. *)
Theorem swipe_while_preparing (w : World) (c : CaptionData) (a : jsstring) :
  wellFormed w ->
  isPlaying (state w) = false ->
  audioMode (state w) = server ->
  currentCaption w = Some c ->
  truthy (audio_base64 c) = Some a ->
  soundRef w = None ->
  let started := step w Press in
  let swiped := step started Swipe in
  let later := answers swiped [None; None; None; None] in
  (currentLanguageIndex (state swiped)
   = nextLanguageIndex (currentLanguageIndex (state w))
   /\ idle (state swiped)
   /\ since started swiped = [EvSpeechStop])
  /\ since swiped later
     = [ EvWrite (clock w);
         EvPlay (S (S (fresh w))) (clock w);
         EvDelete (clock w);
         EvSpeak (translatedSafetyMessage (hazardInfo (state w))
                                          (currentLanguage w))
                 (voice (currentLanguage w)) ].
Proof.
  intros Hw Hp Hm Hc Ha Hs started swiped later.
  open_world w. subst sr. name_safety st Hsafe.
  normalize started ltac:(press Hp Hc Hm Ha).
  normalize swiped ltac:(unfold step, changeLanguage; exec; reflexivity).
  normalize later ltac:(drive Hw).
  conjuncts; read.
Qed.

Lemma swipe_while_preparing_witness :
  let started := step demoWorld Press in
  let swiped := step started Swipe in
  let later := answers swiped [None; None; None; None] in
  (currentLanguageIndex (state swiped)
   = nextLanguageIndex (currentLanguageIndex (state demoWorld))
   /\ idle (state swiped)
   /\ since started swiped = [EvSpeechStop])
  /\ since swiped later
     = [ EvWrite (clock demoWorld);
         EvPlay (S (S (fresh demoWorld))) (clock demoWorld);
         EvDelete (clock demoWorld);
         EvSpeak (translatedSafetyMessage (hazardInfo (state demoWorld))
                                          (currentLanguage demoWorld))
                 (voice (currentLanguage demoWorld)) ].
Proof.
  apply (swipe_while_preparing demoWorld demoCaption demoAudio).
  - exact demoWorld_wellFormed.
  - reflexivity.
  - reflexivity.
  - reflexivity.
  - reflexivity.
  - reflexivity.
Defined.

(** ** The frame of the narration and of the analysis *)

Lemma laterCaptions_refl a : laterCaptions a a.
Proof. split; [apply le_n|reflexivity]. Qed.

Lemma laterCaptions_trans a b c :
  laterCaptions a b -> laterCaptions b c -> laterCaptions a c.
Proof.
  intros [H1 E1] [H2 E2]. split; [lia|].
  intros E. rewrite E2 by lia. apply E1. lia.
Qed.

Lemma perform_captions {X : Type} (c : cmd X) (w : World) :
  captions (state (snd (perform c w))) = captions (state w).
Proof. destruct c; reflexivity. Qed.

Lemma appPerform_later {X : Type} (c : appCmd X) (a : App) :
  laterCaptions a (snd (appPerform c a)).
Proof.
  destruct c;
    try (split; simpl; [lia|first [reflexivity | intros E; lia]]).
  simpl. pose proof (perform_captions c (world a)) as E.
  destruct (perform c (world a)) as [x w']. simpl in *.
  split; [apply le_n|intros _; exact E].
Qed.

Lemma appIssue_state {X : Type} (o : appOp X) h w :
  state (appIssue o h w) = state w.
Proof. destruct o; try reflexivity. destruct o; reflexivity. Qed.

Lemma appRun_later (p : appProg unit) :
  forall a, laterCaptions a (appRun p a).
Proof.
  induction p as [r|e|X c k IH|X o k IH]; intros a; simpl.
  - apply laterCaptions_refl.
  - apply laterCaptions_refl.
  - pose proof (appPerform_later c a) as L.
    destruct (appPerform c a) as [x a']. simpl in L.
    eapply laterCaptions_trans; [exact L|apply IH].
  - split; simpl; [apply le_n|intros _].
    rewrite appIssue_state. reflexivity.
Qed.

Lemma outcomeOf_state {X : Type} (o : op X) h outcome w x w' :
  outcomeOf o h outcome w = Some (x, w') -> state w' = state w.
Proof.
  unfold outcomeOf.
  destruct outcome; destruct o; simpl;
    repeat match goal with
           | |- context [memNat ?a ?b] => destruct (memNat a b)
           end;
    intros [=]; subst; reflexivity.
Qed.

Lemma appOutcome_state {X : Type} (o : appOp X) h r w x w' :
  appOutcome o h r w = Some (x, w') -> state w' = state w.
Proof.
  destruct o; simpl.
  - destruct r; try discriminate. apply outcomeOf_state.
  - destruct r as [[e|]| | |]; intros [=]; subst; reflexivity.
  - destruct r as [[e|]| | |]; intros [=]; subst; reflexivity.
  - destruct r as [[e|]| | |]; intros [=]; subst; reflexivity.
Qed.

Lemma appSettle_later h r a : laterCaptions a (appSettle h r a).
Proof.
  unfold appSettle.
  destruct (findCall h (calls a)) as [[h' X o k]|];
    [|apply laterCaptions_refl].
  destruct (appOutcome o h r (world a)) as [[x w']|] eqn:E;
    [|apply laterCaptions_refl].
  eapply laterCaptions_trans; [|apply appRun_later].
  split; simpl; [apply le_n|intros _].
  rewrite (appOutcome_state _ _ _ _ _ _ E). reflexivity.
Qed.

Lemma appStep_later a i : laterCaptions a (appStep a i).
Proof.
  unfold appStep.
  destruct i; destruct (currentScreen a);
    try apply laterCaptions_refl;
    try apply appRun_later;
    try apply appSettle_later.
  destruct (onPanResponderRelease dx dy) as [[|]|];
    first [apply appRun_later | apply laterCaptions_refl].
Qed.

(** ** The renders *)

Lemma sameScreen_eq s s' : sameScreen s s' = true -> s = s'.
Proof. destruct s, s'; simpl; congruence. Qed.

Lemma sameDependencies_eq a a' :
  sameDependencies a a' = true ->
  currentLanguageIndex (state (world a))
  = currentLanguageIndex (state (world a'))
  /\ currentScreen a = currentScreen a'
  /\ captionsObject a = captionsObject a'.
Proof.
  unfold sameDependencies. intros H.
  apply andb_prop in H. destruct H as [H H3].
  apply andb_prop in H. destruct H as [H1 H2].
  apply Nat.eqb_eq in H1. apply Nat.eqb_eq in H3.
  apply sameScreen_eq in H2. auto.
Qed.

Lemma sameDependencies_refl a : sameDependencies a a = true.
Proof.
  unfold sameDependencies. rewrite !Nat.eqb_refl.
  destruct (currentScreen a); reflexivity.
Qed.

Lemma shown_render v a' : shown (render v a') = a'.
Proof. unfold render. destruct (sameDependencies _ _); reflexivity. Qed.

Lemma shown_viewStep v i : shown (viewStep v (Of i)) = appStep (shown v) i.
Proof. apply shown_render. Qed.

Lemma render_same v : render v (shown v) = v.
Proof.
  unfold render. rewrite sameDependencies_refl. destruct v; reflexivity.
Qed.

Lemma viewAnswer_render v r :
  viewAnswer v r = render v (appAnswer (shown v) r).
Proof.
  unfold viewAnswer, appAnswer.
  destruct (appPending (shown v)); [reflexivity|].
  symmetry. apply render_same.
Qed.

Lemma shown_viewAnswers rs :
  forall v, shown (viewAnswers v rs) = appAnswers (shown v) rs.
Proof.
  induction rs as [|r rs IH]; intros v; [reflexivity|].
  unfold viewAnswers, appAnswers in *. simpl. rewrite IH.
  rewrite viewAnswer_render, shown_render. reflexivity.
Qed.

Lemma autoPlay_timely a : timely (mkView a (autoPlay a)).
Proof.
  unfold timely, autoPlay. simpl.
  destruct (currentScreen a); [exact I|].
  destruct (captions (state (world a))) as [|c cs] eqn:E; [exact I|].
  simpl. rewrite E. repeat split; congruence.
Qed.

Lemma render_timely v a' :
  timely v -> laterCaptions (shown v) a' -> timely (render v a').
Proof.
  intros Hv [_ Hc]. unfold render.
  destruct (sameDependencies (shown v) a') eqn:E;
    [|apply autoPlay_timely].
  apply sameDependencies_eq in E. destruct E as (Ei & Es & Eo).
  unfold timely in *. simpl.
  destruct (timer v) as [r|]; [|exact I].
  destruct Hv as (H1 & H2 & H3 & H4).
  rewrite <- Es, <- Ei, (Hc Eo). auto.
Qed.

Lemma viewStep_timely v i : timely v -> timely (viewStep v i).
Proof.
  intros Hv. destruct i as [i|]; simpl.
  - apply render_timely; [exact Hv|apply appStep_later].
  - destruct (timer v) as [r|] eqn:E; [|exact Hv].
    apply render_timely; [exact I|apply appRun_later].
Qed.

(** X26: the timer of the narration that starts by itself.  In whatever
    way the application has been used since its first render, while the
    timer is pending the result screen is shown with a caption at least,
    and the [speakCurrentDescription] the timer will call is of a render
    with the language and the captions of now: nothing starts by itself
    on the camera screen, and what starts is never in a language or from
    captions that have been left. *)
Theorem pending_timer_is_timely (a : App) (inputs : list viewInput) :
  let v := viewSteps (mount a) inputs in
  forall r, timer v = Some r ->
    currentScreen (shown v) = resultScreen
    /\ captions (state (world (shown v))) <> []
    /\ currentLanguageIndex r
       = currentLanguageIndex (state (world (shown v)))
    /\ captions r = captions (state (world (shown v))).
Proof.
  intros v r Hr.
  assert (H : timely v).
  { subst v. clear Hr. unfold viewSteps.
    assert (H0 : timely (mount a)) by apply autoPlay_timely.
    revert H0. generalize (mount a).
    induction inputs as [|i inputs IH]; intros v0 H0; [exact H0|].
    simpl. apply IH, viewStep_timely, H0. }
  unfold timely in H. rewrite Hr in H. exact H.
Qed.

Lemma pending_timer_is_timely_witness :
  let v := viewSteps (mount demoCameraApp)
             [Of TouchCamera; Of (Reply 0 (Photo demoPhoto));
              Of (Reply 1 (Responded demoResponse));
              Of (Reply 2 (Parsed (Some demoAnalysis)))] in
  timer v = Some demoReceivedEnglish
  /\ currentScreen (shown v) = resultScreen
  /\ captions (state (world (shown v))) <> []
  /\ currentLanguageIndex demoReceivedEnglish
     = currentLanguageIndex (state (world (shown v)))
  /\ captions demoReceivedEnglish = captions (state (world (shown v))).
Proof.
  assert (H : timer (viewSteps (mount demoCameraApp)
             [Of TouchCamera; Of (Reply 0 (Photo demoPhoto));
              Of (Reply 1 (Responded demoResponse));
              Of (Reply 2 (Parsed (Some demoAnalysis)))])
              = Some demoReceivedEnglish) by (vm_compute; reflexivity).
  split; [exact H|].
  exact (pending_timer_is_timely demoCameraApp _ demoReceivedEnglish H).
Defined.

(** ** Functions that leave the language index alone *)

Lemma steady_bind {A B : Type} (p : prog A) (f : A -> prog B) :
  steady p -> (forall a, steady (f a)) -> steady (bind p f).
Proof.
  intros Hp Hf. induction p as [r|e|X c k IH|X o k IH]; simpl in *.
  - apply Hf.
  - exact I.
  - destruct Hp as [Hc Hk]. split; [exact Hc|]. intros x. apply IH, Hk.
  - intros x. apply IH, Hp.
Qed.

Lemma steady_tryCatch {A : Type} (p : prog A) (h : error -> prog A) :
  steady p -> (forall e, steady (h e)) -> steady (tryCatch p h).
Proof.
  intros Hp Hh. induction p as [r|e|X c k IH|X o k IH]; simpl in *.
  - exact I.
  - apply Hh.
  - destruct Hp as [Hc Hk]. split; [exact Hc|]. intros x. apply IH, Hk.
  - intros x. apply IH, Hp.
Qed.

Lemma steady_tryFinally {A : Type} (p : prog A) (f : prog unit) :
  steady p -> steady f -> steady (tryFinally p f).
Proof.
  intros Hp Hf. induction p as [r|e|X c k IH|X o k IH]; simpl in *.
  - apply steady_bind; [exact Hf|intros; exact I].
  - apply steady_bind; [exact Hf|intros; exact I].
  - destruct Hp as [Hc Hk]. split; [exact Hc|]. intros x. apply IH, Hk.
  - intros x. apply IH, Hp.
Qed.

Lemma steady_call {X : Type} (c : cmd X) : keepsIndex c -> steady (call c).
Proof. intros H. split; [exact H|intros; exact I]. Qed.

Lemma steady_await {X : Type} (o : op X) : steady (await o).
Proof. intros [x|e]; exact I. Qed.

Ltac steady_tac :=
  repeat first
    [ exact I
    | apply steady_await
    | apply steady_call; exact I
    | apply steady_tryFinally
    | apply steady_tryCatch
    | apply steady_bind
    | intros ?
    | match goal with
      | |- steady (match ?x with _ => _ end) => destruct x
      end ].

Lemma steady_stopCurrentAudio : steady stopCurrentAudio.
Proof. unfold stopCurrentAudio. steady_tac. Qed.

Lemma steady_playServerAudio a : steady (playServerAudio a).
Proof. unfold playServerAudio. steady_tac. Qed.

Lemma steady_speakCurrentDescription r : steady (speakCurrentDescription r).
Proof.
  unfold speakCurrentDescription.
  destruct (isPlaying r); [apply steady_stopCurrentAudio|].
  destruct (lookup _ (captions r)) as [c|]; [|apply steady_call; exact I].
  apply steady_tryFinally; [|steady_tac].
  apply steady_tryCatch; [|steady_tac].
  do 2 (apply steady_bind; [apply steady_call; exact I|intros _]).
  apply steady_bind.
  { destruct (audioMode r), (truthy (audio_base64 c));
      try apply steady_await.
    apply steady_tryCatch; [apply steady_playServerAudio|].
    intros e. apply steady_await. }
  intros _. steady_tac.
Qed.

Lemma steady_toggleAudioMode : steady toggleAudioMode.
Proof. unfold toggleAudioMode. apply steady_call. exact I. Qed.

Lemma perform_index {X : Type} (c : cmd X) (w : World) :
  keepsIndex c ->
  currentLanguageIndex (state (snd (perform c w)))
  = currentLanguageIndex (state w).
Proof. destruct c; simpl; intros H; try reflexivity. destruct H. Qed.

Lemma sameDependencies_intro a a' :
  currentLanguageIndex (state (world a))
  = currentLanguageIndex (state (world a')) ->
  currentScreen a = currentScreen a' ->
  captionsObject a = captionsObject a' ->
  sameDependencies a a' = true.
Proof.
  intros E1 E2 E3. unfold sameDependencies.
  rewrite E1, E2, E3, !Nat.eqb_refl.
  destruct (currentScreen a'); reflexivity.
Qed.

Lemma sameDependencies_screen a a' :
  currentScreen a <> currentScreen a' -> sameDependencies a a' = false.
Proof.
  intros H. unfold sameDependencies.
  destruct (currentScreen a), (currentScreen a'); try congruence;
    simpl; rewrite andb_false_r; reflexivity.
Qed.

Lemma sameDependencies_index a a' :
  currentLanguageIndex (state (world a))
  <> currentLanguageIndex (state (world a')) ->
  sameDependencies a a' = false.
Proof.
  intros H. unfold sameDependencies.
  apply Nat.eqb_neq in H. rewrite H. reflexivity.
Qed.

(** the first turn of a function of the narration *)
Lemma lift_turn (p : prog unit) :
  steady p ->
  forall a,
    currentLanguageIndex (state (world (appRun (lift p) a)))
    = currentLanguageIndex (state (world a))
    /\ currentScreen (appRun (lift p) a) = currentScreen a
    /\ captionsObject (appRun (lift p) a) = captionsObject a.
Proof.
  induction p as [r|e|X c k IH|X o k IH]; intros Hp a; simpl.
  - auto.
  - auto.
  - destruct Hp as [Hc Hk].
    pose proof (perform_index c (world a) Hc) as E.
    destruct (perform c (world a)) as [x w']. simpl in E.
    destruct (IH x (Hk x) (withWorld w' a)) as (E1 & E2 & E3).
    rewrite E1, E2, E3. simpl. auto.
  - destruct o; repeat split.
Qed.

Lemma lift_sameDependencies (p : prog unit) a :
  steady p -> sameDependencies a (appRun (lift p) a) = true.
Proof.
  intros Hp. destruct (lift_turn p Hp a) as (E1 & E2 & E3).
  apply sameDependencies_intro; congruence.
Qed.

Lemma render_kept v a' :
  sameDependencies (shown v) a' = true -> render v a' = mkView a' (timer v).
Proof. unfold render. intros ->. reflexivity. Qed.

Lemma render_anew v a' :
  sameDependencies (shown v) a' = false ->
  render v a' = mkView a' (autoPlay a').
Proof. unfold render. intros ->. reflexivity. Qed.

Lemma appStep_PressSpeak a :
  currentScreen a = resultScreen ->
  appStep a PressSpeak
  = appRun (lift (speakCurrentDescription (state (world a)))) a.
Proof. unfold appStep. intros ->. reflexivity. Qed.

(** the timer of a view fires *)
Lemma fires v r :
  timer v = Some r ->
  viewStep v TimerFires
  = mkView (appRun (lift (speakCurrentDescription r)) (shown v)) None.
Proof.
  intros H. simpl. rewrite H. apply render_kept. simpl.
  apply lift_sameDependencies, steady_speakCurrentDescription.
Qed.

Lemma pressed_keeps_timer v :
  viewStep v (Of PressSpeak)
  = mkView (appStep (shown v) PressSpeak) (timer v).
Proof.
  unfold viewStep. apply render_kept. unfold appStep.
  destruct (currentScreen (shown v)); [apply sameDependencies_refl|].
  apply lift_sameDependencies, steady_speakCurrentDescription.
Qed.

Lemma switched_keeps_timer v :
  viewStep v (Of PressMode)
  = mkView (appStep (shown v) PressMode) (timer v).
Proof.
  unfold viewStep. apply render_kept. unfold appStep.
  destruct (currentScreen (shown v)); [apply sameDependencies_refl|].
  apply lift_sameDependencies, steady_toggleAudioMode.
Qed.

(** X27: the narration that starts by itself is that of the render in
    which its timer was set.  A press of the speak button or of the audio
    mode button while the timer is pending leaves the timer as it is, and
    when it fires, [speakCurrentDescription] runs with the state of that
    earlier render: it does not see that a narration has been started, nor
    that the audio mode has been changed. *)
Theorem timer_keeps_its_render (v : View) (r : AppState) :
  timer v = Some r ->
  (let pressed := viewStep v (Of PressSpeak) in
   pressed = mkView (appStep (shown v) PressSpeak) (Some r)
   /\ viewStep pressed TimerFires
      = mkView (appRun (lift (speakCurrentDescription r))
                       (appStep (shown v) PressSpeak)) None)
  /\ (let switched := viewStep v (Of PressMode) in
      switched = mkView (appStep (shown v) PressMode) (Some r)
      /\ viewStep switched TimerFires
         = mkView (appRun (lift (speakCurrentDescription r))
                          (appStep (shown v) PressMode)) None).
Proof.
  intros H. split; intros x; subst x.
  - rewrite pressed_keeps_timer, H. split; [reflexivity|].
    apply fires. reflexivity.
  - rewrite switched_keeps_timer, H. split; [reflexivity|].
    apply fires. reflexivity.
Qed.

Lemma timer_keeps_its_render_witness :
  (let pressed := viewStep demoView (Of PressSpeak) in
   pressed = mkView (appStep (shown demoView) PressSpeak)
                    (Some demoReceivedEnglish)
   /\ viewStep pressed TimerFires
      = mkView (appRun (lift (speakCurrentDescription demoReceivedEnglish))
                       (appStep (shown demoView) PressSpeak)) None)
  /\ (let switched := viewStep demoView (Of PressMode) in
      switched = mkView (appStep (shown demoView) PressMode)
                        (Some demoReceivedEnglish)
      /\ viewStep switched TimerFires
         = mkView (appRun (lift (speakCurrentDescription demoReceivedEnglish))
                          (appStep (shown demoView) PressMode)) None).
Proof.
  apply (timer_keeps_its_render demoView demoReceivedEnglish).
  vm_compute. reflexivity.
Defined.

(** ** The turns of an analysis and of a language change *)

Lemma analysis_turns (a : App) (photo : jsstring) (response : Response)
    (result : AnalysisResult) :
  appWellFormed a ->
  currentScreen a = cameraScreen ->
  isLoading a = false ->
  cameraRef a = true ->
  ok response = true ->
  currentScreen (appAnswers (appStep a TouchCamera)
                   [Photo photo; Responded response]) = cameraScreen
  /\ currentScreen (appAnswers (appStep a TouchCamera)
                      [Photo photo; Responded response;
                       Parsed (Some result)]) = resultScreen.
Proof.
  intros Hw Hs Hl Hc Hok. open_app a. subst scr ldg cam.
  destruct response as [okr str]. simpl in Hok. subst okr.
  set (loading := appStep _ TouchCamera).
  app_normalize loading ltac:(app_exec; reflexivity).
  split.
  - set (x := appAnswers _ _).
    app_normalize x ltac:(app_drive Hw). reflexivity.
  - set (x := appAnswers _ _).
    destruct result as [[entries|] hz];
      app_normalize x ltac:(app_drive Hw); reflexivity.
Qed.

Lemma viewAnswers_last v rs r :
  viewAnswers v (rs ++ [r])
  = render (viewAnswers v rs) (appAnswers (shown v) (rs ++ [r])).
Proof.
  unfold viewAnswers, appAnswers. rewrite !fold_left_app. simpl.
  rewrite viewAnswer_render. f_equal.
  pose proof (shown_viewAnswers rs v) as E.
  unfold viewAnswers, appAnswers in E. rewrite E. reflexivity.
Qed.

Lemma autoPlay_result a :
  currentScreen a = resultScreen ->
  autoPlay a = match captions (state (world a)) with
               | [] => None
               | _ :: _ => Some (state (world a))
               end.
Proof. unfold autoPlay. intros ->. reflexivity. Qed.

Lemma fires_as_pressed v :
  currentScreen (shown v) = resultScreen ->
  timer v = Some (state (world (shown v))) ->
  viewStep v TimerFires = mkView (appStep (shown v) PressSpeak) None.
Proof.
  intros Hs Ht. rewrite (fires _ _ Ht), (appStep_PressSpeak _ Hs).
  reflexivity.
Qed.

(** X28: the narration starts by itself when an analysis has come.  With
    the last reply of the server the result screen is shown; if the
    analysis has left a caption at least, the timer is set in that render,
    and when it fires the narration starts as by a press of the speak
    button at that moment.  If it has left no caption, no timer is set and
    nothing starts. *)
Theorem narration_starts_after_analysis (v : View) (photo : jsstring)
    (response : Response) (result : AnalysisResult) :
  appWellFormed (shown v) ->
  currentScreen (shown v) = cameraScreen ->
  isLoading (shown v) = false ->
  cameraRef (shown v) = true ->
  ok response = true ->
  let received :=
    viewAnswers (viewStep v (Of TouchCamera))
      [Photo photo; Responded response; Parsed (Some result)] in
  let now := state (world (shown received)) in
  shown received
  = appAnswers (appStep (shown v) TouchCamera)
      [Photo photo; Responded response; Parsed (Some result)]
  /\ (captions now <> [] ->
      timer received = Some now
      /\ viewStep received TimerFires
         = mkView (appStep (shown received) PressSpeak) None)
  /\ (captions now = [] ->
      timer received = None
      /\ viewStep received TimerFires = received).
Proof.
  intros Hw Hs Hl Hc Hok received now.
  destruct (analysis_turns _ photo response result Hw Hs Hl Hc Hok)
    as [H3 H4].
  assert (Hshown : shown received
                   = appAnswers (appStep (shown v) TouchCamera)
                       [Photo photo; Responded response;
                        Parsed (Some result)]).
  { subst received. rewrite shown_viewAnswers, shown_viewStep. reflexivity. }
  assert (Ht : timer received = autoPlay (shown received)).
  { rewrite Hshown. subst received.
    change [Photo photo; Responded response; Parsed (Some result)]
      with ([Photo photo; Responded response] ++ [Parsed (Some result)]).
    rewrite viewAnswers_last, shown_viewStep, render_anew; [reflexivity|].
    apply sameDependencies_screen.
    rewrite shown_viewAnswers, shown_viewStep. simpl app.
    rewrite H3, H4. discriminate. }
  assert (Hr : currentScreen (shown received) = resultScreen)
    by (rewrite Hshown; exact H4).
  rewrite (autoPlay_result _ Hr) in Ht. fold now in Ht.
  split; [exact Hshown|]. split; intros Hcap.
  - destruct (captions now) as [|c cs] eqn:E; [congruence|].
    split; [exact Ht|]. apply fires_as_pressed; [exact Hr|exact Ht].
  - rewrite Hcap in Ht. split; [exact Ht|].
    simpl. rewrite Ht. reflexivity.
Qed.

Lemma narration_starts_after_analysis_witness :
  let received :=
    viewAnswers (viewStep (mount demoCameraApp) (Of TouchCamera))
      [Photo demoPhoto; Responded demoResponse; Parsed (Some demoAnalysis)] in
  let now := state (world (shown received)) in
  shown received
  = appAnswers (appStep (shown (mount demoCameraApp)) TouchCamera)
      [Photo demoPhoto; Responded demoResponse; Parsed (Some demoAnalysis)]
  /\ (captions now <> [] ->
      timer received = Some now
      /\ viewStep received TimerFires
         = mkView (appStep (shown received) PressSpeak) None)
  /\ (captions now = [] ->
      timer received = None
      /\ viewStep received TimerFires = received).
Proof.
  apply (narration_starts_after_analysis (mount demoCameraApp) demoPhoto
           demoResponse demoAnalysis).
  - apply Forall_nil.
  - reflexivity.
  - reflexivity.
  - reflexivity.
  - reflexivity.
Defined.

Lemma nextLanguageIndex_other i : nextLanguageIndex i <> i.
Proof.
  unfold nextLanguageIndex.
  change (length LANGUAGES) with 6.
  pose proof (Nat.mod_upper_bound (i + 1) 6 ltac:(discriminate)) as H.
  intros E. rewrite E in H.
  do 6 (destruct i as [|i]; [discriminate E|]). lia.
Qed.

Lemma language_change_turns (a : App) (dx dy : number) :
  appWellFormed a ->
  currentScreen a = resultScreen ->
  onPanResponderRelease dx dy = Some CallChangeLanguage ->
  let released := appStep a (ReleaseGesture dx dy) in
  let changed :=
    match soundRef (world a) with
    | Some _ => appAnswer released (Settled None)
    | None => released
    end in
  (soundRef (world a) <> None -> sameDependencies a released = true)
  /\ currentLanguageIndex (state (world changed))
     = nextLanguageIndex (currentLanguageIndex (state (world a)))
  /\ captions (state (world changed)) = captions (state (world a))
  /\ currentScreen changed = resultScreen.
Proof.
  intros Hw Hs Hr released changed. open_app a. subst scr.
  app_normalize released ltac:(app_release Hr).
  destruct sr as [s|].
  - cbv beta iota in changed.
    app_normalize changed ltac:(app_settle_last Hw).
    split; [intros _|repeat split].
    unfold sameDependencies. simpl. rewrite !Nat.eqb_refl. reflexivity.
  - cbv beta iota in changed. subst changed.
    split; [congruence|repeat split].
Qed.

(** X29: the narration starts again by itself when the language has been
    changed.  When [changeLanguage] has run to its end on the result
    screen, the index is the next one; if there is a caption at least, a
    timer is set in that render, whatever timer was pending before, and
    when it fires the narration starts as by a press of the speak button
    at that moment, in the new language.  Without captions no timer is
    set. *)
Theorem narration_restarts_after_language_change (v : View)
    (dx dy : number) :
  appWellFormed (shown v) ->
  currentScreen (shown v) = resultScreen ->
  onPanResponderRelease dx dy = Some CallChangeLanguage ->
  let released := viewStep v (Of (ReleaseGesture dx dy)) in
  let changed :=
    match soundRef (world (shown v)) with
    | Some _ => viewAnswer released (Settled None)
    | None => released
    end in
  let now := state (world (shown changed)) in
  currentLanguageIndex now
  = nextLanguageIndex (currentLanguageIndex (state (world (shown v))))
  /\ captions now = captions (state (world (shown v)))
  /\ (captions now <> [] ->
      timer changed = Some now
      /\ viewStep changed TimerFires
         = mkView (appStep (shown changed) PressSpeak) None)
  /\ (captions now = [] -> timer changed = None).
Proof.
  intros Hw Hs Hr released changed now.
  destruct (language_change_turns _ dx dy Hw Hs Hr) as (Hk & Hi & Hc & Hn).
  set (a' := match soundRef (world (shown v)) with
             | Some _ =>
               appAnswer (appStep (shown v) (ReleaseGesture dx dy))
                         (Settled None)
             | None => appStep (shown v) (ReleaseGesture dx dy)
             end) in *.
  assert (Hshown : shown changed = a').
  { subst changed a' released. destruct (soundRef (world (shown v))).
    - rewrite viewAnswer_render, shown_render, shown_viewStep. reflexivity.
    - apply shown_viewStep. }
  assert (Ht : timer changed = autoPlay a').
  { subst changed a' released. unfold viewStep.
    destruct (soundRef (world (shown v))) as [s|] eqn:Es.
    - rewrite viewAnswer_render, shown_render.
      rewrite render_anew; [reflexivity|].
      rewrite shown_render. apply sameDependencies_index.
      rewrite Hi.
      assert (Hsame : sameDependencies (shown v)
                (appStep (shown v) (ReleaseGesture dx dy)) = true)
        by (apply Hk; discriminate).
      apply sameDependencies_eq in Hsame. destruct Hsame as (E & _ & _).
      rewrite <- E. intros E'. symmetry in E'.
      exact (nextLanguageIndex_other _ E').
    - rewrite render_anew; [reflexivity|].
      apply sameDependencies_index. rewrite Hi.
      intros E'. symmetry in E'. exact (nextLanguageIndex_other _ E'). }
  rewrite (autoPlay_result _ Hn) in Ht.
  subst now. rewrite Hshown.
  split; [exact Hi|]. split; [exact Hc|]. split; intros Hcap.
  - destruct (captions (state (world a'))) as [|c cs] eqn:E; [congruence|].
    split; [exact Ht|].
    rewrite <- Hshown. apply fires_as_pressed; rewrite Hshown; assumption.
  - rewrite Hcap in Ht. exact Ht.
Qed.

Lemma narration_restarts_after_language_change_witness :
  let v := demoView in
  let released :=
    viewStep v (Of (ReleaseGesture (fst demoLeft) (snd demoLeft))) in
  let changed :=
    match soundRef (world (shown v)) with
    | Some _ => viewAnswer released (Settled None)
    | None => released
    end in
  let now := state (world (shown changed)) in
  currentLanguageIndex now
  = nextLanguageIndex (currentLanguageIndex (state (world (shown v))))
  /\ captions now = captions (state (world (shown v)))
  /\ (captions now <> [] ->
      timer changed = Some now
      /\ viewStep changed TimerFires
         = mkView (appStep (shown changed) PressSpeak) None)
  /\ (captions now = [] -> timer changed = None).
Proof.
  apply (narration_restarts_after_language_change demoView
           (fst demoLeft) (snd demoLeft)).
  - vm_compute. apply Forall_nil.
  - vm_compute. reflexivity.
  - vm_compute. reflexivity.
Defined.

(** X30: the speak button pressed in the half second before the timer
    fires starts the narration twice.  The timer was set in a render in
    which nothing played; when it fires after the press, its
    [speakCurrentDescription] does not stop the narration the press has
    started, as a second press would, but starts another: without
    rendered audio the description is handed to the synthesizer a second
    time, and the synthesizer has both utterances. *)
Theorem pressed_before_the_timer (v : View) (c : CaptionData) :
  timer v = Some (state (world (shown v))) ->
  currentScreen (shown v) = resultScreen ->
  isPlaying (state (world (shown v))) = false ->
  captionOf (state (world (shown v))) = Some c ->
  audioMode (state (world (shown v))) = tts
  \/ truthy (audio_base64 c) = None ->
  let w := world (shown v) in
  let spoken := EvSpeak (text c) (voice (currentLanguage w)) in
  let pressed := viewStep v (Of PressSpeak) in
  let fired := viewStep pressed TimerFires in
  since w (world (shown pressed)) = [spoken]
  /\ since w (world (shown fired)) = [spoken; spoken]
  /\ speaking (world (shown fired)) = S (fresh w) :: fresh w :: speaking w
  /\ isPlaying (state (world (shown fired))) = true
  /\ timer fired = None.
Proof.
  intros Ht Hs Hp Hc Hmode w spoken pressed fired.
  assert (Ef : fired
               = mkView (appRun (lift (speakCurrentDescription
                                         (state (world (shown v)))))
                                (appStep (shown v) PressSpeak)) None).
  { subst fired pressed. rewrite pressed_keeps_timer. apply fires. exact Ht. }
  assert (Ep : shown pressed = appStep (shown v) PressSpeak)
    by apply shown_viewStep.
  rewrite Ef, Ep. clear Ef Ep fired pressed Ht.
  cbv beta iota delta [shown timer].
  destruct v as [a t]. cbv beta iota delta [shown] in *.
  unfold captionOf in Hc. open_app a. subst scr w spoken.
  cbv beta iota delta [currentLanguage state] in *.
  set (started := appStep _ PressSpeak).
  set (twice := appRun _ started).
  destruct Hmode as [Hm|Ha].
  - app_normalize started ltac:(app_press Hp Hc Hm Hm).
    app_normalize twice ltac:(
      unfold speakCurrentDescription; rewrite ?Hp, ?Hc, ?Hm;
      app_exec; reflexivity).
    conjuncts; read.
  - destruct (audioMode st) eqn:Hm.
    + app_normalize started ltac:(app_press Hp Hc Hm Ha).
      app_normalize twice ltac:(
        unfold speakCurrentDescription; rewrite ?Hp, ?Hc, ?Hm, ?Ha;
        app_exec; reflexivity).
      conjuncts; read.
    + app_normalize started ltac:(app_press Hp Hc Hm Ha).
      app_normalize twice ltac:(
        unfold speakCurrentDescription; rewrite ?Hp, ?Hc, ?Hm, ?Ha;
        app_exec; reflexivity).
      conjuncts; read.
Qed.

Lemma pressed_before_the_timer_witness :
  let w := world (shown demoThird) in
  let spoken := EvSpeak (text demoPlain) (voice (currentLanguage w)) in
  let pressed := viewStep demoThird (Of PressSpeak) in
  let fired := viewStep pressed TimerFires in
  since w (world (shown pressed)) = [spoken]
  /\ since w (world (shown fired)) = [spoken; spoken]
  /\ speaking (world (shown fired)) = S (fresh w) :: fresh w :: speaking w
  /\ isPlaying (state (world (shown fired))) = true
  /\ timer fired = None.
Proof.
  apply (pressed_before_the_timer demoThird demoPlain).
  - vm_compute. reflexivity.
  - vm_compute. reflexivity.
  - vm_compute. reflexivity.
  - vm_compute. reflexivity.
  - right. vm_compute. reflexivity.
Defined.
